(** * zk-kit-mcp: package registry, naming rules and discovery pipeline

    A shallow embedding of [src/config.ts], [src/registry.ts],
    [src/discovery.ts], [src/cache.ts], of the helpers, the registry
    tools and the README cache of [src/index.ts] and of the text
    helpers of [src/github.ts], followed by the properties the
    specification states about them and by further properties of the
    code.

    Modelling conventions.
    - JavaScript strings are Rocq strings.  Case mapping and the [\s]
      character class are defined on the 7-bit ASCII range, the alphabet
      of npm, crate and directory names, where they are those of
      JavaScript.  A property that rests on what upper-casing does, or on
      where a query is split into terms, is stated for strings of that
      range ([isAscii]) or for white space of that range.
    - An object literal used as a lookup table is a finite map over its
      own keys, and a lookup in it also finds the members the literal
      inherits from [Object.prototype] ([getProperty]).  The keys of
      [LANGUAGE_ORDER] and of the outer table of [NAME_OVERRIDES] are
      language names, none of which is such a member.
    - [Map] and [Set] values whose iteration order is never observed are
      [gmap]/[gset]; where the order is rendered they are lists without
      duplicates in insertion order.
    - [Array.prototype.sort] is a stable sort; for a consistent comparator
      its result is the one stable insertion sort computes.  Where the
      comparator can throw it matters which calls are made, which is up
      to the engine.  The model makes those of a straight insertion
      sort: the element being placed is the first argument, and the
      elements of the sorted part in front of it are the second, from
      the last one down.  V8 places the elements in the same way, by
      binary insertion, in arrays of fewer than 64 elements.
    - [String.prototype.localeCompare] and [Number.prototype.toFixed] are
      platform functions; they are parameters of the definitions using
      them.
    - A promise is represented by the way it settles.  Calls to [logger],
      which return nothing and change no value, are left out.
    - [Date.now()] is an argument of the operation that reads it; clock
      readings and durations are integers, in milliseconds. *)

From Stdlib Require Import ZArith Lia Ascii String List Permutation Sorted DecimalString.
From stdpp Require Import base option list strings gmap.

Local Open Scope string_scope.
Local Open Scope Z_scope.
Local Open Scope list_scope.

(** ** String.prototype *)

Module JsString.

Definition isUpper (c : ascii) : bool :=
  let n := N_of_ascii c in (65 <=? n)%N && (n <=? 90)%N.

Definition isLower (c : ascii) : bool :=
  let n := N_of_ascii c in (97 <=? n)%N && (n <=? 122)%N.

(** The case mappings of the letters A to Z and a to z; every other
    character is left as it is. *)
Definition lowerChar (c : ascii) : ascii :=
  if isUpper c then ascii_of_N (N_of_ascii c + 32) else c.

Definition upperChar (c : ascii) : ascii :=
  if isLower c then ascii_of_N (N_of_ascii c - 32) else c.

Fixpoint mapChars (f : ascii → ascii) (s : string) : string :=
  match s with
  | EmptyString => EmptyString
  | String c r => String (f c) (mapChars f r)
  end.

Definition toLowerCase : string → string := mapChars lowerChar.
Definition toUpperCase : string → string := mapChars upperChar.

(** The strings on which the definitions above are those of JavaScript:
    every code unit is below 128. *)
Definition isAsciiChar (c : ascii) : bool := (N_of_ascii c <? 128)%N.

Definition isAscii (s : string) : bool := forallb isAsciiChar (list_ascii_of_string s).

(** [s.replace(/c/g, d)] for a one-character pattern. *)
Definition replaceAllChar (c d : ascii) : string → string :=
  mapChars (λ x, if Ascii.eqb x c then d else x).

Fixpoint dropChars (n : nat) (s : string) : string :=
  match n, s with
  | O, _ => s
  | S _, EmptyString => EmptyString
  | S m, String _ r => dropChars m r
  end.

Definition startsWith (s pre : string) : bool := String.prefix pre s.

(** [s.replace(/^pre/, empty)] for a literal [pre]. *)
Definition stripPrefix (pre s : string) : string :=
  if startsWith s pre then dropChars (String.length pre) s else s.

(** [hay.includes(needle)] *)
Fixpoint includes (hay needle : string) : bool :=
  String.prefix needle hay ||
  match hay with
  | EmptyString => false
  | String _ r => includes r needle
  end.

(** The class [\s] on ASCII: TAB, LF, VT, FF, CR and space. *)
Definition isSpace (c : ascii) : bool :=
  let n := N_of_ascii c in ((9 <=? n)%N && (n <=? 13)%N) || (n =? 32)%N.

(** [s.split(/\s+/)]: the pieces between maximal runs of white space,
    with an empty first (last) piece when [s] starts (ends) with one. *)
Fixpoint splitWsFrom (inSep : bool) (cur s : string) : list string :=
  match s with
  | EmptyString => [cur]
  | String c r =>
      if isSpace c then
        if inSep then splitWsFrom true EmptyString r else cur :: splitWsFrom true EmptyString r
      else splitWsFrom false (cur +:+ String c EmptyString) r
  end.

Definition splitWs (s : string) : list string := splitWsFrom false EmptyString s.

(** A string is truthy when it is not empty. *)
Definition truthy (s : string) : bool := negb (String.eqb s EmptyString).

(** [s.toLowerCase().split(/\s+/).filter(Boolean)] *)
Definition terms (s : string) : list string :=
  List.filter truthy (splitWs (toLowerCase s)).

(** [xs.join(sep)] *)
Definition join (sep : string) (xs : list string) : string := String.concat sep xs.

(** Decimal rendering of a non-negative integer in a template literal. *)
Definition ofNat (n : nat) : string := NilEmpty.string_of_uint (Nat.to_uint n).

(** Code-unit comparison, the order of [Array.prototype.sort] without a
    comparator. *)
Definition compareCodeUnits (a b : string) : Z :=
  match String.compare a b with
  | Lt => -1
  | Eq => 0
  | Gt => 1
  end.

(** [s.slice(0, n)] for a non-negative [n]. *)
Fixpoint sliceTo (n : nat) (s : string) : string :=
  match n, s with
  | O, _ => EmptyString
  | S _, EmptyString => EmptyString
  | S m, String c r => String c (sliceTo m r)
  end.

(** [s.lastIndexOf(needle)]: the last index at which [needle] starts,
    -1 when there is none; [i] is the index of the head of [s] and
    [found] the last index seen before it. *)
Fixpoint lastIndexFrom (i : Z) (found : Z) (s needle : string) : Z :=
  let found := if String.prefix needle s then i else found in
  match s with
  | EmptyString => found
  | String _ r => lastIndexFrom (i + 1) found r needle
  end.

Definition lastIndexOf (s needle : string) : Z := lastIndexFrom 0 (-1) s needle.

(** [s.replace(pat, empty)] for a string [pat]: the first occurrence
    is removed. *)
Fixpoint removeFirst (pat s : string) : string :=
  if String.prefix pat s then dropChars (String.length pat) s
  else match s with
       | EmptyString => EmptyString
       | String c r => String c (removeFirst pat r)
       end.

(** What is left of [s] in front of the suffix [suf], if [s] ends
    with it. *)
Fixpoint stripSuffix (suf s : string) : option string :=
  if String.eqb s suf then Some EmptyString
  else match s with
       | EmptyString => None
       | String c r => String c <$> stripSuffix suf r
       end.

End JsString.

(** ** Values and completions *)

(** What a property lookup in a table of strings can give: a string, or
    the member that [Object.prototype] holds under [key] (a function, or
    for [__proto__] the prototype itself). *)
Inductive JsValue :=
| Str (s : string)
| Inherited (key : string).

(** [Boolean(v)]: functions and objects are truthy. *)
Definition truthyValue (v : JsValue) : bool :=
  match v with
  | Str s => JsString.truthy s
  | Inherited _ => true
  end.

(** [String(v)], as in a template literal.  V8 renders a built-in
    function by its name; the constructor of [Object.prototype] is
    [Object], and the prototype itself is rendered by its own
    [toString]. *)
Definition toStringValue (v : JsValue) : string :=
  match v with
  | Str s => s
  | Inherited key =>
      if String.eqb key "__proto__" then "[object Object]"
      else "function " +:+ (if String.eqb key "constructor" then "Object" else key)
           +:+ "() { [native code] }"
  end.

(** How a call ends: with a value, or by throwing. *)
Inductive Completion (A : Type) :=
| Normal (value : A)
| Throw (error : string).
Arguments Normal {A} value.
Arguments Throw {A} error.

#[export] Instance Completion_bind : MBind Completion := λ A B k c,
  match c with
  | Normal value => k value
  | Throw error => Throw error
  end.

#[export] Instance Completion_fmap : FMap Completion := λ A B f c,
  match c with
  | Normal value => Normal (f value)
  | Throw error => Throw error
  end.

(** ** Array.prototype *)

Module JsArray.

Section Sort.
Context {A : Type}.
Variable cmp : A → A → Z.

(** [x] stood before every element of [l] in the array: it goes in
    front of the first element it does not compare greater than. *)
Fixpoint insertSorted (x : A) (l : list A) : list A :=
  match l with
  | [] => [x]
  | y :: t => if cmp x y <=? 0 then x :: y :: t else y :: insertSorted x t
  end.

Definition sort (l : list A) : list A := foldr insertSorted [] l.
End Sort.

Section SortWith.
Context {A : Type}.
Variable cmp : A → A → Completion Z.

(** [x] is the next element of the array and [before] the sorted part
    in front of it, from its last element to its first: [x] is compared
    with the element before it, then with the earlier ones for as long
    as it compares less. *)
Fixpoint place (x : A) (before : list A) : Completion (list A) :=
  match before with
  | [] => Normal [x]
  | y :: rest =>
      order ← cmp x y;
      if order <? 0 then cons y <$> place x rest else Normal (x :: y :: rest)
  end.

(** [xs.sort(cmp)] for a comparator that may throw: the exception ends
    the sort. *)
Definition sortWith (l : list A) : Completion (list A) :=
  @rev A <$> foldl (λ sorted x, sorted ≫= place x) (Normal []) l.
End SortWith.

(** [[...new Set(xs)]]: first occurrences, in order. *)
Fixpoint unique (seen xs : list string) : list string :=
  match xs with
  | [] => []
  | x :: t =>
      if existsb (String.eqb x) seen then unique seen t
      else x :: unique (x :: seen) t
  end.

Definition setOf (xs : list string) : list string := unique [] xs.

(** [xs.includes(x)] on an array of strings. *)
Definition includes (xs : list string) (x : string) : bool := existsb (String.eqb x) xs.

Definition sortStrings : list string → list string := sort JsString.compareCodeUnits.

End JsArray.

(** ** src/types.ts *)

Inductive Language := typescript | circom | solidity | noir | rust.

Inductive Category := merkle_trees | cryptography | identity | access_control | math | other.

Definition Language_eqb (a b : Language) : bool :=
  match a, b with
  | typescript, typescript | circom, circom | solidity, solidity
  | noir, noir | rust, rust => true
  | _, _ => false
  end.

Definition Category_eqb (a b : Category) : bool :=
  match a, b with
  | merkle_trees, merkle_trees | cryptography, cryptography | identity, identity
  | access_control, access_control | math, math | other, other => true
  | _, _ => false
  end.

(** The string each enum member is at run time. *)
Definition languageName (l : Language) : string :=
  match l with
  | typescript => "typescript"
  | circom => "circom"
  | solidity => "solidity"
  | noir => "noir"
  | rust => "rust"
  end.

Definition categoryName (c : Category) : string :=
  match c with
  | merkle_trees => "merkle-trees"
  | cryptography => "cryptography"
  | identity => "identity"
  | access_control => "access-control"
  | math => "math"
  | other => "other"
  end.

Record RepoConfig := {
  slug : string;
  repoLanguage : Language;
  packagePath : string;
  branch : string
}.

(** The fields of [Package], with [name] at the type [Name]. *)
Record PackageOf (Name : Type) := {
  name : Name;
  dirName : string;
  language : Language;
  category : Category;
  repo : string;
  description : string;
  installCommand : string;
  crossLanguageId : string;
  version : option string;
  zkKitDependencies : list string
}.
Arguments Build_PackageOf {Name}.
Arguments name {Name}.
Arguments dirName {Name}.
Arguments language {Name}.
Arguments category {Name}.
Arguments repo {Name}.
Arguments description {Name}.
Arguments installCommand {Name}.
Arguments crossLanguageId {Name}.
Arguments version {Name}.
Arguments zkKitDependencies {Name}.

(** [interface Package]: the name is a string. *)
Abbreviation Package := (PackageOf string).

(** ** Regular expressions of src/config.ts *)

Module Regex.

Inductive regex :=
| Lit (s : string)          (* a literal run of characters *)
| Seq (r1 r2 : regex)
| Alt (r1 r2 : regex)       (* r1|r2 *)
| Opt (r : regex)           (* r? *)
| Bol                       (* ^ *)
| Eol.                      (* $ *)

(** A position in the subject: whether it is the start, and what is
    left to read. *)
Definition pos : Type := bool * string.

(** All positions at which a match of [r] begun at [p] can end, in
    backtracking order. *)
Fixpoint ends (r : regex) (p : pos) : list pos :=
  match r with
  | Lit s =>
      if String.prefix s p.2
      then [(p.1 && String.eqb s EmptyString, JsString.dropChars (String.length s) p.2)]
      else []
  | Seq r1 r2 => flat_map (ends r2) (ends r1 p)
  | Alt r1 r2 => ends r1 p ++ ends r2 p
  | Opt r1 => ends r1 p ++ [p]
  | Bol => if p.1 then [p] else []
  | Eol => if String.eqb p.2 EmptyString then [p] else []
  end.

Definition matchesAt (r : regex) (p : pos) : bool :=
  match ends r p with [] => false | _ :: _ => true end.

Fixpoint searchFrom (r : regex) (atStart : bool) (s : string) : bool :=
  matchesAt r (atStart, s) ||
  match s with
  | EmptyString => false
  | String _ t => searchFrom r false t
  end.

(** [r.test(s)] for a pattern without flags. *)
Definition test (r : regex) (s : string) : bool := searchFrom r true s.

Fixpoint alternatives (rs : list regex) : regex :=
  match rs with
  | [] => Lit EmptyString (* unused: every rule has an alternative *)
  | [r] => r
  | r :: t => Alt r (alternatives t)
  end.

(** [(?:^|-)(?:a|b|...)(?:-|$)] *)
Definition delimited (alts : list regex) : regex :=
  Seq (Alt Bol (Lit "-")) (Seq (alternatives alts) (Alt (Lit "-") Eol)).

End Regex.

(** ** src/config.ts *)

Module Config.
Import Regex.

Definition REPOS : list RepoConfig := [
  {| slug := "zk-kit/zk-kit"; repoLanguage := typescript;
     packagePath := "packages"; branch := "main" |};
  {| slug := "zk-kit/zk-kit.circom"; repoLanguage := circom;
     packagePath := "packages"; branch := "main" |};
  {| slug := "zk-kit/zk-kit.solidity"; repoLanguage := solidity;
     packagePath := "packages"; branch := "main" |};
  {| slug := "zk-kit/zk-kit.noir"; repoLanguage := noir;
     packagePath := "packages"; branch := "main" |};
  {| slug := "zk-kit/zk-kit.rust"; repoLanguage := rust;
     packagePath := "crates"; branch := "main" |}
].

(** The property names of [Object.prototype], which every object
    literal inherits. *)
Definition OBJECT_PROTOTYPE : list string := [
  "constructor"; "hasOwnProperty"; "isPrototypeOf"; "propertyIsEnumerable";
  "toLocaleString"; "toString"; "valueOf"; "__proto__";
  "__defineGetter__"; "__defineSetter__"; "__lookupGetter__"; "__lookupSetter__"
].

(** [table[key]] for an object literal with the own properties [table]:
    an own property, else an inherited member, else [undefined]. *)
Definition getProperty (table : gmap string string) (key : string) : option JsValue :=
  match table !! key with
  | Some s => Some (Str s)
  | None => if JsArray.includes OBJECT_PROTOTYPE key then Some (Inherited key) else None
  end.

(** [NAME_OVERRIDES]: only [solidity] has a table. *)
Definition NAME_OVERRIDES : gmap string (gmap string string) :=
  {[ "solidity" := {[ "excubiae" := "@zk-kit/excubiae" ]} ]}.

(** [NAME_OVERRIDES[language]?.[dirName]] *)
Definition nameOverride (dirName : string) (l : Language) : option JsValue :=
  NAME_OVERRIDES !! languageName l ≫= λ table, getProperty table dirName.

(** The [switch] of [deriveName]. *)
Definition nameTemplate (dirName : string) (l : Language) : string :=
  match l with
  | typescript => "@zk-kit/" +:+ dirName
  | circom => "@zk-kit/" +:+ dirName +:+ ".circom"
  | solidity => "@zk-kit/" +:+ dirName +:+ ".sol"
  | noir => JsString.replaceAllChar "-" "_" dirName
  | rust => "zk-kit-" +:+ dirName
  end.

(** Declared to return a string; what it returns is the override when
    the lookup finds a truthy value, whatever that value is. *)
Definition deriveName (dirName : string) (l : Language) : JsValue :=
  match nameOverride dirName l with
  | Some override =>
      if truthyValue override then override else Str (nameTemplate dirName l)
  | None => Str (nameTemplate dirName l)
  end.

Definition quote : string := String "034" EmptyString.

Definition deriveInstallCommand (name dirName : string) (l : Language) (slug : string)
  : string :=
  match l with
  | typescript | circom | solidity => "npm i " +:+ name
  | noir =>
      "Add to Nargo.toml: " +:+ name +:+ " = { git = " +:+ quote
      +:+ "https://github.com/" +:+ slug +:+ quote +:+ ", tag = "
      +:+ quote +:+ "main" +:+ quote +:+ ", directory = "
      +:+ quote +:+ "packages/" +:+ dirName +:+ quote +:+ " }"
  | rust => "cargo add " +:+ name
  end.

Definition CATEGORY_RULES : list (regex * Category) := [
  (delimited [Lit "imt"; Lit "merkle"; Lit "smt"; Lit "pmt"], merkle_trees);
  (delimited [Lit "eddsa"; Lit "ecdh"; Lit "poseidon";
              Seq (Lit "baby") (Seq (Opt (Lit "-")) (Lit "jubjub"))], cryptography);
  (delimited [Lit "excubiae"], access_control);
  (delimited [Lit "semaphore"; Lit "rln"; Lit "identity"], identity);
  (delimited [Lit "utils"; Lit "math"], math)
].

Fixpoint firstMatch (rules : list (regex * Category)) (dirName : string) : Category :=
  match rules with
  | [] => other
  | (pattern, category) :: rest =>
      if test pattern dirName then category else firstMatch rest dirName
  end.

Definition inferCategory (dirName : string) : Category :=
  firstMatch CATEGORY_RULES dirName.

Definition deriveCrossLanguageId (dirName : string) : string := dirName.

End Config.

(** ** src/registry.ts *)

Module Registry.
Import JsString.

(** The registry state is the array [this.packages]. *)

Definition exactMatch (lower : string) (p : Package) : bool :=
  String.eqb (toLowerCase (name p)) lower.

Definition strippedMatch (lower : string) (p : Package) : bool :=
  String.eqb (stripPrefix "@zk-kit/" (toLowerCase (name p))) lower.

Definition dirMatch (lower : string) (p : Package) : bool :=
  String.eqb (toLowerCase (dirName p)) lower.

Definition normalizedMatch (withoutPrefix normalized : string) (p : Package) : bool :=
  String.eqb (toLowerCase (dirName p)) withoutPrefix
  || String.eqb (toLowerCase (dirName p)) normalized.

Definition getByName (packages : list Package) (query : string) : option Package :=
  let lower := toLowerCase query in
  match find (exactMatch lower) packages with
  | Some exact => Some exact
  | None =>
  match find (strippedMatch lower) packages with
  | Some stripped => Some stripped
  | None =>
  match find (dirMatch lower) packages with
  | Some byDir => Some byDir
  | None =>
      let normalized := replaceAllChar "_" "-" lower in
      let withoutPrefix := stripPrefix "zk-kit-" normalized in
      if negb (String.eqb normalized lower) || negb (String.eqb withoutPrefix normalized)
      then find (normalizedMatch withoutPrefix normalized) packages
      else None
  end end end.

Definition suggest (packages : list Package) (query : string) (limit : nat)
  : list Package :=
  let terms := terms query in
  take limit
    (List.filter
       (λ p, let nameLower := toLowerCase (name p) in
             let dirLower := toLowerCase (dirName p) in
             forallb (λ term, includes nameLower term || includes dirLower term) terms)
       packages).

(** The points one term earns on one package. *)
Definition termScore (p : Package) (term : string) : Z :=
  (if includes (toLowerCase (name p)) term then 3 else 0)
  + (if includes (toLowerCase (dirName p)) term then 2 else 0)
  + (if includes (toLowerCase (description p)) term then 1 else 0).

(** The [for] loop of the scoring callback, with its early [return]. *)
Fixpoint scoreLoop (p : Package) (terms : list string) (score : Z) : Z :=
  match terms with
  | [] => score
  | term :: rest =>
      let ts := termScore p term in
      if ts =? 0 then 0 else scoreLoop p rest (score + ts)
  end.

Definition scored (terms : list string) (p : Package) : Package * Z :=
  (p, scoreLoop p terms 0).

Definition search (packages : list Package) (query : option string)
    (lang : option Language) (cat : option Category) : list Package :=
  let results := packages in
  let results :=
    match lang with
    | Some l => List.filter (λ p, Language_eqb (language p) l) results
    | None => results
    end in
  let results :=
    match cat with
    | Some c => List.filter (λ p, Category_eqb (category p) c) results
    | None => results
    end in
  match query with
  | Some q =>
      if truthy q then
        let terms := terms q in
        map fst
          (JsArray.sort (λ a b, b.2 - a.2)
             (List.filter (λ r, 0 <? r.2) (map (scored terms) results)))
      else results
  | None => results
  end.

(** [[...new Set(packages.filter(id).map(language))]] *)
Definition languagesOf (packages : list Package) (concept : string) : list string :=
  JsArray.setOf
    (map (λ p, languageName (language p))
       (List.filter (λ p, String.eqb (crossLanguageId p) concept) packages)).

Definition NO_PACKAGES : string := "No packages available.".

Definition nl : string := String "010" EmptyString.

(** *** getCrossLanguageCoverage *)

(** [set.add(x)] on a set kept in insertion order. *)
Definition setAdd (x : string) (set : list string) : list string :=
  if JsArray.includes set x then set else set ++ [x].

(** One iteration of the loop filling [conceptMap]. *)
Definition addConcept (conceptMap : gmap string (list string)) (pkg : Package)
  : gmap string (list string) :=
  let set := default [] (conceptMap !! crossLanguageId pkg) in
  <[crossLanguageId pkg := setAdd (languageName (language pkg)) set]> conceptMap.

Definition buildConceptMap (packages : list Package) : gmap string (list string) :=
  foldl addConcept ∅ packages.

Definition conceptsOf (conceptMap : gmap string (list string)) : list string :=
  JsArray.sortStrings (elements (dom conceptMap)).

Definition coverageLanguages (packages : list Package) : list string :=
  JsArray.sortStrings (JsArray.setOf (map (λ p, languageName (language p)) packages)).

Section Coverage.
(** [((1 - gapCount / totalSlots) * 100).toFixed(0)] as a function of
    [gapCount] and [totalSlots]. *)
Variable coveragePercent : nat → nat → string.

Definition getCrossLanguageCoverage (packages : list Package) : string :=
  let languages := coverageLanguages packages in
  let conceptMap := buildConceptMap packages in
  let concepts := conceptsOf conceptMap in
  if (length concepts =? 0)%nat then NO_PACKAGES else
  let md := "# Cross-Language Coverage Matrix" +:+ nl +:+ nl in
  let md := md +:+ "| Concept | " +:+ join " | " languages +:+ " |" +:+ nl in
  let md := md +:+ "|---------|" +:+ join "|" (map (λ _, "---") languages) +:+ "|" +:+ nl in
  let totalSlots := (length concepts * length languages)%nat in
  let '(md, gapCount) :=
    foldl
      (λ '(md, gapCount) concept,
         let langs := default [] (conceptMap !! concept) in
         let cells := map (λ l, if JsArray.includes langs l then "yes" else "-") languages in
         (md +:+ "| " +:+ concept +:+ " | " +:+ join " | " cells +:+ " |" +:+ nl,
          (gapCount + (length languages - length langs))%nat))
      (md, O) concepts in
  let md := md +:+ nl +:+ "**" +:+ ofNat (length concepts) +:+ " concepts** across **"
              +:+ ofNat (length languages) +:+ " languages** - " in
  let coverage := coveragePercent gapCount totalSlots in
  let md := md +:+ "**" +:+ coverage +:+ "% coverage** (" +:+ ofNat (totalSlots - gapCount)
              +:+ "/" +:+ ofNat totalSlots +:+ " slots filled)" +:+ nl in
  let sizeOf c := length (default [] (conceptMap !! c)) in
  let listing c := join ", " (default [] (conceptMap !! c)) in
  let multiLang := List.filter (λ c, (1 <? sizeOf c)%nat) concepts in
  let md :=
    if (0 <? length multiLang)%nat then
      foldl (λ md c, md +:+ "- **" +:+ c +:+ "**: " +:+ listing c +:+ nl)
        (md +:+ nl +:+ "## Multi-Language Concepts" +:+ nl) multiLang
    else md in
  let singleLang := List.filter (λ c, (sizeOf c =? 1)%nat) concepts in
  let md :=
    if (0 <? length singleLang)%nat then
      foldl (λ md c, md +:+ "- **" +:+ c +:+ "**: " +:+ listing c +:+ " only" +:+ nl)
        (md +:+ nl +:+ "## Single-Language Only (potential gaps)" +:+ nl) singleLang
    else md in
  md.
End Coverage.

(** *** getReverseDependencies *)

Record Dependent := { concept : string; languages : list string }.

(** [existing.languages.push(lang)] unless present, on the first entry
    for [id]; the entry is shared with the array, so the array sees it. *)
Fixpoint touchDependent (id lang : string) (dependents : list Dependent)
  : list Dependent :=
  match dependents with
  | [] => []
  | d :: rest =>
      if String.eqb (concept d) id
      then {| concept := concept d;
              languages := if JsArray.includes (languages d) lang
                           then languages d else languages d ++ [lang] |} :: rest
      else d :: touchDependent id lang rest
  end.

Definition noteDependent (dependents : list Dependent) (pkg : Package)
  : list Dependent :=
  let id := crossLanguageId pkg in
  let lang := languageName (language pkg) in
  match find (λ d, String.eqb (concept d) id) dependents with
  | Some _ => touchDependent id lang dependents
  | None => dependents ++ [{| concept := id; languages := [lang] |}]
  end.

Definition pushNew (xs : list string) (x : string) : list string :=
  if JsArray.includes xs x then xs else xs ++ [x].

(** The body of the loop over [this.packages]. *)
Definition reverseStep (id : string) (acc : list Dependent * list string)
    (pkg : Package) : list Dependent * list string :=
  let '(dependents, directDeps) := acc in
  let dependents :=
    if JsArray.includes (zkKitDependencies pkg) id
    then noteDependent dependents pkg else dependents in
  let directDeps :=
    if String.eqb (crossLanguageId pkg) id
    then foldl pushNew directDeps (zkKitDependencies pkg) else directDeps in
  (dependents, directDeps).

Section ReverseDependencies.
(** [a.localeCompare(b)] *)
Variable localeCompare : string → string → Z.

Definition getReverseDependencies (packages : list Package) (id : string) : string :=
  let '(dependents, directDeps) := foldl (reverseStep id) ([], []) packages in
  let targetLangs := languagesOf packages id in
  let md := "# Dependency Info: " +:+ id +:+ nl +:+ nl in
  let md := md +:+ "**Available in:** " +:+ join ", " targetLangs +:+ nl +:+ nl in
  let md :=
    if (0 <? length directDeps)%nat then
      foldl
        (λ md dep, md +:+ "- **" +:+ dep +:+ "** ("
                     +:+ join ", " (languagesOf packages dep) +:+ ")" +:+ nl)
        (md +:+ "## Depends On" +:+ nl +:+ nl)
        (JsArray.sortStrings directDeps)
      +:+ nl
    else md in
  if (0 <? length dependents)%nat then
    foldl
      (λ md d, md +:+ "- **" +:+ concept d +:+ "** ("
                 +:+ join ", " (languages d) +:+ ")" +:+ nl)
      (md +:+ "## Depended On By" +:+ nl +:+ nl)
      (JsArray.sort (λ a b, localeCompare (concept a) (concept b)) dependents)
    +:+ nl
    +:+ "**" +:+ ofNat (length dependents) +:+ " package(s)** depend on " +:+ id
    +:+ "." +:+ nl
  else
    md +:+ "No other ZK-Kit packages depend on " +:+ id +:+ "." +:+ nl.
End ReverseDependencies.

(** *** getDependencyGraph *)

Record Graph := {
  dependsOn : gmap string (gset string);   (* concept -> concepts it depends on *)
  dependedBy : gmap string (gset string);  (* concept -> concepts that depend on it *)
  allConcepts : gset string
}.

Definition emptyGraph : Graph :=
  {| dependsOn := ∅; dependedBy := ∅; allConcepts := ∅ |}.

(** [if (!m.has(k)) m.set(k, new Set())] *)
Definition ensure (k : string) (m : gmap string (gset string))
  : gmap string (gset string) :=
  match m !! k with
  | Some _ => m
  | None => <[k := ∅]> m
  end.

(** [m.get(k)!.add(x)]; [k] is a key of [m] wherever this is used. *)
Definition addTo (k x : string) (m : gmap string (gset string))
  : gmap string (gset string) :=
  alter (λ s, s ∪ {[x]}) k m.

(** The body of the inner loop, for one dependency of concept [id]. *)
Definition addDependency (id : string) (g : Graph) (dep : string) : Graph :=
  {| dependsOn := addTo id dep (dependsOn g);
     dependedBy := addTo dep id (ensure dep (dependedBy g));
     allConcepts := allConcepts g ∪ {[dep]} |}.

(** The body of the outer loop. *)
Definition addPackage (g : Graph) (pkg : Package) : Graph :=
  let id := crossLanguageId pkg in
  foldl (addDependency id)
    {| dependsOn := ensure id (dependsOn g);
       dependedBy := dependedBy g;
       allConcepts := allConcepts g ∪ {[id]} |}
    (zkKitDependencies pkg).

Definition buildGraph (packages : list Package) : Graph :=
  foldl addPackage emptyGraph packages.

(** [m.get(c)?.size ?? 0] *)
Definition sizeAt (m : gmap string (gset string)) (c : string) : nat :=
  match m !! c with
  | Some s => size s
  | None => O
  end.

Record Classes := {
  foundational : list string;  (* depended on by others *)
  leaf : list string;          (* depends on others but not depended on *)
  independent : list string    (* no internal deps in either direction *)
}.

Definition classifyStep (g : Graph) (cl : Classes) (c : string) : Classes :=
  let deps := sizeAt (dependsOn g) c in
  let usedBy := sizeAt (dependedBy g) c in
  if (0 <? usedBy)%nat then
    {| foundational := foundational cl ++ [c]; leaf := leaf cl;
       independent := independent cl |}
  else if (0 <? deps)%nat then
    {| foundational := foundational cl; leaf := leaf cl ++ [c];
       independent := independent cl |}
  else
    {| foundational := foundational cl; leaf := leaf cl;
       independent := independent cl ++ [c] |}.

Definition sortedConcepts (g : Graph) : list string :=
  JsArray.sortStrings (elements (allConcepts g)).

Definition classify (g : Graph) : Classes :=
  foldl (classifyStep g)
    {| foundational := []; leaf := []; independent := [] |}
    (sortedConcepts g).

(** [[...(m.get(c) ?? [])].sort()] *)
Definition sortedAt (m : gmap string (gset string)) (c : string) : list string :=
  JsArray.sortStrings (elements (default ∅ (m !! c))).

Definition totalDeps (g : Graph) : nat :=
  map_fold (λ _ s sum, (sum + size s)%nat) O (dependsOn g).

Definition getDependencyGraph (packages : list Package) : string :=
  if (length packages =? 0)%nat then NO_PACKAGES else
  let g := buildGraph packages in
  let cl := classify g in
  let md := "# ZK-Kit Internal Dependency Graph" +:+ nl +:+ nl in
  let md := md +:+ "**" +:+ ofNat (size (allConcepts g)) +:+ " concepts**, **"
              +:+ ofNat (totalDeps g) +:+ " internal dependencies**" +:+ nl +:+ nl in
  let md :=
    if (0 <? length (foundational cl))%nat then
      foldl
        (λ md c, md +:+ "- **" +:+ c +:+ "** (" +:+ join ", " (languagesOf packages c)
                   +:+ "): used by " +:+ join ", " (sortedAt (dependedBy g) c) +:+ nl)
        (md +:+ "## Foundational Packages" +:+ nl +:+ nl
            +:+ "Depended on by other ZK-Kit packages:" +:+ nl +:+ nl)
        (foundational cl)
      +:+ nl
    else md in
  let md :=
    if (0 <? length (leaf cl))%nat then
      foldl
        (λ md c, md +:+ "- **" +:+ c +:+ "** (" +:+ join ", " (languagesOf packages c)
                   +:+ "): depends on " +:+ join ", " (sortedAt (dependsOn g) c) +:+ nl)
        (md +:+ "## Leaf Packages" +:+ nl +:+ nl
            +:+ "Depend on other ZK-Kit packages but are not depended on:" +:+ nl +:+ nl)
        (leaf cl)
      +:+ nl
    else md in
  if (0 <? length (independent cl))%nat then
    foldl
      (λ md c, md +:+ "- **" +:+ c +:+ "** (" +:+ join ", " (languagesOf packages c)
                 +:+ ")" +:+ nl)
      (md +:+ "## Independent Packages" +:+ nl +:+ nl
          +:+ "No internal ZK-Kit dependencies:" +:+ nl +:+ nl)
      (independent cl)
  else md.

(** *** count, compare, getEcosystemOverview, getRepoForLanguage *)

Definition count (packages : list Package) : nat := length packages.

(** The loop of [compare] sorting [names] into [found] and [notFound]. *)
Definition lookupStep (packages : list Package) (acc : list Package * list string)
    (name : string) : list Package * list string :=
  let '(found, notFound) := acc in
  match getByName packages name with
  | Some pkg => (found ++ [pkg], notFound)
  | None => (found, notFound ++ [name])
  end.

Definition lookupAll (packages : list Package) (names : list string)
  : list Package * list string :=
  foldl (lookupStep packages) ([], []) names.

(** [s || fallback] *)
Definition orElse (s : option string) (fallback : string) : string :=
  match s with
  | Some v => if truthy v then v else fallback
  | None => fallback
  end.

(** The packages listed under "Other language variants". *)
Definition variantsOf (packages found : list Package) : list Package :=
  let crossIds := JsArray.setOf (map crossLanguageId found) in
  List.filter
    (λ p, JsArray.includes crossIds (crossLanguageId p)
          && negb (existsb (λ f, String.eqb (name f) (name p)) found))
    packages.

Definition compare (packages : list Package) (names : list string) : string :=
  let '(found, notFound) := lookupAll packages names in
  if (length found =? 0)%nat then "No packages found for: " +:+ join ", " names else
  let row (label : string) (cell : Package → string) : string :=
    "| " +:+ label +:+ " | " +:+ join " | " (map cell found) +:+ " |" +:+ nl in
  let md := row "Property" name in
  let md := md +:+ "|----------|" +:+ join "|" (map (λ _, "---") found) +:+ "|" +:+ nl in
  let md := md +:+ row "Language" (λ p, languageName (language p)) in
  let md := md +:+ row "Category" (λ p, categoryName (category p)) in
  let md := md +:+ row "Version" (λ p, orElse (version p) "-") in
  let md := md +:+ row "Description" (λ p, orElse (Some (description p)) "-") in
  let md := md +:+ row "Install" (λ p, "`" +:+ installCommand p +:+ "`") in
  let md := md +:+ row "Cross-lang ID" crossLanguageId in
  let md := md +:+ row "Repo" repo in
  let md :=
    if (0 <? length notFound)%nat
    then md +:+ nl +:+ "**Not found:** " +:+ join ", " notFound
    else md in
  let variants := variantsOf packages found in
  if (0 <? length variants)%nat then
    foldl
      (λ md v, md +:+ "- " +:+ name v +:+ " (" +:+ languageName (language v) +:+ ")" +:+ nl)
      (md +:+ nl +:+ nl +:+ "**Other language variants:**" +:+ nl)
      variants
  else md.

(** [const list = m.get(k) || []; list.push(pkg); m.set(k, list)] on a
    [Map] whose entries are read back in insertion order. *)
Fixpoint pushTo (k : string) (pkg : Package) (m : list (string * list Package))
  : list (string * list Package) :=
  match m with
  | [] => [(k, [pkg])]
  | (k', list) :: rest =>
      if String.eqb k' k then (k', list ++ [pkg]) :: rest
      else (k', list) :: pushTo k pkg rest
  end.

(** The three grouping loops of [getEcosystemOverview]. *)
Definition groupBy (key : Package → string) (packages : list Package)
  : list (string * list Package) :=
  foldl (λ m pkg, pushTo (key pkg) pkg m) [] packages.

Definition getEcosystemOverview (packages : list Package) : string :=
  let byLanguage := groupBy (λ p, languageName (language p)) packages in
  let md := "# ZK-Kit Ecosystem" +:+ nl +:+ nl in
  let md := md +:+ "**" +:+ ofNat (count packages) +:+ " packages** across "
              +:+ ofNat (length byLanguage) +:+ " languages" +:+ nl +:+ nl in
  let md :=
    foldl
      (λ md '(lang, pkgs),
         let md := md +:+ "## " +:+ lang +:+ " (" +:+ ofNat (length pkgs)
                     +:+ " packages)" +:+ nl +:+ nl in
         let byCategory := groupBy (λ p, categoryName (category p)) pkgs in
         foldl
           (λ md '(cat, catPkgs),
              let md := md +:+ "### " +:+ cat +:+ nl in
              let md :=
                foldl
                  (λ md p,
                     let ver :=
                       match version p with
                       | Some v => if truthy v then " (v" +:+ v +:+ ")" else EmptyString
                       | None => EmptyString
                       end in
                     md +:+ "- **" +:+ name p +:+ "**" +:+ ver +:+ ": "
                        +:+ orElse (Some (description p)) "(no description)" +:+ nl)
                  md catPkgs in
              md +:+ nl)
           md byCategory)
      md byLanguage in
  let crossLangGroups := groupBy crossLanguageId packages in
  let multiLang := List.filter (λ '(_, pkgs), (1 <? length pkgs)%nat) crossLangGroups in
  if (0 <? length multiLang)%nat then
    foldl
      (λ md '(id, pkgs),
         md +:+ "- **" +:+ id +:+ "**: "
            +:+ join ", " (map (λ p, languageName (language p)) pkgs) +:+ nl)
      (md +:+ "## Cross-Language Packages" +:+ nl +:+ nl)
      multiLang
  else md.

(** [REPOS.find((r) => r.language === language)] *)
Definition getRepoForLanguage (l : Language) : option RepoConfig :=
  find (λ r, Language_eqb (repoLanguage r) l) Config.REPOS.

End Registry.

(** ** src/cache.ts *)

Module Cache.

Section TTLCache.
Context {K : Type} `{Countable K} {V : Type}.

Record CacheEntry := { value : V; expiresAt : Z }.

(** The two private fields.  Every method reads the clock once; the
    reading is the argument [now].  A stored value is never
    [undefined], so [None] stands for the [undefined] of a miss. *)
Record TTLCache := { store : gmap K CacheEntry; ttlMs : Z }.

Definition new (ttlMs : Z) : TTLCache := {| store := ∅; ttlMs := ttlMs |}.

(** [now > entry.expiresAt] *)
Definition expired (now : Z) (entry : CacheEntry) : bool := expiresAt entry <? now.

Definition get (now : Z) (key : K) (c : TTLCache) : option V * TTLCache :=
  match store c !! key with
  | None => (None, c)
  | Some entry =>
      if expired now entry
      then (None, {| store := delete key (store c); ttlMs := ttlMs c |})
      else (Some (value entry), c)
  end.

(** The loop deleting every entry with [now > entry.expiresAt]. *)
Definition sweep (now : Z) (m : gmap K CacheEntry) : gmap K CacheEntry :=
  filter (λ kv, expired now kv.2 = false) m.

Definition set (now : Z) (key : K) (v : V) (c : TTLCache) : TTLCache :=
  {| store := <[key := {| value := v; expiresAt := now + ttlMs c |}]> (sweep now (store c));
     ttlMs := ttlMs c |}.

Definition size (now : Z) (c : TTLCache) : nat * TTLCache :=
  let swept := sweep now (store c) in
  (base.size swept, {| store := swept; ttlMs := ttlMs c |}).

(** [this.get(key) !== undefined] *)
Definition has (now : Z) (key : K) (c : TTLCache) : bool * TTLCache :=
  let '(found, c) := get now key c in
  (match found with Some _ => true | None => false end, c).

Definition clear (c : TTLCache) : TTLCache := {| store := ∅; ttlMs := ttlMs c |}.

End TTLCache.

Arguments CacheEntry : clear implicits.
Arguments TTLCache K {_ _} V.

End Cache.

(** ** src/index.ts: the [get_dependency_graph] tool *)

Module Server.
Import JsString Registry.

Definition EMPTY_REGISTRY_HINT : string :=
  " The package registry is empty, this usually means GitHub API requests failed at startup. Check server logs and ensure GITHUB_TOKEN is set for higher rate limits.".

(** [{ content: [{ type: "text", text }] }] *)
Record ToolResult := { content : list string }.

Definition textResult (text : string) : ToolResult := {| content := [text] |}.

Definition resolvePackage (packages : list Package) (query : string)
  : Package + ToolResult :=
  match getByName packages query with
  | Some pkg => inl pkg
  | None =>
      if (length packages =? 0)%nat then
        inr (textResult ("Package " +:+ Config.quote +:+ query +:+ Config.quote
                           +:+ " not found." +:+ EMPTY_REGISTRY_HINT))
      else
        let suggestions := suggest packages query 5 in
        inr (textResult
               (if (0 <? length suggestions)%nat then
                  "Package " +:+ Config.quote +:+ query +:+ Config.quote
                  +:+ " not found. Did you mean:" +:+ nl
                  +:+ join nl (map (λ s, "- " +:+ name s) suggestions)
                else
                  "Package " +:+ Config.quote +:+ query +:+ Config.quote
                  +:+ " not found. Use list_packages to see available packages."))
  end.

Section Tools.
Variable localeCompare : string → string → Z.

(** The handler registered for [get_dependency_graph]; nothing in its
    [try] block throws, so the [catch] branch is left out. *)
Definition getDependencyGraphTool (packages : list Package) (query : option string)
  : ToolResult :=
  if (length packages =? 0)%nat then
    textResult (NO_PACKAGES +:+ EMPTY_REGISTRY_HINT)
  else
    match query with
    | Some q =>
        if truthy q then
          match resolvePackage packages q with
          | inr result => result
          | inl pkg =>
              textResult (getReverseDependencies localeCompare packages
                            (crossLanguageId pkg))
          end
        else textResult (getDependencyGraph packages)
    | None => textResult (getDependencyGraph packages)
    end.
End Tools.

End Server.

(** ** src/discovery.ts *)

Module Discovery.
Import Config.

(** How a promise settles. *)
Inductive Settled (A : Type) :=
| Fulfilled (value : A)
| Rejected (reason : string).
Arguments Fulfilled {A} value.
Arguments Rejected {A} reason.

(** [const x = await p; ...] inside an [async] function: a rejection of
    [p] rejects the function's own promise. *)
#[export] Instance Settled_bind : MBind Settled := λ A B k p,
  match p with
  | Fulfilled value => k value
  | Rejected reason => Rejected reason
  end.

(** [Promise.allSettled(ps)] never rejects; its value has one entry per
    input promise, at that promise's index. *)
Definition allSettled {A : Type} (ps : list (Settled A)) : Settled (list (Settled A)) :=
  Fulfilled ps.

(** The same under an explicit completion order: slot [i] is written
    when promise [i] settles, and the result is available once every
    slot has been written ([None]: it never is). *)
Definition settleSlot {A : Type} (ps : list (Settled A))
    (slots : list (option (Settled A))) (i : nat) : list (option (Settled A)) :=
  match ps !! i with
  | Some outcome => <[i := Some outcome]> slots
  | None => slots
  end.

Definition allSettledIn {A : Type} (order : list nat) (ps : list (Settled A))
  : option (list (Settled A)) :=
  mapM id (foldl (settleSlot ps) (replicate (length ps) None) order).

(** The loops that keep the fulfilled entries (the rejected ones are
    only logged). *)
Fixpoint fulfilledValues {A : Type} (settled : list (Settled A)) : list A :=
  match settled with
  | [] => []
  | Fulfilled value :: rest => value :: fulfilledValues rest
  | Rejected _ :: rest => fulfilledValues rest
  end.

Record ManifestInfo := {
  manifestDescription : string;
  manifestVersion : option string;
  manifestDependencies : option (list string)
}.

(** The two functions imported from src/github.ts, by their outcome. *)
Record Github := {
  fetchDirectoryListing : string → string → Settled (list string);
  fetchManifestInfo : string → string → string → string → Language → Settled ManifestInfo
}.

Definition LANGUAGE_ORDER : gmap string Z :=
  list_to_map [("typescript", 0); ("circom", 1); ("solidity", 2); ("noir", 3); ("rust", 4)].

(** The objects the pipeline builds are typed [Package]; their [name]
    is what [deriveName] returned. *)
Abbreviation Discovered := (PackageOf JsValue).

(** [LANGUAGE_ORDER[p.language] ?? 99] *)
Definition languageRank {Name : Type} (p : PackageOf Name) : Z :=
  default 99 (LANGUAGE_ORDER !! languageName (language p)).

(** An exception thrown in an [async] function rejects its promise. *)
Definition settle {A : Type} (c : Completion A) : Settled A :=
  match c with
  | Normal value => Fulfilled value
  | Throw error => Rejected error
  end.

(** The error of calling a method that a value does not have, as
    [String(reason)] renders it. *)
Definition NOT_A_FUNCTION : string := "TypeError: a.name.localeCompare is not a function".

Section Pipeline.
Variable github : Github.
Variable localeCompare : string → string → Z.

(** The callback mapped over [dirs]. *)
Definition discoverPackage (repo : RepoConfig) (dir : string) : Settled Discovered :=
  let name := deriveName dir (repoLanguage repo) in
  manifest ← fetchManifestInfo github (slug repo) (branch repo) (packagePath repo) dir
               (repoLanguage repo);
  Fulfilled
    {| name := name;
       dirName := dir;
       language := repoLanguage repo;
       category := inferCategory dir;
       repo := "https://github.com/" +:+ slug repo +:+ "/tree/" +:+ branch repo
               +:+ "/" +:+ packagePath repo +:+ "/" +:+ dir;
       description := manifestDescription manifest;
       installCommand := deriveInstallCommand (toStringValue name) dir (repoLanguage repo)
                           (slug repo);
       crossLanguageId := deriveCrossLanguageId dir;
       version := manifestVersion manifest;
       zkKitDependencies := default [] (manifestDependencies manifest) |}.

(** The callback mapped over [REPOS]. *)
Definition discoverRepo (repo : RepoConfig) : Settled (list Discovered) :=
  dirs ← fetchDirectoryListing github (slug repo) (packagePath repo);
  settled ← allSettled (map (discoverPackage repo) dirs);
  Fulfilled (fulfilledValues settled).

(** The comparator.  [a.name.localeCompare] is a method of strings
    only; its argument is converted to a string. *)
Definition comparePackages (a b : Discovered) : Completion Z :=
  let langDiff := languageRank a - languageRank b in
  if negb (langDiff =? 0) then Normal langDiff else
  match name a with
  | Str s => Normal (localeCompare s (toStringValue (name b)))
  | Inherited _ => Throw NOT_A_FUNCTION
  end.

Definition discoverAllPackages : Settled (list Discovered) :=
  results ← allSettled (map discoverRepo REPOS);
  let allPackages := concat (fulfilledValues results) in
  settle (JsArray.sortWith comparePackages allPackages).

(** The pipeline under explicit completion orders: [repoOrder] for the
    five repository tasks, [dirOrder slug] for the manifest requests
    of one repository. *)
Definition discoverRepoIn (dirOrder : string → list nat) (repo : RepoConfig)
  : option (Settled (list Discovered)) :=
  match fetchDirectoryListing github (slug repo) (packagePath repo) with
  | Rejected reason => Some (Rejected reason)
  | Fulfilled dirs =>
      settled ← allSettledIn (dirOrder (slug repo)) (map (discoverPackage repo) dirs);
      Some (Fulfilled (fulfilledValues settled))
  end.

Definition discoverAllPackagesIn (repoOrder : list nat) (dirOrder : string → list nat)
  : option (Settled (list Discovered)) :=
  tasks ← mapM (discoverRepoIn dirOrder) REPOS;
  results ← allSettledIn repoOrder tasks;
  Some (settle (JsArray.sortWith comparePackages (concat (fulfilledValues results)))).
End Pipeline.

End Discovery.

(** ** src/github.ts: the parts that read no network *)

Module GithubHelpers.
Import JsString.

(** [max] is a length, a non-negative integer (200 at both call
    sites); [lastSpace > max * 0.5] is compared without rounding. *)
Definition truncate (s : string) (max : nat) : string :=
  if (String.length s <=? max)%nat then s else
  let truncated := sliceTo max s in
  let lastSpace := lastIndexOf truncated " " in
  (if Z.of_nat max <? 2 * lastSpace
   then sliceTo (Z.to_nat lastSpace) truncated
   else truncated) +:+ "...".

(** [k.replace(/\.(sol|circom)$/, empty)]: the pattern is anchored at
    the end, so it matches one of the two suffixes or nothing. *)
Definition stripExtension (k : string) : string :=
  match stripSuffix ".sol" k with
  | Some stem => stem
  | None => default k (stripSuffix ".circom" k)
  end.

(** The internal dependencies [fetchManifestInfo] reads off the keys
    of [[dependencies]] in Cargo.toml ... *)
Definition cargoDependencies (keys : list string) : list string :=
  map (removeFirst "zk-kit-") (List.filter (λ k, startsWith k "zk-kit-") keys).

(** ... and off the keys of [dependencies] in package.json. *)
Definition npmDependencies (keys : list string) : list string :=
  map (λ k, stripExtension (removeFirst "@zk-kit/" k))
    (List.filter (λ k, startsWith k "@zk-kit/") keys).

End GithubHelpers.

(** ** src/index.ts: shared helpers, the registry tools and the prompt *)

Module Handlers.
Import JsString Config Registry Server Cache.

(** An optional string argument that passes [if (x)]. *)
Definition truthyArg (x : option string) : option string :=
  x ≫= λ s, if truthy s then Some s else None.

Definition resolveRepoSlugs (language repo : option string)
  : list string + ToolResult :=
  match truthyArg repo with
  | Some repo =>
      let validSlugs := map slug REPOS in
      if negb (JsArray.includes validSlugs repo) then
        inr (textResult ("Unknown repo: " +:+ quote +:+ repo +:+ quote
                           +:+ ". Valid repos: " +:+ join ", " validSlugs))
      else inl [repo]
  | None =>
      match truthyArg language with
      | Some language =>
          match find (λ r, String.eqb (languageName (repoLanguage r)) language) REPOS with
          | None =>
              inr (textResult
                     ("Unknown language: " +:+ language +:+ ". Available: "
                        +:+ join ", " (map (λ r, languageName (repoLanguage r)) REPOS)))
          | Some found => inl [slug found]
          end
      | None => inl (map slug REPOS)
      end
  end.

Definition completePackageName (packages : list Package) (value : option string)
  : list string :=
  take 20
    (map name
       (List.filter
          (λ p, match truthyArg value with
                | None => true
                | Some value => includes (toLowerCase (name p)) (toLowerCase value)
                end)
          packages)).

(** [getOrFetchReadme] on the state of [readmeCache].  [fetchReadme]
    gives the value its promise is fulfilled with ([None] for [null]);
    [now] is the clock when the cache is read and [later] when the
    fetched text is stored. *)
Definition cacheKey (pkg : Package) : string :=
  languageName (language pkg) +:+ "/" +:+ dirName pkg.

Definition getOrFetchReadme
    (fetchReadme : string → string → string → string → option string)
    (now later : Z) (pkg : Package) (readmeCache : TTLCache string string)
  : option string * TTLCache string string :=
  let cacheKey := cacheKey pkg in
  let '(readme, readmeCache) := get now cacheKey readmeCache in
  match truthyArg readme with
  | Some _ => (readme, readmeCache)
  | None =>
      match getRepoForLanguage (language pkg) with
      | Some repo =>
          let readme :=
            fetchReadme (slug repo) (branch repo) (packagePath repo) (dirName pkg) in
          match truthyArg readme with
          | Some text => (readme, set later cacheKey text readmeCache)
          | None => (readme, readmeCache)
          end
      | None => (readme, readmeCache)
      end
  end.

(** The handlers below run nothing that throws, so their [catch]
    branches are left out. *)

Definition listPackagesTool (packages : list Package) (query : option string)
    (lang : option Language) (cat : option Category) : ToolResult :=
  let results := search packages query lang cat in
  if (length results =? 0)%nat then
    let hint := if (count packages =? 0)%nat then EMPTY_REGISTRY_HINT else EmptyString in
    textResult ("No packages found matching the given criteria." +:+ hint)
  else
    textResult
      (join (nl +:+ nl)
         (map
            (λ p,
               let ver :=
                 match version p with
                 | Some v => if truthy v then " v" +:+ v else EmptyString
                 | None => EmptyString
                 end in
               "**" +:+ name p +:+ "**" +:+ ver +:+ " (" +:+ languageName (language p)
               +:+ ", " +:+ categoryName (category p) +:+ ")" +:+ nl
               +:+ orElse (Some (description p)) "(no description)" +:+ nl
               +:+ "Install: `" +:+ installCommand p +:+ "`")
            results)).

Definition ecosystemOverviewTool (packages : list Package) : ToolResult :=
  if (count packages =? 0)%nat
  then textResult ("No packages available." +:+ EMPTY_REGISTRY_HINT)
  else textResult (getEcosystemOverview packages).

Definition comparePackagesTool (packages : list Package) (names : list string)
  : ToolResult :=
  if (count packages =? 0)%nat
  then textResult ("Cannot compare packages." +:+ EMPTY_REGISTRY_HINT)
  else textResult (compare packages names).

Section Coverage.
Variable coveragePercent : nat → nat → string.

Definition crossLanguageCoverageTool (packages : list Package) : ToolResult :=
  if (count packages =? 0)%nat
  then textResult ("No packages available." +:+ EMPTY_REGISTRY_HINT)
  else textResult (getCrossLanguageCoverage coveragePercent packages).
End Coverage.

(** The value of [pkg] the [zk-integration-guide] and the
    [troubleshoot-package] prompts settle on: the package the name
    resolves to, replaced by the first package of the requested
    language with the same cross-language id when there is one. *)
Definition integrationPackage (packages : list Package) (packageName : string)
    (lang : option Language) : option Package :=
  match getByName packages packageName, lang with
  | Some pkg, Some l =>
      if negb (Language_eqb (language pkg) l) then
        match find (λ p, String.eqb (crossLanguageId p) (crossLanguageId pkg))
                (search packages None (Some l) None) with
        | Some variant => Some variant
        | None => Some pkg
        end
      else Some pkg
  | pkg, _ => pkg
  end.

End Handlers.

(** ** The registries of the tests *)

Module Fixture.

Definition makePackage (name dirName : string) (language : Language)
    (category : Category) (description : string) (deps : list string) : Package :=
  {| name := name; dirName := dirName; language := language; category := category;
     repo := "https://github.com/zk-kit/zk-kit/tree/main/packages/" +:+ dirName;
     description := description; installCommand := "npm i " +:+ name;
     crossLanguageId := dirName; version := None; zkKitDependencies := deps |}.

Definition leanImtTs : Package :=
  makePackage "@zk-kit/lean-imt" "lean-imt" typescript merkle_trees
    "Lean Incremental Merkle Tree implementation" [].

Definition poseidonLite : Package :=
  makePackage "@zk-kit/poseidon-lite" "poseidon-lite" typescript cryptography
    "Lightweight Poseidon hash" [].

Definition ecdh : Package :=
  makePackage "@zk-kit/ecdh" "ecdh" typescript cryptography
    "ECDH shared secret derivation" [].

Definition leanImtSol : Package :=
  makePackage "@zk-kit/lean-imt.sol" "lean-imt" solidity merkle_trees
    "Lean IMT in Solidity" [].

Definition leanImtRust : Package :=
  makePackage "zk-kit-lean-imt" "lean-imt" rust merkle_trees "Lean IMT in Rust" [].

Definition excubiae : Package :=
  makePackage "@zk-kit/excubiae" "excubiae" solidity access_control
    "Access control for ZK verification" [].

(** [SYNTHETIC_PACKAGES] of the registry tests. *)
Definition SYNTHETIC_PACKAGES : list Package :=
  [leanImtTs; poseidonLite; ecdh; leanImtSol; leanImtRust; excubiae].

(** A three-concept chain A -> B -> C. *)
Definition chain : list Package := [
  makePackage "@zk-kit/a" "a" typescript other "A" ["b"];
  makePackage "@zk-kit/b" "b" typescript other "B" ["c"];
  makePackage "@zk-kit/c" "c" typescript other "C" []
].

End Fixture.

(** * Notions the specification uses *)

(** ** Patterns *)

Module PatternSpec.
Import JsString Regex Config.

(** The finite set of strings an anchor-free pattern can consume. *)
Fixpoint words (r : regex) : list string :=
  match r with
  | Lit s => [s]
  | Seq r1 r2 => flat_map (λ x, map (λ y, x +:+ y) (words r2)) (words r1)
  | Alt r1 r2 => words r1 ++ words r2
  | Opt r1 => words r1 ++ [EmptyString]
  | Bol | Eol => []
  end.




End PatternSpec.

(** ** Search *)

Module SearchSpec.
Import JsString.

(** The packages left by the optional [language] and [category] filters. *)
Definition survivors (packages : list Package) (lang : option Language)
    (cat : option Category) : list Package :=
  List.filter
    (λ p, match lang with Some l => Language_eqb (language p) l | None => true end
          && match cat with Some c => Category_eqb (category p) c | None => true end)
    packages.

(** [t] is a substring of [s]. *)
Definition substring (t s : string) : Prop := ∃ a b, s = a +:+ t +:+ b.

(** A term matches a package when it is a substring of one of the three
    lower-cased fields. *)
Definition termMatches (p : Package) (term : string) : bool :=
  includes (toLowerCase (name p)) term
  || includes (toLowerCase (dirName p)) term
  || includes (toLowerCase (description p)) term.

Definition matchesAll (terms : list string) (p : Package) : bool :=
  forallb (termMatches p) terms.

(** 3 points for the name, plus 2 for the directory name, plus 1 for the
    description. *)
Definition termPoints (p : Package) (term : string) : Z :=
  (if includes (toLowerCase (name p)) term then 3 else 0)
  + (if includes (toLowerCase (dirName p)) term then 2 else 0)
  + (if includes (toLowerCase (description p)) term then 1 else 0).

Definition totalScore (terms : list string) (p : Package) : Z :=
  foldr (λ term sum, termPoints p term + sum) 0 terms.

Definition whitespaceOnly (s : string) : bool :=
  forallb isSpace (list_ascii_of_string s).

(** A word: one character at least, none of them white space. *)
Definition isWord (t : string) : Prop :=
  t ≠ EmptyString ∧ forallb (λ c, negb (isSpace c)) (list_ascii_of_string t) = true.

(** Nothing, or something that begins with white space. *)
Definition afterWord (rest : string) : Prop :=
  match rest with
  | EmptyString => True
  | String c _ => isSpace c = true
  end.

(** [wordsOf s ts]: [ts] are the white-space-separated words of [s],
    in order.  A string of white space has none; otherwise [s] is some
    white space, the first word, and a rest that is empty or begins with
    white space and holds the other words. *)
Inductive wordsOf : string → list string → Prop :=
| wordsOf_blank (gap : string) :
    whitespaceOnly gap = true → wordsOf gap []
| wordsOf_word (gap t rest : string) (ts : list string) :
    whitespaceOnly gap = true → isWord t → afterWord rest → wordsOf rest ts →
    wordsOf (gap +:+ t +:+ rest) (t :: ts).

End SearchSpec.

(** ** Name lookup *)

Module LookupSpec.
Import JsString Registry.

(** The guard of the fourth rule: normalization changed the query. *)
Definition normalizes (lower : string) : bool :=
  let normalized := replaceAllChar "_" "-" lower in
  let withoutPrefix := stripPrefix "zk-kit-" normalized in
  negb (String.eqb normalized lower) || negb (String.eqb withoutPrefix normalized).

Definition fourthRule (lower : string) (p : Package) : bool :=
  let normalized := replaceAllChar "_" "-" lower in
  normalizes lower && normalizedMatch (stripPrefix "zk-kit-" normalized) normalized p.

(** [p] answers the query under one of the four rules. *)
Definition matchesQuery (query : string) (p : Package) : bool :=
  let lower := toLowerCase query in
  exactMatch lower p || strippedMatch lower p || dirMatch lower p || fourthRule lower p.

End LookupSpec.

(** ** Dependency graph *)

Module GraphSpec.
Import Registry.

(** [a -> b]: some package of concept [a] lists [b] among its
    dependencies. *)
Definition edge (packages : list Package) (a b : string) : Prop :=
  ∃ p, In p packages ∧ crossLanguageId p = a ∧ In b (zkKitDependencies p).

(** The nodes are the concepts of the packages and of their
    dependencies. *)
Definition node (packages : list Package) (c : string) : Prop :=
  (∃ p, In p packages ∧ crossLanguageId p = c) ∨ ∃ a, edge packages a c.

(** The distinct concepts with an edge into [c]. *)
Definition predecessors (packages : list Package) (c : string) : list string :=
  JsArray.setOf
    (map crossLanguageId
       (List.filter (λ p, JsArray.includes (zkKitDependencies p) c) packages)).

(** The distinct concepts [c] has an edge to. *)
Definition successors (packages : list Package) (c : string) : list string :=
  JsArray.setOf
    (concat (map zkKitDependencies
               (List.filter (λ p, String.eqb (crossLanguageId p) c) packages))).

Definition inDegree (packages : list Package) (c : string) : nat :=
  length (predecessors packages c).

Definition outDegree (packages : list Package) (c : string) : nat :=
  length (successors packages c).

(** The concepts a list of packages mentions. *)
Definition mentions (l : list Package) (c : string) : Prop :=
  ∃ p, In p l ∧ (c = crossLanguageId p ∨ In c (zkKitDependencies p)).

(** The maps of [g] hold exactly the nodes [N] and the edges [E]. *)
Definition represents (N : string → Prop) (E : string → string → Prop) (g : Graph) : Prop :=
  (∀ c, c ∈ allConcepts g ↔ N c)
  ∧ (∀ a b, b ∈ default ∅ (dependsOn g !! a) ↔ E a b)
  ∧ (∀ a b, a ∈ default ∅ (dependedBy g !! b) ↔ E a b).

(** How the report shows one class: nothing when the class is empty,
    else a heading, one line for each concept of the class, in order,
    and a closing. *)
Definition listed (heading : string) (line : string → string) (closing : string)
    (concepts : list string) : string :=
  match concepts with
  | [] => EmptyString
  | _ :: _ => heading +:+ foldr (λ c rest, line c +:+ rest) closing concepts
  end.

(** The report for a graph and its classes: the title, the counts, and
    the three classes under their headings. *)
Definition report (packages : list Package) (g : Graph) (cl : Classes) : string :=
  let languages c := JsString.join ", " (languagesOf packages c) in
  "# ZK-Kit Internal Dependency Graph" +:+ nl +:+ nl
  +:+ "**" +:+ JsString.ofNat (size (allConcepts g)) +:+ " concepts**, **"
  +:+ JsString.ofNat (totalDeps g) +:+ " internal dependencies**" +:+ nl +:+ nl
  +:+ listed
        ("## Foundational Packages" +:+ nl +:+ nl
         +:+ "Depended on by other ZK-Kit packages:" +:+ nl +:+ nl)
        (λ c, "- **" +:+ c +:+ "** (" +:+ languages c +:+ "): used by "
              +:+ JsString.join ", " (sortedAt (dependedBy g) c) +:+ nl)
        nl (foundational cl)
  +:+ listed
        ("## Leaf Packages" +:+ nl +:+ nl
         +:+ "Depend on other ZK-Kit packages but are not depended on:" +:+ nl +:+ nl)
        (λ c, "- **" +:+ c +:+ "** (" +:+ languages c +:+ "): depends on "
              +:+ JsString.join ", " (sortedAt (dependsOn g) c) +:+ nl)
        nl (leaf cl)
  +:+ listed
        ("## Independent Packages" +:+ nl +:+ nl
         +:+ "No internal ZK-Kit dependencies:" +:+ nl +:+ nl)
        (λ c, "- **" +:+ c +:+ "** (" +:+ languages c +:+ ")" +:+ nl)
        EmptyString (independent cl).

End GraphSpec.

(** ** Coverage matrix *)

Module CoverageSpec.
Import Registry.

(** The divisor of the coverage percentage. *)
Definition totalSlots (packages : list Package) : nat :=
  (length (conceptsOf (buildConceptMap packages)) * length (coverageLanguages packages))%nat.

End CoverageSpec.

(** ** Discovery *)

Module DiscoverySpec.
Import Config Discovery.

(** The record built for a subdirectory whose manifest was fetched. *)
Definition packageOf (repo : RepoConfig) (dir : string) (manifest : ManifestInfo)
  : Discovered :=
  let name := deriveName dir (repoLanguage repo) in
  {| name := name;
     dirName := dir;
     language := repoLanguage repo;
     category := inferCategory dir;
     repo := "https://github.com/" +:+ slug repo +:+ "/tree/" +:+ branch repo
             +:+ "/" +:+ packagePath repo +:+ "/" +:+ dir;
     description := manifestDescription manifest;
     installCommand := deriveInstallCommand (toStringValue name) dir (repoLanguage repo)
                         (slug repo);
     crossLanguageId := dir;
     version := manifestVersion manifest;
     zkKitDependencies := default [] (manifestDependencies manifest) |}.

(** What one subdirectory contributes: its package, or nothing when its
    manifest request fails. *)
Definition survivingPackage (github : Github) (repo : RepoConfig) (dir : string)
  : list Discovered :=
  match fetchManifestInfo github (slug repo) (branch repo) (packagePath repo) dir
          (repoLanguage repo) with
  | Fulfilled manifest => [packageOf repo dir manifest]
  | Rejected _ => []
  end.

(** What one repository contributes: nothing when its listing fails. *)
Definition survivingPackages (github : Github) (repo : RepoConfig) : list Discovered :=
  match fetchDirectoryListing github (slug repo) (packagePath repo) with
  | Fulfilled dirs => flat_map (survivingPackage github repo) dirs
  | Rejected _ => []
  end.

Definition allSurvivors (github : Github) : list Discovered :=
  flat_map (survivingPackages github) REPOS.

(** The name is a string, as [Package] declares. *)
Definition named (p : Discovered) : Prop := ∃ s, name p = Str s.

(** A discovered package as a [Package], when its name is a string. *)
Definition typed (p : Discovered) : option Package :=
  match name p with
  | Str s =>
      Some {| name := s; dirName := dirName p; language := language p;
              category := category p; repo := repo p; description := description p;
              installCommand := installCommand p; crossLanguageId := crossLanguageId p;
              version := version p; zkKitDependencies := zkKitDependencies p |}
  | Inherited _ => None
  end.

(** A directory of the solidity repository whose name is a member of
    [Object.prototype]. *)
Definition inheritedName (p : Discovered) : Prop :=
  language p = solidity ∧ In (dirName p) OBJECT_PROTOTYPE ∧ name p = Inherited (dirName p).

(** The precedence of the languages. *)
Definition rankOf (l : Language) : Z :=
  match l with
  | typescript => 0
  | circom => 1
  | solidity => 2
  | noir => 3
  | rust => 4
  end.

Section Order.
Variable localeCompare : string → string → Z.

(** Language first, then name. *)
Definition keyPrecedes (a b : Language * string) : Prop :=
  rankOf a.1 < rankOf b.1 ∨ (rankOf a.1 = rankOf b.1 ∧ localeCompare a.2 b.2 ≤ 0).

Definition sortKey (p : Discovered) : Language * string :=
  (language p, toStringValue (name p)).

Definition precedes (a b : Discovered) : Prop := keyPrecedes (sortKey a) (sortKey b).

(** What the comparator returns when it returns. *)
Definition order (a b : Discovered) : Z :=
  let langDiff := rankOf (language a) - rankOf (language b) in
  if negb (langDiff =? 0) then langDiff
  else localeCompare (toStringValue (name a)) (toStringValue (name b)).

(** [p] has the language of [q] and a name that compares equal to its
    name. *)
Definition tiesWith (q p : Discovered) : bool :=
  Language_eqb (language p) (language q)
  && (localeCompare (toStringValue (name p)) (toStringValue (name q)) =? 0).
End Order.

(** Every promise settles at some point of the completion order. *)
Definition complete (n : nat) (order : list nat) : Prop :=
  ∀ i, (i < n)%nat → In i order.

Definition completeOrders (github : Github) (repoOrder : list nat)
    (dirOrder : string → list nat) : Prop :=
  complete (length REPOS) repoOrder
  ∧ ∀ repo dirs, In repo REPOS →
      fetchDirectoryListing github (slug repo) (packagePath repo) = Fulfilled dirs →
      complete (length dirs) (dirOrder (slug repo)).

(** The collaborators of tests/discovery.test.ts, "handles partial repo
    failures gracefully": the circom and noir listings fail. *)
Definition partialFailures : Github := {|
  fetchDirectoryListing slug _ :=
    if String.eqb slug "zk-kit/zk-kit.circom" then Rejected "Network error"
    else if String.eqb slug "zk-kit/zk-kit.noir" then Rejected "Timeout"
    else Fulfilled ["lean-imt"];
  fetchManifestInfo _ _ _ _ _ :=
    Fulfilled {| manifestDescription := "Desc"; manifestVersion := Some "0.2.0";
                 manifestDependencies := Some [] |}
|}.


(** Nothing fails, and the noir repository lists the two directories
    [dirs], both of which [deriveName] calls [a_b]. *)
Definition noirListing (dirs : list string) : Github := {|
  fetchDirectoryListing slug _ :=
    if String.eqb slug "zk-kit/zk-kit.noir" then Fulfilled dirs else Fulfilled [];
  fetchManifestInfo _ _ _ _ _ :=
    Fulfilled {| manifestDescription := "Desc"; manifestVersion := None;
                 manifestDependencies := None |}
|}.

End DiscoverySpec.

(** * Properties *)

Import JsString.

(** ** Strings *)

Lemma append_nil (s : string) : EmptyString +:+ s = s.
Proof. reflexivity. Qed.

Lemma append_cons (c : ascii) (a b : string) : String c a +:+ b = String c (a +:+ b).
Proof. reflexivity. Qed.

Lemma append_assoc (a b c : string) : (a +:+ b) +:+ c = a +:+ (b +:+ c).
Proof. induction a as [|x a IH]; [reflexivity | by rewrite !append_cons, IH]. Qed.

Lemma append_nil_r (s : string) : s +:+ EmptyString = s.
Proof. induction s as [|c s IH]; [done|]. by rewrite append_cons, IH. Qed.

Lemma prefix_iff (p s : string) :
  String.prefix p s = true ↔ ∃ r, s = p +:+ r.
Proof.
  revert s. induction p as [|c p IH]; intros s.
  - destruct s; simpl; split; eauto.
  - destruct s as [|d s]; simpl.
    + split; [discriminate | intros [r Hr]; discriminate].
    + destruct (ascii_dec c d) as [->|Hne].
      * rewrite IH. split; intros [r Hr]; exists r; rewrite ?append_cons in *; congruence.
      * split; [discriminate | intros [r Hr]; rewrite append_cons in Hr; congruence].
Qed.

Lemma dropChars_append (p r : string) : dropChars (String.length p) (p +:+ r) = r.
Proof. induction p as [|c p IH]; [by destruct r | exact IH]. Qed.

Lemma stripPrefix_append (p r : string) : stripPrefix p (p +:+ r) = r.
Proof.
  unfold stripPrefix, startsWith.
  replace (String.prefix p (p +:+ r)) with true
    by (symmetry; apply prefix_iff; eauto).
  apply dropChars_append.
Qed.

Lemma includes_iff (hay needle : string) :
  includes hay needle = true ↔ ∃ a b, hay = a +:+ needle +:+ b.
Proof.
  induction hay as [|c hay IH]; cbn [includes].
  - rewrite orb_false_r, prefix_iff. split.
    + intros [r Hr]. exists EmptyString, r. exact Hr.
    + intros ([|x a] & b & H); [eauto | discriminate].
  - rewrite orb_true_iff, prefix_iff, IH. split.
    + intros [[r Hr] | (a & b & H)].
      * exists EmptyString, r. exact Hr.
      * exists (String c a), b. by rewrite append_cons, H.
    + intros ([|x a] & b & H).
      * left. eauto.
      * right. exists a, b. rewrite append_cons in H. congruence.
Qed.

(** On ASCII strings, where [toUpperCase] maps the letters a to z and
    nothing else, upper-casing does not show after lower-casing. *)
Lemma lowerChar_upperChar (c : ascii) :
  isAsciiChar c = true → lowerChar (upperChar c) = lowerChar c.
Proof. destruct c as [[] [] [] [] [] [] [] []]; (reflexivity || discriminate). Qed.

Lemma toLowerCase_toUpperCase (s : string) :
  isAscii s = true → toLowerCase (toUpperCase s) = toLowerCase s.
Proof.
  unfold isAscii. induction s as [|c s IH]; [reflexivity|].
  cbn [list_ascii_of_string forallb]. intros [Hc Hs]%andb_true_iff.
  unfold toLowerCase, toUpperCase in *. cbn [mapChars].
  by rewrite lowerChar_upperChar, IH.
Qed.

Lemma truthy_iff (s : string) : truthy s = true ↔ s ≠ EmptyString.
Proof.
  unfold truthy. rewrite negb_true_iff. apply String.eqb_neq.
Qed.

Lemma includes_In (xs : list string) (x : string) :
  JsArray.includes xs x = true ↔ In x xs.
Proof.
  unfold JsArray.includes. rewrite existsb_exists. split.
  - intros (y & Hy & Heq). apply String.eqb_eq in Heq. by subst.
  - intros Hin. exists x. by rewrite String.eqb_refl.
Qed.


(** ** Patterns *)

Import Regex Config PatternSpec.





(** ** config.ts: inferCategory *)






Example inferCategory_examples :
  map inferCategory
    ["lean-imt"; "smt"; "pmt"; "binary-merkle-root"; "eddsa-poseidon"; "baby-jubjub";
     "babyjubjub"; "excubiae"; "rln"; "utils"; "lazytower"; "commitment"; "limitation";
     "imts"; "shimt"; "poseidon-imt"; "utils-rln"]
  = [merkle_trees; merkle_trees; merkle_trees; merkle_trees; cryptography; cryptography;
     cryptography; access_control; identity; math; other; other; other;
     other; other; merkle_trees; identity].
Proof. vm_compute. reflexivity. Qed.

(** ** config.ts: deriveName *)

Lemma languageName_own (l : Language) : ¬ In (languageName l) OBJECT_PROTOTYPE.
Proof. destruct l; cbn; intuition discriminate. Qed.

Lemma getProperty_Some (dirName : string) (o : JsValue) :
  getProperty {[ "excubiae" := "@zk-kit/excubiae" ]} dirName = Some o ↔
  (dirName = "excubiae" ∧ o = Str "@zk-kit/excubiae")
  ∨ (In dirName OBJECT_PROTOTYPE ∧ o = Inherited dirName).
Proof.
  unfold getProperty. destruct (decide (dirName = "excubiae")) as [-> | Hne].
  - rewrite lookup_singleton_eq. split.
    + intros [= <-]. by left.
    + intros [[_ ->] | [Hin _]]; [done|]. cbn in Hin. intuition discriminate.
  - rewrite lookup_singleton_ne by done.
    destruct (JsArray.includes OBJECT_PROTOTYPE dirName) eqn:Hinc.
    + apply includes_In in Hinc. split; [intros [= <-]; by right|].
      intros [[-> _] | [_ ->]]; done.
    + split; [done|]. intros [[-> _] | [Hin _]]; [done|].
      apply includes_In in Hin. congruence.
Qed.

Lemma nameOverride_Some (dirName : string) (l : Language) (o : JsValue) :
  nameOverride dirName l = Some o ↔
  l = solidity
  ∧ ((dirName = "excubiae" ∧ o = Str "@zk-kit/excubiae")
     ∨ (In dirName OBJECT_PROTOTYPE ∧ o = Inherited dirName)).
Proof.
  unfold nameOverride, NAME_OVERRIDES. destruct l; cbn [languageName];
    try (rewrite lookup_singleton_ne by done; cbn [mbind option_bind];
         split; [discriminate | intros (? & _); discriminate]).
  rewrite lookup_singleton_eq. cbn [mbind option_bind]. rewrite getProperty_Some. tauto.
Qed.

Lemma nameOverride_truthy (dirName : string) (l : Language) (o : JsValue) :
  nameOverride dirName l = Some o → truthyValue o = true.
Proof. intros Ho. by apply nameOverride_Some in Ho as (_ & [[_ ->] | [_ ->]]). Qed.

Lemma deriveName_cases (dirName : string) (l : Language) :
  (∃ s, deriveName dirName l = Str s)
  ∨ (l = solidity ∧ In dirName OBJECT_PROTOTYPE ∧ deriveName dirName l = Inherited dirName).
Proof.
  unfold deriveName. destruct (nameOverride dirName l) as [o|] eqn:Ho; [|left; by eexists].
  rewrite (nameOverride_truthy _ _ _ Ho).
  apply nameOverride_Some in Ho as (-> & [[_ ->] | [Hin ->]]); [left; by eexists | by right].
Qed.

Lemma deriveName_own (dirName : string) (l : Language) :
  ¬ (l = solidity ∧ In dirName OBJECT_PROTOTYPE) → ∃ s, deriveName dirName l = Str s.
Proof. intros Hnot. destruct (deriveName_cases dirName l) as [H | (-> & Hin & _)]; tauto. Qed.





Example deriveName_examples :
  (deriveName "lean-imt" typescript, deriveName "poseidon-proof" circom,
   deriveName "lean-imt" solidity, deriveName "excubiae" solidity,
   deriveName "binary-merkle-root" noir, deriveName "lean-imt" rust)
  = (Str "@zk-kit/lean-imt", Str "@zk-kit/poseidon-proof.circom", Str "@zk-kit/lean-imt.sol",
     Str "@zk-kit/excubiae", Str "binary_merkle_root", Str "zk-kit-lean-imt")
  ∧ map (λ d, deriveName d solidity) ["toString"; "__proto__"; "valueOf"]
    = [Inherited "toString"; Inherited "__proto__"; Inherited "valueOf"]
  ∧ deriveName "constructor" typescript = Str "@zk-kit/constructor".
Proof. vm_compute. done. Qed.

(** ** Array.prototype.sort *)

Section SortFacts.
Context {A : Type}.
Variable cmp : A → A → Z.

Lemma insertSorted_perm (x : A) (l : list A) :
  Permutation (JsArray.insertSorted cmp x l) (x :: l).
Proof.
  induction l as [|y t IH]; cbn [JsArray.insertSorted]; [done|].
  destruct (cmp x y <=? 0); [done|].
  rewrite IH. apply perm_swap.
Qed.

Lemma sort_perm (l : list A) : Permutation (JsArray.sort cmp l) l.
Proof.
  induction l as [|x l IH]; [done|].
  unfold JsArray.sort in *. cbn [foldr]. rewrite insertSorted_perm. by constructor.
Qed.

Lemma sort_In (l : list A) (x : A) : In x (JsArray.sort cmp l) ↔ In x l.
Proof. split; apply Permutation_in; [|symmetry]; apply sort_perm. Qed.

Lemma sort_length (l : list A) : length (JsArray.sort cmp l) = length l.
Proof. apply Permutation_length, sort_perm. Qed.

(** Elements a predicate selects keep their order when no selected
    element has to move in front of another. *)
Lemma insertSorted_filter (P : A → bool) (x : A) (l : list A) :
  (∀ y, P x = true → P y = true → cmp x y ≤ 0) →
  List.filter P (JsArray.insertSorted cmp x l) = List.filter P (x :: l).
Proof.
  intros Hle. induction l as [|y t IH]; cbn [JsArray.insertSorted]; [done|].
  destruct (Z.leb_spec (cmp x y) 0) as [Hxy | Hxy]; [done|].
  cbn [List.filter] in *. rewrite IH.
  destruct (P x) eqn:Hx, (P y) eqn:Hy; try reflexivity.
  specialize (Hle y eq_refl Hy). lia.
Qed.

Lemma sort_filter (P : A → bool) (l : list A) :
  (∀ x y, P x = true → P y = true → cmp x y ≤ 0) →
  List.filter P (JsArray.sort cmp l) = List.filter P l.
Proof.
  intros Hle. induction l as [|x l IH]; [done|].
  unfold JsArray.sort in *. cbn [foldr]. rewrite insertSorted_filter by eauto.
  cbn [List.filter]. by rewrite IH.
Qed.

Hypothesis cmp_flip : ∀ a b, 0 < cmp a b → cmp b a ≤ 0.
Hypothesis cmp_trans : ∀ a b c, cmp a b ≤ 0 → cmp b c ≤ 0 → cmp a c ≤ 0.

Lemma insertSorted_sorted (x : A) (l : list A) :
  StronglySorted (λ a b, cmp a b ≤ 0) l →
  StronglySorted (λ a b, cmp a b ≤ 0) (JsArray.insertSorted cmp x l).
Proof.
  induction 1 as [|y t Ht IH Hy]; cbn [JsArray.insertSorted].
  - repeat constructor.
  - destruct (Z.leb_spec (cmp x y) 0) as [Hxy | Hxy].
    + constructor; [by constructor|]. constructor; [done|].
      eapply Forall_impl; [exact Hy|]. intros z Hz. by eapply cmp_trans.
    + constructor; [done|].
      eapply Permutation_Forall; [symmetry; apply insertSorted_perm|].
      constructor; [by apply cmp_flip | done].
Qed.

Lemma sort_sorted (l : list A) : StronglySorted (λ a b, cmp a b ≤ 0) (JsArray.sort cmp l).
Proof.
  induction l as [|x l IH]; [constructor|].
  unfold JsArray.sort in *. cbn [foldr]. by apply insertSorted_sorted.
Qed.

End SortFacts.

Lemma sort_map {A B : Type} (f : A → B) (cmpA : A → A → Z) (cmpB : B → B → Z)
    (l : list A) :
  (∀ a b, cmpB (f a) (f b) = cmpA a b) →
  JsArray.sort cmpB (map f l) = map f (JsArray.sort cmpA l).
Proof.
  intros Hcmp. induction l as [|x l IH]; [done|].
  unfold JsArray.sort in *. cbn [map foldr]. rewrite IH.
  generalize (foldr (JsArray.insertSorted cmpA) [] l). intros s.
  induction s as [|y t IHs]; cbn [map JsArray.insertSorted]; [done|].
  rewrite Hcmp. destruct (cmpA x y <=? 0); [done|]. cbn [map]. by rewrite IHs.
Qed.

Lemma sort_ext_in {A : Type} (cmp1 cmp2 : A → A → Z) (l : list A) :
  (∀ a b, In a l → In b l → cmp1 a b = cmp2 a b) →
  JsArray.sort cmp1 l = JsArray.sort cmp2 l.
Proof.
  induction l as [|x l IH]; intros Hext; [done|].
  unfold JsArray.sort in *. cbn [foldr]. rewrite IH by (intros; apply Hext; by right).
  assert (Hin : ∀ y, In y (foldr (JsArray.insertSorted cmp2) [] l) → In y l)
    by (intros y; apply (sort_In cmp2)).
  revert Hin. generalize (foldr (JsArray.insertSorted cmp2) [] l). intros s Hin.
  induction s as [|y t IHs]; cbn [JsArray.insertSorted]; [done|].
  rewrite (Hext x y) by (first [by left | right; apply Hin; by left]).
  destruct (cmp2 x y <=? 0); [done|]. rewrite IHs; [done|]. intros z Hz. apply Hin. by right.
Qed.

Lemma StronglySorted_weaken {A : Type} (R S : A → A → Prop) (l : list A) :
  (∀ a b, R a b → S a b) → StronglySorted R l → StronglySorted S l.
Proof.
  intros HRS. induction 1 as [|x t Ht IH Hx]; constructor; [done|].
  eapply Forall_impl; [exact Hx|]. intros y. apply HRS.
Qed.

(** Two sorted arrangements of the same elements coincide when the order
    is antisymmetric on them. *)
Lemma sorted_unique_on {A : Type} (R : A → A → Prop) (l1 l2 : list A) :
  (∀ a b, In a l1 → In b l1 → R a b → R b a → a = b) →
  StronglySorted R l1 → StronglySorted R l2 → Permutation l1 l2 → l1 = l2.
Proof.
  intros Hanti H1. revert l2 Hanti.
  induction H1 as [|x t1 Ht1 IH Hx]; intros l2 Hanti H2 Hperm.
  - by apply Permutation_nil in Hperm.
  - destruct H2 as [|y t2 Ht2 Hy]; [by apply Permutation_sym, Permutation_nil in Hperm|].
    assert (Hyin : In y (x :: t1)) by (eapply Permutation_in; [symmetry; exact Hperm | by left]).
    assert (x = y) as <-.
    { assert (Hxin : In x (y :: t2)) by (eapply Permutation_in; [exact Hperm | by left]).
      destruct Hxin as [-> | Hxin]; [done|]. destruct Hyin as [-> | Hyin']; [done|].
      rewrite List.Forall_forall in Hx, Hy.
      apply Hanti; [by left | by right | by apply Hx | by apply Hy]. }
    f_equal. apply IH; [|done|by apply Permutation_cons_inv in Hperm].
    intros a b Ha Hb. apply Hanti; by right.
Qed.

Lemma StronglySorted_snoc {A : Type} (R : A → A → Prop) (l : list A) (x : A) :
  StronglySorted R l → List.Forall (λ y, R y x) l → StronglySorted R (l ++ [x]).
Proof.
  induction 1 as [|y t Ht IH Hy]; intros Hall; cbn [app]; [repeat constructor|].
  apply List.Forall_cons_iff in Hall as [Hyx Hall].
  constructor; [by apply IH|]. apply List.Forall_app. split; [done | by constructor].
Qed.

Lemma StronglySorted_rev {A : Type} (R : A → A → Prop) (l : list A) :
  StronglySorted R l → StronglySorted (λ a b, R b a) (rev l).
Proof.
  induction 1 as [|x t Ht IH Hx]; cbn [rev]; [constructor|].
  apply StronglySorted_snoc; [done|]. rewrite List.Forall_forall in *.
  intros y Hy. apply Hx. by apply in_rev.
Qed.

(** *** A comparator that can throw *)

Section SortWithFacts.
Context {A : Type}.
Variable cmp : A → A → Completion Z.


Lemma place_perm (x : A) (before r : list A) :
  JsArray.place cmp x before = Normal r → Permutation r (x :: before).
Proof.
  revert r. induction before as [|y rest IH]; intros r; cbn [JsArray.place].
  - by intros [= <-].
  - destruct (cmp x y) as [order | e']; cbn [mbind Completion_bind]; [|done].
    destruct (order <? 0); [|by intros [= <-]].
    destruct (JsArray.place cmp x rest) as [r' | e']; cbn; [|done].
    intros [= <-]. rewrite (IH r' eq_refl). apply perm_swap.
Qed.

Lemma placed_throw (l : list A) (e : string) :
  foldl (λ sorted x, sorted ≫= JsArray.place cmp x) (Throw e) l = Throw e.
Proof. induction l as [|x l IH]; [done|]. cbn [foldl]. exact IH. Qed.

Lemma placed_perm (l acc r : list A) :
  foldl (λ sorted x, sorted ≫= JsArray.place cmp x) (Normal acc) l = Normal r →
  Permutation r (acc ++ l).
Proof.
  revert acc. induction l as [|x l IH]; intros acc; cbn [foldl].
  - intros [= <-]. by rewrite app_nil_r.
  - cbn [mbind Completion_bind].
    destruct (JsArray.place cmp x acc) as [acc' | e] eqn:Hacc.
    + intros Hr. rewrite (IH _ Hr), (place_perm _ _ _ Hacc).
      apply Permutation_middle.
    + by rewrite placed_throw.
Qed.


(** The result holds the elements of the array. *)
Lemma sortWith_perm (l r : list A) :
  JsArray.sortWith cmp l = Normal r → Permutation r l.
Proof.
  unfold JsArray.sortWith.
  destruct (foldl _ (Normal []) l) as [s | e] eqn:Hs; cbn; [|done].
  intros [= <-]. rewrite <- Permutation_rev. by apply placed_perm in Hs.
Qed.


(** Where the comparator returns, the sort is the stable insertion
    sort. *)
Variable order : A → A → Z.

Lemma place_insertSorted (x : A) (before : list A) :
  (∀ y, In y before → cmp x y = Normal (order x y)) →
  JsArray.place cmp x before
  = Normal (JsArray.insertSorted (λ a b, - order a b) x before).
Proof.
  induction before as [|y rest IH]; intros Hcmp; cbn [JsArray.place JsArray.insertSorted];
    [done|].
  rewrite (Hcmp y) by (by left). cbn [mbind Completion_bind].
  rewrite IH by (intros; apply Hcmp; by right).
  destruct (Z.ltb_spec (order x y) 0), (Z.leb_spec (- order x y) 0); (done || lia).
Qed.

Lemma placed_insertSorted (l acc : list A) :
  (∀ x y, In x l → In y (acc ++ l) → cmp x y = Normal (order x y)) →
  foldl (λ sorted x, sorted ≫= JsArray.place cmp x) (Normal acc) l
  = Normal (foldl (λ sorted x, JsArray.insertSorted (λ a b, - order a b) x sorted) acc l).
Proof.
  revert acc. induction l as [|x l IH]; intros acc Hcmp; cbn [foldl]; [done|].
  cbn [mbind Completion_bind]. rewrite place_insertSorted.
  - apply IH. intros a b Ha Hb. apply Hcmp; [by right|].
    apply in_app_iff in Hb as [Hb | Hb].
    + apply (Permutation_in _ (insertSorted_perm _ _ _)) in Hb.
      apply in_app_iff. destruct Hb as [<- | Hb]; [right; by left | by left].
    + apply in_app_iff. right. by right.
  - intros y Hy. apply Hcmp; [by left | apply in_app_iff; by left].
Qed.

Lemma sortWith_returns (l : list A) :
  (∀ x y, In x l → In y l → cmp x y = Normal (order x y)) →
  JsArray.sortWith cmp l
  = Normal (rev (JsArray.sort (λ a b, - order a b) (rev l))).
Proof.
  intros Hcmp. unfold JsArray.sortWith. rewrite placed_insertSorted by done.
  cbn. do 2 f_equal. unfold JsArray.sort. clear Hcmp. generalize (@nil A).
  induction l as [|x l IH]; intros acc; cbn [foldl rev]; [done|].
  by rewrite IH, foldr_app.
Qed.

Hypothesis order_sym : ∀ a b, order a b < 0 ↔ 0 < order b a.
Hypothesis order_trans : ∀ a b c, order a b ≤ 0 → order b c ≤ 0 → order a c ≤ 0.

Lemma order_ge (a b : A) : 0 ≤ order b a ↔ order a b ≤ 0.
Proof. pose proof (order_sym a b). pose proof (order_sym b a). lia. Qed.

Lemma sortWith_sorted (l r : list A) :
  (∀ x y, In x l → In y l → cmp x y = Normal (order x y)) →
  JsArray.sortWith cmp l = Normal r →
  StronglySorted (λ a b, order a b ≤ 0) r.
Proof.
  intros Hcmp. rewrite sortWith_returns by done. intros [= <-].
  eapply StronglySorted_weaken; [|apply StronglySorted_rev, sort_sorted].
  - intros a b Hba. cbn beta in Hba. apply order_ge. lia.
  - intros a b Hab. pose proof (order_sym a b). lia.
  - intros a b c Hab Hbc.
    assert (order c b ≤ 0) by (apply order_ge; lia).
    assert (order b a ≤ 0) by (apply order_ge; lia).
    assert (order c a ≤ 0) by (by eapply order_trans).
    apply order_ge in H1. lia.
Qed.

(** Elements that compare equal to one another keep their order. *)
Lemma sortWith_stable (P : A → bool) (l r : list A) :
  (∀ x y, In x l → In y l → cmp x y = Normal (order x y)) →
  (∀ x y, P x = true → P y = true → order x y = 0) →
  JsArray.sortWith cmp l = Normal r →
  List.filter P r = List.filter P l.
Proof.
  intros Hcmp Hties. rewrite sortWith_returns by done. intros [= <-].
  rewrite filter_rev, sort_filter, <- filter_rev, rev_involutive; [done|].
  intros x y Hx Hy. rewrite (Hties x y) by done. lia.
Qed.

End SortWithFacts.

(** ** registry.ts: search *)

Import Registry SearchSpec.

Lemma filter_map_comm {A B : Type} (P : B → bool) (f : A → B) (l : list A) :
  List.filter P (map f l) = map f (List.filter (λ x, P (f x)) l).
Proof.
  induction l as [|x l IH]; [done|]. cbn [map List.filter].
  destruct (P (f x)); cbn [map]; by rewrite IH.
Qed.

Lemma filter_filter_and {A : Type} (P Q : A → bool) (l : list A) :
  List.filter Q (List.filter P l) = List.filter (λ x, P x && Q x) l.
Proof.
  induction l as [|x l IH]; [done|]. cbn [List.filter].
  destruct (P x); cbn [List.filter andb]; [destruct (Q x)|]; by rewrite IH.
Qed.

Lemma filter_all {A : Type} (l : list A) : List.filter (λ _, true) l = l.
Proof. induction l as [|x l IH]; [done|]. cbn [List.filter]. by rewrite IH. Qed.

Lemma filter_none {A : Type} (l : list A) : List.filter (λ _, false) l = [].
Proof. induction l as [|x l IH]; [done|]. exact IH. Qed.

Lemma search_no_query (packages : list Package) (lang : option Language)
    (cat : option Category) :
  search packages None lang cat = survivors packages lang cat.
Proof.
  unfold search, survivors. destruct lang as [l|], cat as [c|].
  - apply filter_filter_and.
  - apply filter_ext. intros p. by rewrite andb_true_r.
  - reflexivity.
  - by rewrite filter_all.
Qed.

Lemma termScore_zero (p : Package) (t : string) :
  (termScore p t =? 0) = negb (termMatches p t).
Proof.
  unfold termScore, termMatches.
  by destruct (includes (toLowerCase (name p)) t), (includes (toLowerCase (dirName p)) t),
    (includes (toLowerCase (description p)) t).
Qed.

Lemma termPoints_positive (p : Package) (t : string) :
  termMatches p t = true → 1 ≤ termPoints p t.
Proof.
  unfold termPoints, termMatches.
  destruct (includes (toLowerCase (name p)) t), (includes (toLowerCase (dirName p)) t),
    (includes (toLowerCase (description p)) t); cbn; (discriminate || lia).
Qed.

Lemma scoreLoop_total (p : Package) (ts : list string) (score : Z) :
  scoreLoop p ts score = if matchesAll ts p then score + totalScore ts p else 0.
Proof.
  revert score. induction ts as [|t ts IH]; intros score; cbn [scoreLoop matchesAll forallb totalScore foldr].
  - f_equal. lia.
  - rewrite termScore_zero. destruct (termMatches p t); cbn [negb andb]; [|done].
    rewrite IH. fold (matchesAll ts p). destruct (matchesAll ts p); [|done].
    fold (totalScore ts p). change (termScore p t) with (termPoints p t). lia.
Qed.

Lemma totalScore_positive (p : Package) (ts : list string) :
  ts ≠ [] → matchesAll ts p = true → 0 < totalScore ts p.
Proof.
  intros Hne Hall. assert (Hge : ∀ us, matchesAll us p = true → 0 ≤ totalScore us p).
  { induction us as [|u us IH]; cbn [matchesAll forallb totalScore foldr]; [lia|].
    intros [Hu Hus]%andb_true_iff. specialize (IH Hus). apply termPoints_positive in Hu.
    unfold totalScore in IH. lia. }
  destruct ts as [|t ts]; [done|]. cbn [matchesAll forallb totalScore foldr] in *.
  apply andb_true_iff in Hall as [Ht Hts]. apply termPoints_positive in Ht.
  specialize (Hge ts Hts). unfold totalScore in Hge. lia.
Qed.

Lemma score_positive (p : Package) (ts : list string) :
  ts ≠ [] → (0 <? scoreLoop p ts 0) = matchesAll ts p.
Proof.
  intros Hne. rewrite scoreLoop_total. destruct (matchesAll ts p) eqn:Hall; [|done].
  apply Z.ltb_lt. pose proof (totalScore_positive p ts Hne Hall). lia.
Qed.

Lemma terms_nonempty_truthy (q : string) : terms q ≠ [] → truthy q = true.
Proof. destruct q; [intros H; by destruct H | done]. Qed.

(** With at least one term, [search] is the stable sort by descending
    total score of the survivors every term matches. *)
Lemma search_with_terms (packages : list Package) (q : string) (lang : option Language)
    (cat : option Category) :
  terms q ≠ [] →
  search packages (Some q) lang cat =
  JsArray.sort (λ a b, totalScore (terms q) b - totalScore (terms q) a)
    (List.filter (matchesAll (terms q)) (survivors packages lang cat)).
Proof.
  intros Hne. rewrite <- search_no_query. unfold search at 1.
  rewrite (terms_nonempty_truthy q Hne). fold (search packages None lang cat).
  set (results := search packages None lang cat). set (ts := terms q) in *.
  rewrite filter_map_comm.
  rewrite (sort_map (scored ts) (λ a b, scoreLoop b ts 0 - scoreLoop a ts 0)) by done.
  rewrite map_map. cbn [scored fst]. rewrite map_id.
  rewrite (filter_ext _ (matchesAll ts)) by (intros p; cbn [scored snd]; by apply score_positive).
  apply sort_ext_in. intros a b Ha Hb.
  apply filter_In in Ha as [_ Ha]. apply filter_In in Hb as [_ Hb].
  rewrite !scoreLoop_total, Ha, Hb. lia.
Qed.

Lemma matchesAll_iff (ts : list string) (p : Package) :
  matchesAll ts p = true ↔
  ∀ t, In t ts →
    substring t (toLowerCase (name p))
    ∨ substring t (toLowerCase (dirName p))
    ∨ substring t (toLowerCase (description p)).
Proof.
  unfold matchesAll, termMatches, substring. rewrite forallb_forall.
  split; intros H t Ht; specialize (H t Ht);
    rewrite !orb_true_iff, !includes_iff in *; tauto.
Qed.

(** *** The terms of a query *)

Lemma whitespaceOnly_cons (c : ascii) (s : string) :
  whitespaceOnly (String c s) = true ↔ isSpace c = true ∧ whitespaceOnly s = true.
Proof. unfold whitespaceOnly. cbn [list_ascii_of_string forallb]. apply andb_true_iff. Qed.

Lemma spaceFree_cons (c : ascii) (s : string) :
  forallb (λ c, negb (isSpace c)) (list_ascii_of_string (String c s)) = true ↔
  isSpace c = false ∧ forallb (λ c, negb (isSpace c)) (list_ascii_of_string s) = true.
Proof.
  cbn [list_ascii_of_string forallb]. rewrite andb_true_iff, negb_true_iff. tauto.
Qed.

Lemma spaceFree_snoc (cur : string) (c : ascii) :
  forallb (λ c, negb (isSpace c)) (list_ascii_of_string cur) = true → isSpace c = false →
  forallb (λ c, negb (isSpace c)) (list_ascii_of_string (cur +:+ String c EmptyString)) = true.
Proof.
  intros Hcur Hc. induction cur as [|x cur IH].
  - rewrite append_nil. apply spaceFree_cons. done.
  - rewrite append_cons. apply spaceFree_cons in Hcur as [Hx Hcur].
    apply spaceFree_cons. split; [done | by apply IH].
Qed.

(** White space in front of a string adds no word. *)
Lemma wordsOf_space (c : ascii) (s : string) (ts : list string) :
  isSpace c = true → wordsOf s ts → wordsOf (String c s) ts.
Proof.
  intros Hc Hs. destruct Hs as [gap Hgap | gap t rest ts Hgap Ht Hrest Hts].
  - apply wordsOf_blank. by apply whitespaceOnly_cons.
  - change (String c (gap +:+ t +:+ rest)) with (String c gap +:+ t +:+ rest).
    apply wordsOf_word; [by apply whitespaceOnly_cons | done..].
Qed.

(** A word that is followed by white space or by nothing. *)
Lemma wordsOf_first (t rest : string) (ts : list string) :
  isWord t → afterWord rest → wordsOf rest ts → wordsOf (t +:+ rest) (t :: ts).
Proof.
  intros Ht Hrest Hts. rewrite <- (append_nil (t +:+ rest)). by apply wordsOf_word.
Qed.

(** The state of the splitter: [cur] is the part of the current piece
    read so far, and is empty right after white space. *)
Lemma splitWsFrom_words (s : string) (inSep : bool) (cur : string) :
  forallb (λ c, negb (isSpace c)) (list_ascii_of_string cur) = true →
  (inSep = true → cur = EmptyString) →
  wordsOf (cur +:+ s) (List.filter truthy (splitWsFrom inSep cur s)).
Proof.
  revert inSep cur. induction s as [|c s IH]; intros inSep cur Hcur Hsep.
  - rewrite append_nil_r. cbn [splitWsFrom List.filter].
    destruct (truthy cur) eqn:Ht.
    + rewrite <- (append_nil_r cur) at 1.
      apply wordsOf_first; [|done|by apply wordsOf_blank].
      split; [by apply truthy_iff | done].
    + apply not_true_iff_false in Ht. rewrite truthy_iff in Ht.
      assert (cur = EmptyString) as -> by (by destruct cur; [|destruct Ht]).
      by apply wordsOf_blank.
  - cbn [splitWsFrom]. destruct (isSpace c) eqn:Hc.
    + assert (Hrest : wordsOf (String c s)
                        (List.filter truthy (splitWsFrom true EmptyString s))).
      { apply wordsOf_space; [done|]. rewrite <- (append_nil s) at 1. by apply IH. }
      destruct inSep; [by rewrite (Hsep eq_refl), append_nil|].
      cbn [List.filter]. destruct (truthy cur) eqn:Ht.
      * apply wordsOf_first; [|done|done]. split; [by apply truthy_iff | done].
      * apply not_true_iff_false in Ht. rewrite truthy_iff in Ht.
        assert (cur = EmptyString) as -> by (by destruct cur; [|destruct Ht]).
        by rewrite append_nil.
    + assert (cur +:+ String c s = (cur +:+ String c EmptyString) +:+ s) as ->
        by (by rewrite append_assoc).
      apply IH; [by apply spaceFree_snoc | done].
Qed.

(** The terms of a query are the white-space-separated words of the
    lower-cased query. *)
Lemma terms_words (q : string) : wordsOf (toLowerCase q) (terms q).
Proof.
  unfold terms, splitWs. rewrite <- (append_nil (toLowerCase q)) at 1.
  by apply splitWsFrom_words.
Qed.

Lemma blank_word (gap t rest : string) :
  whitespaceOnly (gap +:+ t +:+ rest) = true → ¬ isWord t.
Proof.
  induction gap as [|c gap IH].
  - rewrite append_nil. intros Hall [Hne Hfree]. destruct t as [|x t]; [done|].
    rewrite append_cons in Hall. apply whitespaceOnly_cons in Hall as [Hx _].
    apply spaceFree_cons in Hfree as [Hx' _]. congruence.
  - rewrite append_cons. intros Hall. apply whitespaceOnly_cons in Hall as [_ Hall].
    by apply IH.
Qed.

(** A gap ends where the first character that is not white space
    stands, and a word where the first white space stands. *)
Lemma gap_unique (gap1 gap2 t1 t2 rest1 rest2 : string) :
  whitespaceOnly gap1 = true → whitespaceOnly gap2 = true → isWord t1 → isWord t2 →
  gap1 +:+ t1 +:+ rest1 = gap2 +:+ t2 +:+ rest2 →
  gap1 = gap2 ∧ t1 +:+ rest1 = t2 +:+ rest2.
Proof.
  revert gap2. induction gap1 as [|c gap1 IH]; intros gap2 H1 H2 Ht1 Ht2 Heq.
  - destruct gap2 as [|d gap2]; [by rewrite !append_nil in Heq|].
    rewrite append_nil, append_cons in Heq. apply whitespaceOnly_cons in H2 as [Hd _].
    destruct Ht1 as [Hne Hfree]. destruct t1 as [|x t1]; [done|].
    rewrite append_cons in Heq. injection Heq as -> _.
    apply spaceFree_cons in Hfree as [Hx _]. congruence.
  - apply whitespaceOnly_cons in H1 as [Hc H1]. destruct gap2 as [|d gap2].
    + rewrite append_nil, append_cons in Heq.
      destruct Ht2 as [Hne Hfree]. destruct t2 as [|x t2]; [done|].
      rewrite append_cons in Heq. injection Heq as <- _.
      apply spaceFree_cons in Hfree as [Hx _]. congruence.
    + rewrite !append_cons in Heq. injection Heq as <- Heq.
      apply whitespaceOnly_cons in H2 as [_ H2].
      destruct (IH gap2 H1 H2 Ht1 Ht2 Heq) as [-> Hrest]. done.
Qed.

Lemma word_unique (t1 t2 rest1 rest2 : string) :
  forallb (λ c, negb (isSpace c)) (list_ascii_of_string t1) = true →
  forallb (λ c, negb (isSpace c)) (list_ascii_of_string t2) = true →
  afterWord rest1 → afterWord rest2 →
  t1 +:+ rest1 = t2 +:+ rest2 → t1 = t2 ∧ rest1 = rest2.
Proof.
  revert t2. induction t1 as [|c t1 IH]; intros t2 H1 H2 Hr1 Hr2 Heq.
  - destruct t2 as [|d t2]; [by rewrite !append_nil in Heq|].
    rewrite append_nil, append_cons in Heq. subst rest1. cbn in Hr1.
    apply spaceFree_cons in H2 as [Hd _]. congruence.
  - apply spaceFree_cons in H1 as [Hc H1]. destruct t2 as [|d t2].
    + rewrite append_nil, append_cons in Heq. subst rest2. cbn in Hr2. congruence.
    + rewrite !append_cons in Heq. injection Heq as <- Heq.
      apply spaceFree_cons in H2 as [_ H2].
      destruct (IH t2 H1 H2 Hr1 Hr2 Heq) as [-> ->]. done.
Qed.

(** A string has one sequence of words. *)
Lemma wordsOf_unique (s : string) (ts ts' : list string) :
  wordsOf s ts → wordsOf s ts' → ts = ts'.
Proof.
  intros Hts. revert ts'.
  induction Hts as [gap Hgap | gap t rest ts Hgap Ht Hrest Hts IH]; intros ts' Hts'.
  - inversion Hts' as [gap' Hgap' Hs | gap' t' rest' ts2 Hgap' Ht' Hrest' Hts2 Hs]; [done|].
    subst gap. by apply blank_word in Hgap.
  - inversion Hts' as [gap' Hgap' Hs | gap' t' rest' ts2 Hgap' Ht' Hrest' Hts2 Hs].
    + subst gap'. by apply blank_word in Hgap'.
    + destruct (gap_unique _ _ _ _ _ _ Hgap' Hgap Ht' Ht Hs) as [_ Hword].
      destruct (word_unique _ _ _ _ (proj2 Ht') (proj2 Ht) Hrest' Hrest Hword) as [-> ->].
      f_equal. by apply IH.
Qed.

(** C2. The terms of a query of ASCII characters are the
    white-space-separated words of the lower-cased query, and no other
    list is.  When there is at least one, [search] returns exactly the
    packages that pass the language and category filters and in which
    every term is a substring of the lower-cased name, directory name or
    description; they come by descending total score, a term adding 3 for
    the name plus 2 for the directory name plus 1 for the description;
    packages of equal score keep their registry order. *)
Theorem search_ranked (packages : list Package) (q : string) (lang : option Language)
    (cat : option Category) :
  isAscii q = true → terms q ≠ [] →
  let ts := terms q in
  let found := search packages (Some q) lang cat in
  let matching := List.filter (matchesAll ts) (survivors packages lang cat) in
  (∀ words, wordsOf (toLowerCase q) words ↔ words = ts)
  ∧ Permutation found matching
  ∧ (∀ p, In p found ↔
       In p (survivors packages lang cat)
       ∧ ∀ t, In t ts →
           substring t (toLowerCase (name p))
           ∨ substring t (toLowerCase (dirName p))
           ∨ substring t (toLowerCase (description p)))
  ∧ StronglySorted (λ a b, totalScore ts b ≤ totalScore ts a) found
  ∧ (∀ score, List.filter (λ p, totalScore ts p =? score) found
              = List.filter (λ p, totalScore ts p =? score) matching).
Proof.
  intros _ Hne ts found matching. subst found. rewrite (search_with_terms _ _ _ _ Hne).
  fold ts matching. split; [|split; [apply sort_perm|]; split; [|split]].
  - intros words. split; [|intros ->; apply terms_words].
    intros Hwords. apply (wordsOf_unique (toLowerCase q)); [done | apply terms_words].
  - intros p. rewrite sort_In. unfold matching. rewrite filter_In, matchesAll_iff. tauto.
  - eapply StronglySorted_weaken; [|apply sort_sorted; intros; lia].
    intros a b Hab. cbn beta in Hab. lia.
  - intros score. apply sort_filter. intros x y Hx Hy.
    apply Z.eqb_eq in Hx, Hy. lia.
Qed.

Lemma search_ranked_witness :
  map (λ p, (name p, totalScore (terms "Lean  IMT") p))
    (search Fixture.SYNTHETIC_PACKAGES (Some "Lean  IMT") None None)
  = [("@zk-kit/lean-imt.sol", 12); ("zk-kit-lean-imt", 12); ("@zk-kit/lean-imt", 11)]
  ∧ wordsOf "lean  imt" (terms "Lean  IMT")
  ∧ terms "Lean  IMT" = ["lean"; "imt"]
  ∧ StronglySorted
      (λ a b, totalScore (terms "Lean  IMT") b ≤ totalScore (terms "Lean  IMT") a)
      (search Fixture.SYNTHETIC_PACKAGES (Some "Lean  IMT") None None).
Proof.
  destruct (search_ranked Fixture.SYNTHETIC_PACKAGES "Lean  IMT" None None)
    as (Hwords & _ & _ & Hsorted & _); [reflexivity | vm_compute; discriminate|].
  split; [vm_compute; reflexivity|]. split; [by apply Hwords|].
  split; [vm_compute; reflexivity | exact Hsorted].
Defined.

(** *** Queries without terms *)

Lemma isSpace_lowerChar (c : ascii) : isSpace c = true → lowerChar c = c.
Proof. destruct c as [[] [] [] [] [] [] [] []]; (reflexivity || discriminate). Qed.

Lemma splitWsFrom_blank (s : string) (inSep : bool) :
  whitespaceOnly s = true →
  Forall (λ piece, piece = EmptyString) (splitWsFrom inSep EmptyString s).
Proof.
  revert inSep. induction s as [|c s IH]; intros inSep Hws; cbn [splitWsFrom].
  - by repeat constructor.
  - cbn [whitespaceOnly list_ascii_of_string forallb] in Hws.
    apply andb_true_iff in Hws as [Hc Hs]. rewrite Hc.
    destruct inSep; [by apply IH|]. constructor; [done | by apply IH].
Qed.

Lemma terms_blank (q : string) : whitespaceOnly q = true → terms q = [].
Proof.
  intros Hws. unfold terms, splitWs.
  assert (Hlower : toLowerCase q = q).
  { induction q as [|c q IH]; [done|].
    cbn [whitespaceOnly list_ascii_of_string forallb] in Hws.
    apply andb_true_iff in Hws as [Hc Hq]. unfold toLowerCase in *. cbn [mapChars].
    by rewrite isSpace_lowerChar, IH. }
  rewrite Hlower. pose proof (splitWsFrom_blank q false Hws) as Hall.
  induction Hall as [|piece rest -> _ IH]; [done|]. exact IH.
Qed.

Lemma search_without_terms (packages : list Package) (q : string) (lang : option Language)
    (cat : option Category) :
  q ≠ EmptyString → terms q = [] → search packages (Some q) lang cat = [].
Proof.
  intros Hq Hts. unfold search. rewrite (proj2 (truthy_iff q) Hq), Hts.
  rewrite filter_map_comm.
  rewrite (filter_ext _ (λ _, false)) by done.
  by rewrite filter_none.
Qed.

(** C10. A query that is not empty but holds only white space splits
    into no term: every package scores 0 and [search] returns the empty
    list, for every filter combination; without a query [search] returns
    all the packages passing the filters, in registry order.  The two
    calls differ as soon as a package passes the filters. *)
Theorem search_blank_query (packages : list Package) (q : string)
    (lang : option Language) (cat : option Category) :
  q ≠ EmptyString → whitespaceOnly q = true →
  terms q = []
  ∧ (∀ p, scoreLoop p (terms q) 0 = 0)
  ∧ search packages (Some q) lang cat = []
  ∧ search packages None lang cat = survivors packages lang cat
  ∧ (survivors packages lang cat ≠ [] →
     search packages (Some q) lang cat ≠ search packages None lang cat).
Proof.
  intros Hq Hws. pose proof (terms_blank q Hws) as Hts.
  split; [done|]. split; [by rewrite Hts|].
  split; [by apply search_without_terms|]. split; [apply search_no_query|].
  rewrite search_without_terms, search_no_query by done. congruence.
Qed.

Lemma search_blank_query_witness :
  search Fixture.SYNTHETIC_PACKAGES (Some "  ") (Some solidity) None = []
  ∧ map name (search Fixture.SYNTHETIC_PACKAGES None (Some solidity) None)
    = ["@zk-kit/lean-imt.sol"; "@zk-kit/excubiae"].
Proof.
  destruct (search_blank_query Fixture.SYNTHETIC_PACKAGES "  " (Some solidity) None)
    as (_ & _ & Hblank & _); [discriminate | reflexivity |].
  split; [exact Hblank | vm_compute; reflexivity].
Defined.

(** ** registry.ts: getByName *)

Import LookupSpec.

Lemma getByName_rules (packages : list Package) (query : string) :
  getByName packages query =
  let lower := toLowerCase query in
  match find (exactMatch lower) packages with
  | Some p => Some p
  | None =>
      match find (strippedMatch lower) packages with
      | Some p => Some p
      | None =>
          match find (dirMatch lower) packages with
          | Some p => Some p
          | None => find (fourthRule lower) packages
          end
      end
  end.
Proof.
  unfold getByName. cbv zeta.
  destruct (find (exactMatch _) packages); [done|].
  destruct (find (strippedMatch _) packages); [done|].
  destruct (find (dirMatch _) packages); [done|].
  unfold fourthRule, normalizes. cbv zeta.
  destruct (negb _ || negb _); [done|].
  symmetry. clear. induction packages as [|p l IH]; [done|]. exact IH.
Qed.

Lemma getByName_sound (packages : list Package) (query : string) (Q : Package) :
  getByName packages query = Some Q → In Q packages ∧ matchesQuery query Q = true.
Proof.
  rewrite getByName_rules. cbv zeta. unfold matchesQuery. cbv zeta.
  destruct (find (exactMatch _) packages) as [p|] eqn:H1.
  { intros [= <-]. apply find_some in H1 as [? ->]. done. }
  destruct (find (strippedMatch _) packages) as [p|] eqn:H2.
  { intros [= <-]. apply find_some in H2 as [? ->]. by rewrite orb_true_r. }
  destruct (find (dirMatch _) packages) as [p|] eqn:H3.
  { intros [= <-]. apply find_some in H3 as [? ->]. by rewrite !orb_true_r. }
  intros H4. apply find_some in H4 as [? ->]. by rewrite !orb_true_r.
Qed.

Lemma getByName_complete (packages : list Package) (query : string) (P : Package) :
  In P packages → matchesQuery query P = true → ∃ Q, getByName packages query = Some Q.
Proof.
  intros Hin Hm. rewrite getByName_rules. cbv zeta. unfold matchesQuery in Hm. cbv zeta in Hm.
  destruct (find (exactMatch _) packages) as [p|] eqn:H1; [eauto|].
  destruct (find (strippedMatch _) packages) as [p|] eqn:H2; [eauto|].
  destruct (find (dirMatch _) packages) as [p|] eqn:H3; [eauto|].
  destruct (find (fourthRule _) packages) as [p|] eqn:H4; [eauto|].
  rewrite (find_none _ _ H1 P Hin), (find_none _ _ H2 P Hin), (find_none _ _ H3 P Hin),
    (find_none _ _ H4 P Hin) in Hm. discriminate.
Qed.

(** [getByName] reads its argument through [toLowerCase] only. *)
Lemma getByName_case (packages : list Package) (query query' : string) :
  toLowerCase query' = toLowerCase query →
  getByName packages query' = getByName packages query.
Proof. intros Hlower. unfold getByName. by rewrite Hlower. Qed.

Lemma matchesQuery_name (P : Package) : matchesQuery (name P) P = true.
Proof. unfold matchesQuery, exactMatch. cbv zeta. by rewrite String.eqb_refl. Qed.

Lemma matchesQuery_dirName (P : Package) : matchesQuery (dirName P) P = true.
Proof.
  unfold matchesQuery, dirMatch. cbv zeta. by rewrite String.eqb_refl, orb_true_r.
Qed.

Lemma matchesQuery_case (query query' : string) (P : Package) :
  toLowerCase query' = toLowerCase query → matchesQuery query' P = matchesQuery query P.
Proof. intros Hlower. unfold matchesQuery. by rewrite Hlower. Qed.

Lemma toLowerCase_append (a b : string) :
  toLowerCase (a +:+ b) = toLowerCase a +:+ toLowerCase b.
Proof.
  unfold toLowerCase. induction a as [|c a IH]; [done|].
  rewrite append_cons. cbn [mapChars]. by rewrite IH.
Qed.

Lemma matchesQuery_unscoped (P : Package) (rest : string) :
  name P = "@zk-kit/" +:+ rest → matchesQuery rest P = true.
Proof.
  intros Hname. unfold matchesQuery, strippedMatch. cbv zeta.
  rewrite Hname, toLowerCase_append.
  change (toLowerCase "@zk-kit/") with "@zk-kit/".
  by rewrite stripPrefix_append, String.eqb_refl, orb_true_r.
Qed.

Lemma matchesQuery_lean_imt (P : Package) :
  toLowerCase (dirName P) = "lean-imt" →
  matchesQuery "lean_imt" P = true ∧ matchesQuery "zk_kit_lean_imt" P = true.
Proof.
  intros Hdir.
  unfold matchesQuery, fourthRule, normalizedMatch. cbv zeta. rewrite Hdir.
  split; apply orb_true_iff; right; vm_compute; reflexivity.
Qed.

Lemma find_all_false {A : Type} (f : A → bool) (l : list A) :
  (∀ x, In x l → f x = false) → find f l = None.
Proof.
  intros H. destruct (find f l) as [x|] eqn:Hfind; [|done].
  apply find_some in Hfind as [Hin Hfx]. by rewrite (H x Hin) in Hfx.
Qed.

(** When the first three rules find nothing, the fourth returns the
    first package whose lower-cased directory name is the hyphenated
    query, with or without its [zk-kit-] prefix. *)
Lemma getByName_normalized (packages : list Package) (P : Package) (query : string) :
  let lower := toLowerCase query in
  let normalized := replaceAllChar "_" "-" lower in
  In P packages → fourthRule lower P = true →
  (∀ Q, In Q packages →
     exactMatch lower Q = false ∧ strippedMatch lower Q = false ∧ dirMatch lower Q = false) →
  ∃ Q, getByName packages query = Some Q ∧ In Q packages
       ∧ (toLowerCase (dirName Q) = stripPrefix "zk-kit-" normalized
          ∨ toLowerCase (dirName Q) = normalized).
Proof.
  intros lower normalized Hin Hfourth Hmiss. subst lower normalized.
  rewrite getByName_rules. cbv zeta.
  rewrite !find_all_false by (intros Q HQ; by destruct (Hmiss Q HQ) as (? & ? & ?)).
  destruct (find (fourthRule _) packages) as [Q|] eqn:Hfind.
  - apply find_some in Hfind as [HQ HQm]. exists Q. split; [done|]. split; [done|].
    unfold fourthRule, normalizedMatch in HQm. cbv zeta in HQm.
    apply andb_true_iff in HQm as [_ HQm]. apply orb_true_iff in HQm.
    by rewrite !String.eqb_eq in HQm.
  - by rewrite (find_none _ _ Hfind P Hin) in Hfourth.
Qed.

(** C1 (as amended). For a package [P] of the registry, the queries
    [P.name], [P.dirName], [P.name] without its [@zk-kit/] scope, when
    [P.name] is made of ASCII characters [P.name.toUpperCase()], and
    when [P.dirName] is [lean-imt] the queries [lean_imt] and
    [zk_kit_lean_imt], all match [P] under one of the four rules.  For
    every query matching [P], [getByName] returns a package of the
    registry matching the query (never not-found), and returns [P] itself
    whenever [P] is the only package matching it.  The result depends
    only on the lower-cased query, so upper-casing a query of ASCII
    characters does not change it.  The rules are tried in the order
    exact name, scope-stripped name, directory name, normalized form, and
    within a rule the first package in registry order wins; so, with a
    package of directory name [lean-imt] in the registry and no package
    named [lean_imt] ([zk_kit_lean_imt]), the query [lean_imt]
    ([zk_kit_lean_imt]) returns a package whose directory name is
    [lean-imt] (or [zk-kit-lean-imt]). *)
Theorem getByName_resolution (packages : list Package) (P : Package) :
  In P packages →
  (matchesQuery (name P) P = true
   ∧ (isAscii (name P) = true → matchesQuery (toUpperCase (name P)) P = true)
   ∧ matchesQuery (dirName P) P = true
   ∧ (∀ rest, name P = "@zk-kit/" +:+ rest → matchesQuery rest P = true)
   ∧ (toLowerCase (dirName P) = "lean-imt" →
      matchesQuery "lean_imt" P = true ∧ matchesQuery "zk_kit_lean_imt" P = true))
  ∧ (∀ query, matchesQuery query P = true →
       (∃ Q, getByName packages query = Some Q ∧ In Q packages
             ∧ matchesQuery query Q = true)
       ∧ ((∀ Q, In Q packages → matchesQuery query Q = true → Q = P) →
          getByName packages query = Some P))
  ∧ (∀ query query', toLowerCase query' = toLowerCase query →
       getByName packages query' = getByName packages query)
  ∧ (∀ query, isAscii query = true →
       getByName packages (toUpperCase query) = getByName packages query)
  ∧ (∀ query,
       let lower := toLowerCase query in
       getByName packages query =
       match find (exactMatch lower) packages with
       | Some p => Some p
       | None =>
           match find (strippedMatch lower) packages with
           | Some p => Some p
           | None =>
               match find (dirMatch lower) packages with
               | Some p => Some p
               | None => find (fourthRule lower) packages
               end
           end
       end)
  ∧ (toLowerCase (dirName P) = "lean-imt" →
     ((∀ Q, In Q packages →
         exactMatch "lean_imt" Q = false ∧ strippedMatch "lean_imt" Q = false
         ∧ dirMatch "lean_imt" Q = false) →
      ∃ Q, getByName packages "lean_imt" = Some Q ∧ In Q packages
           ∧ toLowerCase (dirName Q) = "lean-imt")
     ∧ ((∀ Q, In Q packages →
           exactMatch "zk_kit_lean_imt" Q = false ∧ strippedMatch "zk_kit_lean_imt" Q = false
           ∧ dirMatch "zk_kit_lean_imt" Q = false) →
        ∃ Q, getByName packages "zk_kit_lean_imt" = Some Q ∧ In Q packages
             ∧ (toLowerCase (dirName Q) = "lean-imt"
                ∨ toLowerCase (dirName Q) = "zk-kit-lean-imt"))).
Proof.
  intros Hin. split; [|split; [|split; [|split; [|split]]]].
  - split; [apply matchesQuery_name|]. split.
    { intros Hascii.
      rewrite (matchesQuery_case (name P)) by (by apply toLowerCase_toUpperCase).
      apply matchesQuery_name. }
    split; [apply matchesQuery_dirName|]. split; [apply matchesQuery_unscoped|].
    apply matchesQuery_lean_imt.
  - intros query Hm. destruct (getByName_complete packages query P Hin Hm) as [Q HQ].
    destruct (getByName_sound packages query Q HQ) as [HQin HQm]. split; [eauto|].
    intros Huniq. rewrite HQ. f_equal. by apply Huniq.
  - intros query query'. apply getByName_case.
  - intros query Hascii. by apply getByName_case, toLowerCase_toUpperCase.
  - apply getByName_rules.
  - intros Hdir.
    assert (Hfourth : fourthRule "lean_imt" P = true ∧ fourthRule "zk_kit_lean_imt" P = true).
    { unfold fourthRule, normalizedMatch. cbv zeta. rewrite Hdir. split; vm_compute; reflexivity. }
    destruct Hfourth as [H1 H2]. split; intros Hmiss.
    + destruct (getByName_normalized packages P "lean_imt" Hin H1 Hmiss)
        as (Q & HQ & HQin & HQdir).
      exists Q. split; [done|]. split; [done|]. by destruct HQdir.
    + destruct (getByName_normalized packages P "zk_kit_lean_imt" Hin H2 Hmiss)
        as (Q & HQ & HQin & HQdir).
      exists Q. split; [done|]. split; [done|]. exact HQdir.
Qed.

Lemma getByName_resolution_witness :
  getByName Fixture.SYNTHETIC_PACKAGES "ECDH" = Some Fixture.ecdh.
Proof.
  destruct (getByName_resolution Fixture.SYNTHETIC_PACKAGES Fixture.ecdh) as (_ & H & _).
  - vm_compute. tauto.
  - apply (H "ECDH"); [vm_compute; reflexivity|].
    intros Q HQ Hm. vm_compute in HQ.
    destruct HQ as [<- | [<- | [<- | [<- | [<- | [<- | []]]]]]];
      first [reflexivity | vm_compute in Hm; discriminate].
Defined.

(** C1, as stated, fails: three packages of the test registry share the
    directory name [lean-imt], and the lookup by that name returns the
    first of them, not the Solidity one. *)
Lemma getByName_dirName_shared :
  In Fixture.leanImtSol Fixture.SYNTHETIC_PACKAGES
  ∧ getByName Fixture.SYNTHETIC_PACKAGES (dirName Fixture.leanImtSol) = Some Fixture.leanImtTs
  ∧ Fixture.leanImtTs ≠ Fixture.leanImtSol.
Proof.
  split; [vm_compute; tauto|]. split; [vm_compute; reflexivity | discriminate].
Qed.

Example getByName_examples :
  map (λ q, name <$> getByName Fixture.SYNTHETIC_PACKAGES q)
    ["@zk-kit/lean-imt"; "@ZK-KIT/LEAN-IMT"; "lean-imt"; "ecdh"; "nonexistent";
     "excubiae"; "lean_imt"; "zk_kit_lean_imt"; "zzz_nonexistent"]
  = [Some "@zk-kit/lean-imt"; Some "@zk-kit/lean-imt"; Some "@zk-kit/lean-imt";
     Some "@zk-kit/ecdh"; None; Some "@zk-kit/excubiae"; Some "@zk-kit/lean-imt";
     Some "@zk-kit/lean-imt"; None].
Proof. vm_compute. reflexivity. Qed.

(** ** registry.ts: the dependency graph *)

Import GraphSpec.

Lemma setOf_nonempty (xs : list string) : (0 < length (JsArray.setOf xs))%nat ↔ xs ≠ [].
Proof. destruct xs; cbn; [split; [lia | done] | split; [done | lia]]. Qed.

Lemma inDegree_positive (packages : list Package) (c : string) :
  (0 < inDegree packages c)%nat ↔ ∃ a, edge packages a c.
Proof.
  unfold inDegree, predecessors. rewrite setOf_nonempty. split.
  - intros Hne.
    destruct (List.filter _ packages) as [|p l] eqn:Hf; [done|].
    assert (Hp : In p (List.filter (λ p, JsArray.includes (zkKitDependencies p) c) packages))
      by (rewrite Hf; by left).
    apply filter_In in Hp as [Hin Hinc]. apply includes_In in Hinc.
    exists (crossLanguageId p), p. done.
  - intros (a & p & Hin & _ & Hdep) Hnil. apply map_eq_nil in Hnil.
    assert (Hp : In p (List.filter (λ p, JsArray.includes (zkKitDependencies p) c) packages))
      by (apply filter_In; split; [done | by apply includes_In]).
    by rewrite Hnil in Hp.
Qed.

Lemma outDegree_positive (packages : list Package) (c : string) :
  (0 < outDegree packages c)%nat ↔ ∃ b, edge packages c b.
Proof.
  unfold outDegree, successors. rewrite setOf_nonempty. split.
  - intros Hne.
    destruct (concat _) as [|b l] eqn:Hc; [done|].
    assert (Hb : In b (concat (map zkKitDependencies
               (List.filter (λ p, String.eqb (crossLanguageId p) c) packages))))
      by (rewrite Hc; by left).
    apply in_concat in Hb as (deps & Hdeps & Hb).
    apply in_map_iff in Hdeps as (p & <- & Hp). apply filter_In in Hp as [Hin Hid].
    apply String.eqb_eq in Hid. exists b, p. done.
  - intros (b & p & Hin & Hid & Hdep) Hnil.
    assert (Hb : In b (concat (map zkKitDependencies
               (List.filter (λ p, String.eqb (crossLanguageId p) c) packages)))).
    { apply in_concat. exists (zkKitDependencies p). split; [|done].
      apply in_map. apply filter_In. split; [done | by apply String.eqb_eq]. }
    by rewrite Hnil in Hb.
Qed.

Lemma ensure_default (k j : string) (m : gmap string (gset string)) :
  default ∅ (ensure k m !! j) = default ∅ (m !! j).
Proof.
  unfold ensure. destruct (m !! k) eqn:Hk; [done|].
  destruct (decide (k = j)) as [<- | Hne].
  - by rewrite lookup_insert_eq, Hk.
  - by rewrite lookup_insert_ne.
Qed.

Lemma ensure_is_Some (k : string) (m : gmap string (gset string)) :
  is_Some (ensure k m !! k).
Proof.
  unfold ensure. destruct (m !! k) eqn:Hk; [by rewrite Hk|]. by rewrite lookup_insert_eq.
Qed.

Lemma addTo_default (k x j : string) (m : gmap string (gset string)) :
  is_Some (m !! k) →
  default ∅ (addTo k x m !! j) =
  if decide (k = j) then default ∅ (m !! j) ∪ {[x]} else default ∅ (m !! j).
Proof.
  intros [s Hs]. unfold addTo. destruct (decide (k = j)) as [<- | Hne].
  - by rewrite lookup_alter_eq, Hs.
  - by rewrite lookup_alter_ne.
Qed.

Lemma addTo_is_Some (k x j : string) (m : gmap string (gset string)) :
  is_Some (m !! j) → is_Some (addTo k x m !! j).
Proof. intros H. unfold addTo. by apply lookup_alter_is_Some. Qed.

Lemma addDependency_represents (N : string → Prop) (E : string → string → Prop)
    (g : Graph) (id dep : string) :
  represents N E g → is_Some (dependsOn g !! id) →
  represents (λ c, N c ∨ c = dep) (λ a b, E a b ∨ (a = id ∧ b = dep))
    (addDependency id g dep)
  ∧ is_Some (dependsOn (addDependency id g dep) !! id).
Proof.
  intros (HN & Hon & Hby) Hid. split; [|by apply addTo_is_Some].
  split; [|split]; cbn [addDependency allConcepts dependsOn dependedBy].
  - intros c. rewrite elem_of_union, elem_of_singleton, HN. done.
  - intros a b. rewrite addTo_default by done. destruct (decide (id = a)) as [<- | Hne].
    + rewrite elem_of_union, elem_of_singleton, Hon. intuition auto.
    + rewrite Hon. intuition congruence.
  - intros a b. rewrite addTo_default by apply ensure_is_Some. rewrite ensure_default.
    destruct (decide (dep = b)) as [<- | Hne].
    + rewrite elem_of_union, elem_of_singleton, Hby. intuition auto.
    + rewrite Hby. intuition congruence.
Qed.

Lemma addDependencies_represents (id : string) (deps : list string)
    (N : string → Prop) (E : string → string → Prop) (g : Graph) :
  represents N E g → is_Some (dependsOn g !! id) →
  represents (λ c, N c ∨ In c deps) (λ a b, E a b ∨ (a = id ∧ In b deps))
    (foldl (addDependency id) g deps).
Proof.
  revert N E g. induction deps as [|dep deps IH]; intros N E g Hrep Hsome; cbn [foldl].
  - destruct Hrep as (H1 & H2 & H3).
    split; [|split]; intros; rewrite ?H1, ?H2, ?H3; cbn [In]; tauto.
  - destruct (addDependency_represents N E g id dep Hrep Hsome) as [Hrep' Hsome'].
    destruct (IH _ _ _ Hrep' Hsome') as (H1 & H2 & H3).
    split; [|split]; intros; rewrite ?H1, ?H2, ?H3; cbn [In]; intuition auto.
Qed.

Lemma addPackage_represents (N : string → Prop) (E : string → string → Prop)
    (g : Graph) (pkg : Package) :
  represents N E g →
  represents (λ c, N c ∨ c = crossLanguageId pkg ∨ In c (zkKitDependencies pkg))
    (λ a b, E a b ∨ (a = crossLanguageId pkg ∧ In b (zkKitDependencies pkg)))
    (addPackage g pkg).
Proof.
  intros (HN & Hon & Hby). unfold addPackage.
  set (id := crossLanguageId pkg).
  set (g0 := {| dependsOn := ensure id (dependsOn g); dependedBy := dependedBy g;
                allConcepts := allConcepts g ∪ {[id]} |}).
  assert (H0 : represents (λ c, N c ∨ c = id) E g0).
  { split; [|split]; cbn.
    - intros c. rewrite elem_of_union, elem_of_singleton, HN. done.
    - intros a b. by rewrite ensure_default.
    - done. }
  destruct (addDependencies_represents id (zkKitDependencies pkg) _ _ g0 H0)
    as (H1 & H2 & H3); [apply ensure_is_Some|].
  split; [|split]; intros; rewrite ?H1, ?H2, ?H3; tauto.
Qed.

Lemma mentions_cons (p : Package) (l : list Package) (c : string) :
  mentions (p :: l) c ↔
  (c = crossLanguageId p ∨ In c (zkKitDependencies p)) ∨ mentions l c.
Proof.
  unfold mentions. split.
  - intros (q & [<- | Hq] & Hc); [by left | right; eauto].
  - intros [Hc | (q & Hq & Hc)]; [exists p | exists q]; cbn [In]; tauto.
Qed.

Lemma edge_cons (p : Package) (l : list Package) (a b : string) :
  edge (p :: l) a b ↔
  (a = crossLanguageId p ∧ In b (zkKitDependencies p)) ∨ edge l a b.
Proof.
  unfold edge. split.
  - intros (q & [<- | Hq] & Ha & Hb); [by left | right; eauto].
  - intros [[-> Hb] | (q & Hq & Ha & Hb)]; [exists p | exists q]; cbn [In]; tauto.
Qed.

Lemma node_mentions (l : list Package) (c : string) : node l c ↔ mentions l c.
Proof.
  unfold node, mentions, edge. split.
  - intros [(p & Hp & <-) | (a & p & Hp & _ & Hc)]; exists p; tauto.
  - intros (p & Hp & [-> | Hc]); [left | right]; eauto.
Qed.

Lemma foldl_addPackage_represents (l : list Package) (N : string → Prop)
    (E : string → string → Prop) (g : Graph) :
  represents N E g →
  represents (λ c, N c ∨ mentions l c) (λ a b, E a b ∨ edge l a b) (foldl addPackage g l).
Proof.
  revert N E g. induction l as [|pkg l IH]; intros N E g Hrep; cbn [foldl].
  - destruct Hrep as (H1 & H2 & H3).
    split; [|split]; intros; rewrite ?H1, ?H2, ?H3; unfold mentions, edge; cbn [In];
      (split; [tauto | intros [? | (? & [] & _)]; done]).
  - destruct (IH _ _ _ (addPackage_represents N E g pkg Hrep)) as (H1 & H2 & H3).
    split; [|split]; intros; rewrite ?H1, ?H2, ?H3, ?mentions_cons, ?edge_cons; tauto.
Qed.

Lemma buildGraph_represents (packages : list Package) :
  represents (node packages) (edge packages) (buildGraph packages).
Proof.
  unfold buildGraph.
  destruct (foldl_addPackage_represents packages (λ _, False) (λ _ _, False) emptyGraph)
    as (H1 & H2 & H3).
  { split; [|split]; intros; cbn; rewrite ?lookup_empty; cbn; set_solver. }
  split; [|split]; intros; rewrite ?H1, ?H2, ?H3, ?node_mentions; tauto.
Qed.

Lemma sizeAt_positive (m : gmap string (gset string)) (c : string) :
  (0 < sizeAt m c)%nat ↔ ∃ x, x ∈ default ∅ (m !! c).
Proof.
  unfold sizeAt. destruct (m !! c) as [s|]; cbn [default].
  - split; [apply size_pos_elem_of|]. intros [x Hx].
    destruct (decide (size s = 0)%nat) as [Hz | Hnz]; [|lia].
    apply size_empty_iff in Hz. set_solver.
  - split; [lia | intros [x Hx]; by apply not_elem_of_empty in Hx].
Qed.

Lemma buildGraph_usedBy (packages : list Package) (c : string) :
  (0 < sizeAt (dependedBy (buildGraph packages)) c)%nat ↔ (0 < inDegree packages c)%nat.
Proof.
  destruct (buildGraph_represents packages) as (_ & _ & Hby).
  rewrite sizeAt_positive, inDegree_positive. split; intros [a Ha]; exists a; by apply Hby.
Qed.

Lemma buildGraph_deps (packages : list Package) (c : string) :
  (0 < sizeAt (dependsOn (buildGraph packages)) c)%nat ↔ (0 < outDegree packages c)%nat.
Proof.
  destruct (buildGraph_represents packages) as (_ & Hon & _).
  rewrite sizeAt_positive, outDegree_positive. split; intros [b Hb]; exists b; by apply Hon.
Qed.

Lemma sortedConcepts_In (g : Graph) (c : string) :
  In c (sortedConcepts g) ↔ c ∈ allConcepts g.
Proof.
  unfold sortedConcepts, JsArray.sortStrings.
  by rewrite sort_In, <- list_elem_of_In, elem_of_elements.
Qed.

Lemma classifyStep_In (g : Graph) (cl : Classes) (x c : string) :
  let usedBy := sizeAt (dependedBy g) in
  let deps := sizeAt (dependsOn g) in
  (In c (foundational (classifyStep g cl x)) ↔
   In c (foundational cl) ∨ (c = x ∧ 0 < usedBy x)%nat)
  ∧ (In c (leaf (classifyStep g cl x)) ↔
     In c (leaf cl) ∨ (c = x ∧ usedBy x = 0 ∧ 0 < deps x)%nat)
  ∧ (In c (independent (classifyStep g cl x)) ↔
     In c (independent cl) ∨ (c = x ∧ usedBy x = 0 ∧ deps x = 0)%nat).
Proof.
  cbn zeta. unfold classifyStep.
  destruct (Nat.ltb_spec 0 (sizeAt (dependedBy g) x)) as [Hu | Hu];
    [|destruct (Nat.ltb_spec 0 (sizeAt (dependsOn g) x)) as [Hd | Hd]];
    cbn [foundational leaf independent]; rewrite ?in_app_iff; cbn [In];
    intuition (try lia; auto).
Qed.

Lemma classify_fold (g : Graph) (concepts : list string) (cl : Classes) :
  let cl' := foldl (classifyStep g) cl concepts in
  let usedBy := sizeAt (dependedBy g) in
  let deps := sizeAt (dependsOn g) in
  (∀ c, In c (foundational cl') ↔
        In c (foundational cl) ∨ (In c concepts ∧ 0 < usedBy c)%nat)
  ∧ (∀ c, In c (leaf cl') ↔
          In c (leaf cl) ∨ (In c concepts ∧ usedBy c = 0 ∧ 0 < deps c)%nat)
  ∧ (∀ c, In c (independent cl') ↔
          In c (independent cl) ∨ (In c concepts ∧ usedBy c = 0 ∧ deps c = 0)%nat).
Proof.
  revert cl. induction concepts as [|x l IH]; intros cl; cbn [foldl].
  - cbn [In]. repeat split; tauto.
  - destruct (IH (classifyStep g cl x)) as (Hf & Hl & Hi). cbn zeta in *.
    split; [|split]; intros c;
      destruct (classifyStep_In g cl x c) as (Sf & Sl & Si); cbn zeta in *;
      rewrite ?Hf, ?Hl, ?Hi, ?Sf, ?Sl, ?Si; cbn [In];
      (split; [intros [[H | [-> H]] | [H H']]; auto
              | intros [H | [[<- | H] H']]; auto]).
Qed.

Lemma classify_spec (packages : list Package) (c : string) :
  let cl := classify (buildGraph packages) in
  (In c (foundational cl) ↔ node packages c ∧ (0 < inDegree packages c)%nat)
  ∧ (In c (leaf cl) ↔
     node packages c ∧ inDegree packages c = O ∧ (0 < outDegree packages c)%nat)
  ∧ (In c (independent cl) ↔
     node packages c ∧ inDegree packages c = O ∧ outDegree packages c = O).
Proof.
  cbn zeta. unfold classify.
  destruct (classify_fold (buildGraph packages) (sortedConcepts (buildGraph packages))
              {| foundational := []; leaf := []; independent := [] |}) as (Hf & Hl & Hi).
  cbn zeta in *. cbn [foundational leaf independent In] in *.
  pose proof (buildGraph_usedBy packages c) as Hu.
  pose proof (buildGraph_deps packages c) as Hd.
  destruct (buildGraph_represents packages) as (HN & _ & _).
  rewrite Hf, Hl, Hi, !sortedConcepts_In, !HN. clear Hf Hl Hi HN.
  split; [|split]; intuition lia.
Qed.

(** The report is built by appending one line after the other. *)
Lemma foldl_lines (line : string → string) (concepts : list string) (md closing : string) :
  foldl (λ md c, md +:+ line c) md concepts +:+ closing
  = md +:+ foldr (λ c rest, line c +:+ rest) closing concepts.
Proof.
  revert md. induction concepts as [|c concepts IH]; intros md; cbn [foldl foldr]; [done|].
  by rewrite IH, append_assoc.
Qed.

Lemma listed_lines (heading : string) (line : string → string) (closing : string)
    (concepts : list string) (md : string) :
  (if (0 <? length concepts)%nat
   then foldl (λ md c, md +:+ line c) (md +:+ heading) concepts +:+ closing
   else md)
  = md +:+ listed heading line closing concepts.
Proof.
  destruct concepts as [|c concepts]; [by rewrite append_nil_r|].
  change (0 <? length (c :: concepts))%nat with true. cbv iota.
  by rewrite foldl_lines, append_assoc.
Qed.

Lemma listed_last (heading : string) (line : string → string)
    (concepts : list string) (md : string) :
  (if (0 <? length concepts)%nat
   then foldl (λ md c, md +:+ line c) (md +:+ heading) concepts
   else md)
  = md +:+ listed heading line EmptyString concepts.
Proof.
  rewrite <- listed_lines. destruct (0 <? length concepts)%nat; [|done].
  by rewrite append_nil_r.
Qed.

(** For a registry that is not empty, [getDependencyGraph] returns the
    report of the graph of its packages and of the classes [classify]
    gives. *)
Lemma getDependencyGraph_report (packages : list Package) :
  packages ≠ [] →
  getDependencyGraph packages
  = report packages (buildGraph packages) (classify (buildGraph packages)).
Proof.
  intros Hne. unfold getDependencyGraph, report.
  destruct packages as [|p packages]; [done|].
  change (length (p :: packages) =? 0)%nat with false. cbv iota zeta.
  set (g := buildGraph (p :: packages)). set (cl := classify g).
  rewrite !listed_lines, listed_last. by rewrite !append_assoc.
Qed.

(** C3. In the concept graph of [getDependencyGraph] a node with an
    incoming edge is listed as foundational, a node with no incoming but
    an outgoing edge as leaf, and any other node as independent; every
    node is in exactly one of the three lists and nothing else is listed.
    In particular the middle node of a chain [a -> c -> b] is
    foundational and not a leaf.  The report of a registry that is not
    empty shows each of the three lists under its heading, one line for
    each of its concepts. *)
Theorem dependency_classes (packages : list Package) (c : string) :
  let cl := classify (buildGraph packages) in
  (packages ≠ [] → getDependencyGraph packages = report packages (buildGraph packages) cl)
  ∧ ((0 < inDegree packages c)%nat ↔ ∃ a, edge packages a c)
  ∧ ((0 < outDegree packages c)%nat ↔ ∃ b, edge packages c b)
  ∧ (node packages c →
     ((0 < inDegree packages c)%nat → In c (foundational cl))
     ∧ (inDegree packages c = O → (0 < outDegree packages c)%nat → In c (leaf cl))
     ∧ (inDegree packages c = O → outDegree packages c = O → In c (independent cl)))
  ∧ (In c (foundational cl) → node packages c ∧ (0 < inDegree packages c)%nat)
  ∧ (In c (leaf cl) →
     node packages c ∧ inDegree packages c = O ∧ (0 < outDegree packages c)%nat)
  ∧ (In c (independent cl) →
     node packages c ∧ inDegree packages c = O ∧ outDegree packages c = O)
  ∧ ¬ (In c (foundational cl) ∧ In c (leaf cl))
  ∧ ¬ (In c (foundational cl) ∧ In c (independent cl))
  ∧ ¬ (In c (leaf cl) ∧ In c (independent cl))
  ∧ (∀ a b, edge packages a c → edge packages c b →
       In c (foundational cl) ∧ ¬ In c (leaf cl)).
Proof.
  intros cl. destruct (classify_spec packages c) as (Hf & Hl & Hi). fold cl in Hf, Hl, Hi.
  pose proof (inDegree_positive packages c) as Hin.
  pose proof (outDegree_positive packages c) as Hout.
  split; [apply getDependencyGraph_report|]. split; [done|]. split; [done|].
  split; [intros Hnode; rewrite Hf, Hl, Hi; tauto|].
  split; [by rewrite Hf|]. split; [by rewrite Hl|]. split; [by rewrite Hi|].
  split; [rewrite Hf, Hl; lia|]. split; [rewrite Hf, Hi; lia|]. split; [rewrite Hl, Hi; lia|].
  intros a b Ha Hb. rewrite Hf, Hl.
  assert (Hpos : (0 < inDegree packages c)%nat) by (apply Hin; eauto).
  split; [|lia]. split; [|done]. right. eauto.
Qed.

Lemma dependency_classes_witness :
  getDependencyGraph Fixture.chain
  = report Fixture.chain (buildGraph Fixture.chain) (classify (buildGraph Fixture.chain))
  ∧ In "b" (foundational (classify (buildGraph Fixture.chain)))
  ∧ ¬ In "b" (leaf (classify (buildGraph Fixture.chain))).
Proof.
  destruct (dependency_classes Fixture.chain "b")
    as (Hreport & _ & _ & _ & _ & _ & _ & _ & _ & _ & H).
  split; [by apply Hreport|].
  apply (H "a" "c").
  - exists (Fixture.makePackage "@zk-kit/a" "a" typescript other "A" ["b"]).
    vm_compute. tauto.
  - exists (Fixture.makePackage "@zk-kit/b" "b" typescript other "B" ["c"]).
    vm_compute. tauto.
Defined.

Example chain_classes :
  classify (buildGraph Fixture.chain)
  = {| foundational := ["b"; "c"]; leaf := ["a"]; independent := [] |}.
Proof. vm_compute. reflexivity. Qed.

Example chain_report :
  getDependencyGraph Fixture.chain =
  "# ZK-Kit Internal Dependency Graph" +:+ nl +:+ nl
  +:+ "**3 concepts**, **2 internal dependencies**" +:+ nl +:+ nl
  +:+ "## Foundational Packages" +:+ nl +:+ nl
  +:+ "Depended on by other ZK-Kit packages:" +:+ nl +:+ nl
  +:+ "- **b** (typescript): used by a" +:+ nl
  +:+ "- **c** (typescript): used by b" +:+ nl +:+ nl
  +:+ "## Leaf Packages" +:+ nl +:+ nl
  +:+ "Depend on other ZK-Kit packages but are not depended on:" +:+ nl +:+ nl
  +:+ "- **a** (typescript): depends on b" +:+ nl +:+ nl.
Proof. vm_compute. reflexivity. Qed.

(** ** registry.ts: the empty registry *)

Import CoverageSpec Server.

Lemma buildConceptMap_dom (l : list Package) (m : gmap string (list string)) (c : string) :
  c ∈ dom m ∨ (∃ p, In p l ∧ crossLanguageId p = c) → c ∈ dom (foldl addConcept m l).
Proof.
  revert m. induction l as [|p l IH]; intros m; cbn [foldl].
  - intros [H | (p & [] & _)]. exact H.
  - intros H. apply IH. unfold addConcept. rewrite dom_insert_L, elem_of_union, elem_of_singleton.
    destruct H as [H | (q & [<- | Hq] & Hc)]; eauto.
Qed.

Lemma totalSlots_positive (packages : list Package) :
  packages ≠ [] → (0 < totalSlots packages)%nat.
Proof.
  destruct packages as [|p l]; [done|]. intros _. unfold totalSlots.
  apply Nat.mul_pos_pos.
  - unfold conceptsOf, JsArray.sortStrings. rewrite sort_length.
    assert (Hin : crossLanguageId p ∈ elements (dom (buildConceptMap (p :: l)))).
    { apply elem_of_elements, buildConceptMap_dom. right. exists p. split; [by left | done]. }
    destruct (elements _); [by apply elem_of_nil in Hin | cbn; lia].
  - unfold coverageLanguages, JsArray.sortStrings. rewrite sort_length.
    by apply setOf_nonempty.
Qed.

(** C4. On the empty registry [getCrossLanguageCoverage] returns the
    sentinel, whatever the percentage computation would yield: the
    division is not reached.  On any other registry the divisor of the
    percentage is positive. *)
Theorem coverage_empty_registry (coveragePercent : nat → nat → string) :
  getCrossLanguageCoverage coveragePercent [] = "No packages available."
  ∧ ∀ packages, packages ≠ [] → (0 < totalSlots packages)%nat.
Proof. split; [reflexivity | apply totalSlots_positive]. Qed.

Lemma coverage_empty_registry_witness :
  (0 < totalSlots Fixture.SYNTHETIC_PACKAGES)%nat.
Proof.
  apply (coverage_empty_registry (λ _ _, EmptyString)). discriminate.
Defined.

Lemma getReverseDependencies_empty (localeCompare : string → string → Z) (id : string) :
  getReverseDependencies localeCompare [] id =
  "# Dependency Info: " +:+ id +:+ nl +:+ nl +:+ "**Available in:** " +:+ nl +:+ nl
  +:+ "No other ZK-Kit packages depend on " +:+ id +:+ "." +:+ nl.
Proof.
  unfold getReverseDependencies. cbn [foldl languagesOf List.filter map JsArray.setOf
    JsArray.unique length Nat.ltb Nat.leb join String.concat].
  by rewrite !append_assoc.
Qed.

(** C5 (as amended). On the empty registry the [get_dependency_graph]
    tool answers with the sentinel followed by the empty-registry hint,
    whether or not a package name is given, and never calls
    [getReverseDependencies]; [getDependencyGraph] returns the bare
    sentinel.  [getReverseDependencies] itself has no empty-registry
    case: it returns its usual report, with no language and no
    dependent. *)
Theorem reverse_dependencies_empty_registry (localeCompare : string → string → Z)
    (id : string) :
  getReverseDependencies localeCompare [] id =
    "# Dependency Info: " +:+ id +:+ nl +:+ nl +:+ "**Available in:** " +:+ nl +:+ nl
    +:+ "No other ZK-Kit packages depend on " +:+ id +:+ "." +:+ nl
  ∧ getReverseDependencies localeCompare [] id ≠ NO_PACKAGES
  ∧ getDependencyGraph [] = NO_PACKAGES
  ∧ ∀ query, getDependencyGraphTool localeCompare [] query
             = textResult (NO_PACKAGES +:+ EMPTY_REGISTRY_HINT).
Proof.
  split; [apply getReverseDependencies_empty|]. split; [|split; [reflexivity | reflexivity]].
  rewrite getReverseDependencies_empty. discriminate.
Qed.

(** C5, as stated, fails: the method returns a report, not the
    sentinel. *)
Lemma getReverseDependencies_no_sentinel :
  getReverseDependencies JsString.compareCodeUnits [] "lean-imt" ≠ "No packages available.".
Proof. vm_compute. discriminate. Qed.
(** ** discovery.ts *)

Import Discovery DiscoverySpec.

Lemma fulfilledValues_app {A : Type} (xs ys : list (Settled A)) :
  fulfilledValues (xs ++ ys) = fulfilledValues xs ++ fulfilledValues ys.
Proof.
  induction xs as [|[v | r] xs IH]; cbn [fulfilledValues app]; [done | | done].
  by rewrite IH.
Qed.

Lemma discoverPackage_outcome (github : Github) (repo : RepoConfig) (dir : string) :
  fulfilledValues [discoverPackage github repo dir] = survivingPackage github repo dir.
Proof.
  unfold discoverPackage, survivingPackage.
  by destruct (fetchManifestInfo github _ _ _ _ _).
Qed.

Lemma discoverPackages_outcome (github : Github) (repo : RepoConfig) (dirs : list string) :
  fulfilledValues (map (discoverPackage github repo) dirs)
  = flat_map (survivingPackage github repo) dirs.
Proof.
  induction dirs as [|dir dirs IH]; [done|]. cbn [map flat_map].
  change (discoverPackage github repo dir :: map (discoverPackage github repo) dirs)
    with ([discoverPackage github repo dir] ++ map (discoverPackage github repo) dirs).
  by rewrite fulfilledValues_app, discoverPackage_outcome, IH.
Qed.

Lemma discoverRepo_outcome (github : Github) (repo : RepoConfig) :
  concat (fulfilledValues [discoverRepo github repo]) = survivingPackages github repo.
Proof.
  unfold discoverRepo, survivingPackages.
  destruct (fetchDirectoryListing github _ _) as [dirs | reason]; [|done].
  cbn. by rewrite discoverPackages_outcome, app_nil_r.
Qed.

Lemma discoverRepos_outcome (github : Github) (repos : list RepoConfig) :
  concat (fulfilledValues (map (discoverRepo github) repos))
  = flat_map (survivingPackages github) repos.
Proof.
  induction repos as [|repo repos IH]; [done|]. cbn [map flat_map].
  change (discoverRepo github repo :: map (discoverRepo github) repos)
    with ([discoverRepo github repo] ++ map (discoverRepo github) repos).
  by rewrite fulfilledValues_app, concat_app, discoverRepo_outcome, IH.
Qed.

(** The packages that reach the final sort are the survivors, in the
    order of [REPOS] and of the listings. *)
Lemma discoverAllPackages_outcome (github : Github) (localeCompare : string → string → Z) :
  discoverAllPackages github localeCompare
  = settle (JsArray.sortWith (comparePackages localeCompare) (allSurvivors github)).
Proof.
  unfold discoverAllPackages, allSettled, allSurvivors. cbn [mbind Settled_bind].
  by rewrite discoverRepos_outcome.
Qed.

Lemma allSurvivors_In (github : Github) (p : Discovered) :
  In p (allSurvivors github) ↔
  ∃ repo dirs dir manifest,
    In repo REPOS
    ∧ fetchDirectoryListing github (slug repo) (packagePath repo) = Fulfilled dirs
    ∧ In dir dirs
    ∧ fetchManifestInfo github (slug repo) (branch repo) (packagePath repo) dir
        (repoLanguage repo) = Fulfilled manifest
    ∧ p = packageOf repo dir manifest.
Proof.
  unfold allSurvivors. rewrite in_flat_map. split.
  - intros (repo & Hrepo & Hp). unfold survivingPackages in Hp.
    destruct (fetchDirectoryListing github _ _) as [dirs | reason] eqn:Hdirs; [|done].
    apply in_flat_map in Hp as (dir & Hdir & Hp). unfold survivingPackage in Hp.
    destruct (fetchManifestInfo github _ _ _ _ _) as [manifest | reason] eqn:Hm; [|done].
    destruct Hp as [<- | []]. exists repo, dirs, dir, manifest. done.
  - intros (repo & dirs & dir & manifest & Hrepo & Hdirs & Hdir & Hm & ->).
    exists repo. split; [done|]. unfold survivingPackages. rewrite Hdirs.
    apply in_flat_map. exists dir. split; [done|]. unfold survivingPackage. rewrite Hm.
    by left.
Qed.


(** A survivor has a string for a name, unless its directory is one of
    the solidity repository and is named as a member of
    [Object.prototype]. *)
Lemma survivor_name (github : Github) (p : Discovered) :
  In p (allSurvivors github) → named p ∨ inheritedName p.
Proof.
  intros Hp. apply allSurvivors_In in Hp as (repo & dirs & dir & manifest & _ & _ & _ & _ & ->).
  unfold named, inheritedName. cbn [packageOf name dirName language].
  destruct (deriveName_cases dir (repoLanguage repo)) as [H | (-> & Hin & ->)]; tauto.
Qed.

Lemma named_not_inherited (p : Discovered) : named p → ¬ inheritedName p.
Proof. intros [s Hs] (_ & _ & Hi). congruence. Qed.


Lemma languageRank_rankOf {Name : Type} (p : PackageOf Name) :
  languageRank p = rankOf (language p).
Proof. unfold languageRank. by destruct (language p). Qed.



Lemma comparePackages_named (localeCompare : string → string → Z) (a b : Discovered) :
  named a → comparePackages localeCompare a b = Normal (order localeCompare a b).
Proof.
  intros [s Hs]. unfold comparePackages, order. rewrite !languageRank_rankOf, Hs.
  by destruct (negb _).
Qed.







(** *** Promise.allSettled and the completion order *)

Lemma settle_lookup {A : Type} (ps : list (Settled A)) (order : list nat)
    (slots : list (option (Settled A))) (i : nat) :
  length slots = length ps →
  foldl (settleSlot ps) slots order !! i =
  if decide (i ∈ order) then Some <$> ps !! i else slots !! i.
Proof.
  revert slots. induction order as [|j order IH]; intros slots Hlen; cbn [foldl].
  - destruct (decide (i ∈ [])) as [Hin | _]; [by apply elem_of_nil in Hin | done].
  - assert (Hlen' : length (settleSlot ps slots j) = length ps).
    { unfold settleSlot. destruct (ps !! j); [by rewrite length_insert | done]. }
    rewrite (IH _ Hlen'). destruct (decide (i ∈ order)) as [Hin | Hnin].
    + destruct (decide (i ∈ j :: order)) as [_ | Hn]; [done|].
      destruct Hn. apply elem_of_cons. by right.
    + unfold settleSlot. destruct (decide (i = j)) as [-> | Hne].
      * destruct (decide (j ∈ j :: order)) as [_ | Hn]; [|destruct Hn; apply elem_of_cons; by left].
        destruct (ps !! j) as [o|] eqn:Hj.
        -- apply list_lookup_insert_eq. rewrite Hlen. by eapply lookup_lt_Some.
        -- cbn. apply lookup_ge_None. rewrite Hlen. by apply lookup_ge_None.
      * destruct (decide (i ∈ j :: order)) as [Hin | _].
        -- apply elem_of_cons in Hin as [Heq | Hin]; [congruence | done].
        -- destruct (ps !! j); [by apply list_lookup_insert_ne | done].
Qed.

(** The value of [Promise.allSettled] does not depend on the order in
    which the promises settle. *)
Lemma allSettledIn_complete {A : Type} (ps : list (Settled A)) (order : list nat) :
  complete (length ps) order → allSettledIn order ps = Some ps.
Proof.
  intros Hall. unfold allSettledIn.
  assert (Hslots : foldl (settleSlot ps) (replicate (length ps) None) order = Some <$> ps).
  { apply list_eq. intros i. rewrite settle_lookup by apply length_replicate.
    rewrite list_lookup_fmap. destruct (decide (i ∈ order)) as [_ | Hnin]; [done|].
    destruct (decide (i < length ps)%nat) as [Hlt | Hge].
    { destruct Hnin. by apply list_elem_of_In, Hall. }
    rewrite (proj2 (lookup_ge_None ps i)) by lia.
    apply lookup_ge_None. rewrite length_replicate. lia. }
  rewrite Hslots. by apply mapM_fmap_Some.
Qed.

Lemma mapM_total {A B : Type} (f : A → option B) (g : A → B) (l : list A) :
  (∀ x, In x l → f x = Some (g x)) → mapM f l = Some (map g l).
Proof.
  induction l as [|x l IH]; intros H; [done|]. cbn [mapM map].
  rewrite (H x) by (by left). cbn. rewrite IH by (intros; apply H; by right). done.
Qed.

Lemma discoverAllPackagesIn_complete (github : Github) (localeCompare : string → string → Z)
    (repoOrder : list nat) (dirOrder : string → list nat) :
  completeOrders github repoOrder dirOrder →
  discoverAllPackagesIn github localeCompare repoOrder dirOrder
  = Some (discoverAllPackages github localeCompare).
Proof.
  intros [Hrepos Hdirs]. unfold discoverAllPackagesIn.
  rewrite (mapM_total _ (discoverRepo github)).
  - cbn [mbind option_bind]. rewrite allSettledIn_complete by (by rewrite length_map).
    reflexivity.
  - intros repo Hrepo. unfold discoverRepoIn, discoverRepo.
    destruct (fetchDirectoryListing github _ _) as [dirs | reason] eqn:Hlist; [|done].
    rewrite allSettledIn_complete; [done|]. rewrite length_map. by eapply Hdirs.
Qed.

Section DiscoveryOrder.
Variable localeCompare : string → string → Z.
Hypothesis localeCompare_sym : ∀ a b, localeCompare a b < 0 ↔ 0 < localeCompare b a.
Hypothesis localeCompare_trans :
  ∀ a b c, localeCompare a b ≤ 0 → localeCompare b c ≤ 0 → localeCompare a c ≤ 0.

Lemma order_precedes (a b : Discovered) :
  order localeCompare a b ≤ 0 ↔ precedes localeCompare a b.
Proof.
  unfold order, precedes, keyPrecedes, sortKey. cbn [fst snd].
  destruct (Z.eqb_spec (rankOf (language a) - rankOf (language b)) 0); cbn [negb]; lia.
Qed.

Lemma order_packages_sym (a b : Discovered) :
  order localeCompare a b < 0 ↔ 0 < order localeCompare b a.
Proof.
  unfold order.
  destruct (Z.eqb_spec (rankOf (language a) - rankOf (language b)) 0),
    (Z.eqb_spec (rankOf (language b) - rankOf (language a)) 0); cbn [negb];
    try lia. apply localeCompare_sym.
Qed.

Lemma order_packages_trans (a b c : Discovered) :
  order localeCompare a b ≤ 0 → order localeCompare b c ≤ 0 →
  order localeCompare a c ≤ 0.
Proof.
  rewrite !order_precedes. unfold precedes, keyPrecedes. cbn [sortKey fst snd].
  intros [Hab | [Hab Hn1]] [Hbc | [Hbc Hn2]]; try (left; lia).
  right. split; [lia|]. by eapply localeCompare_trans.
Qed.

Lemma tiesWith_order (q a b : Discovered) :
  tiesWith localeCompare q a = true → tiesWith localeCompare q b = true →
  order localeCompare a b = 0.
Proof.
  unfold tiesWith, order. intros Ha Hb.
  apply andb_true_iff in Ha as [Hla Ha], Hb as [Hlb Hb].
  assert (language a = language q) as -> by (by destruct (language a), (language q)).
  assert (language b = language q) as -> by (by destruct (language b), (language q)).
  rewrite Z.sub_diag. cbn. apply Z.eqb_eq in Ha, Hb.
  set (x := toStringValue (name a)) in *. set (y := toStringValue (name b)) in *.
  set (z := toStringValue (name q)) in *.
  pose proof (localeCompare_sym y z). pose proof (localeCompare_sym z y).
  pose proof (localeCompare_sym x z). pose proof (localeCompare_sym z x).
  pose proof (localeCompare_sym x y). pose proof (localeCompare_sym y x).
  assert (localeCompare x y ≤ 0) by (apply (localeCompare_trans x z y); lia).
  assert (localeCompare y x ≤ 0) by (apply (localeCompare_trans y z x); lia).
  lia.
Qed.

Lemma sortPackages_sorted (l found : list Discovered) :
  (∀ p, In p l → named p) →
  JsArray.sortWith (comparePackages localeCompare) l = Normal found →
  StronglySorted (precedes localeCompare) found.
Proof.
  intros Hnamed Hsort. eapply StronglySorted_weaken; [intros a b; apply order_precedes|].
  eapply (sortWith_sorted _ (order localeCompare)); [| | |exact Hsort].
  - apply order_packages_sym.
  - apply order_packages_trans.
  - intros a b Ha _. by apply comparePackages_named, Hnamed.
Qed.

(** C9 (as amended). The outcome of [discoverAllPackages] is the same
    under every completion order of the listing and manifest requests.
    When every surviving package has a string for a name, it is
    fulfilled with the survivors sorted by language, in the precedence
    typescript, circom, solidity, noir, rust (any other language would
    rank last, at 99), and by name under [localeCompare] within a
    language; packages of one language whose names compare equal keep
    the order of the directory listing.  The set of survivors determines
    the sequence when no two distinct survivors of one language have
    names that compare equal. *)
Theorem discovery_order (github : Github) :
  (∀ repoOrder dirOrder, completeOrders github repoOrder dirOrder →
     discoverAllPackagesIn github localeCompare repoOrder dirOrder
     = Some (discoverAllPackages github localeCompare))
  ∧ (∀ p : Discovered, languageRank p = rankOf (language p) ∧ rankOf (language p) < 99)
  ∧ ((∀ p, In p (allSurvivors github) → named p) →
     ∃ found,
       discoverAllPackages github localeCompare = Fulfilled found
       ∧ StronglySorted (precedes localeCompare) found
       ∧ (∀ q, List.filter (tiesWith localeCompare q) found
               = List.filter (tiesWith localeCompare q) (allSurvivors github))
       ∧ ((∀ a b, In a found → In b found →
             precedes localeCompare a b → precedes localeCompare b a → a = b) →
          ∀ github', Permutation (allSurvivors github') (allSurvivors github) →
            discoverAllPackages github' localeCompare = Fulfilled found)).
Proof.
  split; [intros repoOrder dirOrder; apply discoverAllPackagesIn_complete|].
  split; [intros p; split; [apply languageRank_rankOf | by destruct (language p)]|].
  intros Hnamed.
  destruct (JsArray.sortWith (comparePackages localeCompare) (allSurvivors github))
    as [found | e] eqn:Hsort.
  2: { rewrite sortWith_returns with (order := order localeCompare) in Hsort; [done|].
       intros a b Ha _. by apply comparePackages_named, Hnamed. }
  assert (Hfound : discoverAllPackages github localeCompare = Fulfilled found)
    by (by rewrite discoverAllPackages_outcome, Hsort).
  exists found. split; [exact Hfound|].
  assert (Hsorted : StronglySorted (precedes localeCompare) found)
    by (by eapply sortPackages_sorted).
  split; [exact Hsorted|]. split.
  - intros q. eapply (sortWith_stable _ (order localeCompare)); [| |exact Hsort].
    + intros a b Ha _. by apply comparePackages_named, Hnamed.
    + intros a b. apply tiesWith_order.
  - intros Hanti github' Hperm.
    assert (Hnamed' : ∀ p, In p (allSurvivors github') → named p).
    { intros p Hp. apply Hnamed. by eapply Permutation_in. }
    destruct (JsArray.sortWith (comparePackages localeCompare) (allSurvivors github'))
      as [found' | e] eqn:Hsort'.
    2: { rewrite sortWith_returns with (order := order localeCompare) in Hsort'; [done|].
         intros a b Ha _. by apply comparePackages_named, Hnamed'. }
    rewrite discoverAllPackages_outcome, Hsort'. cbn [settle]. f_equal. symmetry.
    apply (sorted_unique_on (precedes localeCompare)); [done | done | |].
    + by eapply sortPackages_sorted.
    + apply sortWith_perm in Hsort, Hsort'. by rewrite Hsort, Hsort', Hperm.
Qed.

End DiscoveryOrder.

(** *** Code-unit order as an instance of the name comparison *)

Lemma compareCodeUnits_le (a b : string) :
  JsString.compareCodeUnits a b ≤ 0 ↔ String.le a b.
Proof.
  unfold JsString.compareCodeUnits, String.le, String.leb.
  destruct (String.compare a b); cbn; split; (done || lia).
Qed.

Lemma compareCodeUnits_sym (a b : string) :
  JsString.compareCodeUnits a b < 0 ↔ 0 < JsString.compareCodeUnits b a.
Proof.
  unfold JsString.compareCodeUnits. rewrite (String.compare_antisym b a).
  destruct (String.compare a b); cbn; lia.
Qed.

Lemma compareCodeUnits_trans (a b c : string) :
  JsString.compareCodeUnits a b ≤ 0 → JsString.compareCodeUnits b c ≤ 0 →
  JsString.compareCodeUnits a c ≤ 0.
Proof. rewrite !compareCodeUnits_le. apply transitivity. Qed.

Lemma discovery_order_witness :
  ∃ found,
    discoverAllPackages partialFailures JsString.compareCodeUnits = Fulfilled found
    ∧ StronglySorted (precedes JsString.compareCodeUnits) found
    ∧ map sortKey found = [(typescript, "@zk-kit/lean-imt"); (solidity, "@zk-kit/lean-imt.sol");
                           (rust, "zk-kit-lean-imt")].
Proof.
  destruct (discovery_order JsString.compareCodeUnits compareCodeUnits_sym
              compareCodeUnits_trans partialFailures)
    as (_ & _ & Hnamed).
  destruct Hnamed as (found & Hfound & Hsorted & _).
  { intros p Hp. vm_compute in Hp.
    destruct Hp as [<- | [<- | [<- | []]]]; by eexists. }
  exists found. split; [exact Hfound|]. split; [exact Hsorted|].
  vm_compute in Hfound. injection Hfound as <-. reflexivity.
Defined.

(** C9, as stated, fails: the noir directories [a-b] and [a_b] are
    both named [a_b], so the comparator calls them equal and the sort
    leaves them as listed.  The same two survivors come out in either
    order, depending on the listing. *)
Lemma discovery_order_follows_listing :
  Permutation (allSurvivors (noirListing ["a-b"; "a_b"]))
    (allSurvivors (noirListing ["a_b"; "a-b"]))
  ∧ (∃ found,
       discoverAllPackages (noirListing ["a-b"; "a_b"]) JsString.compareCodeUnits
       = Fulfilled found
       ∧ map name found = [Str "a_b"; Str "a_b"]
       ∧ map dirName found = ["a-b"; "a_b"])
  ∧ (∃ found,
       discoverAllPackages (noirListing ["a_b"; "a-b"]) JsString.compareCodeUnits
       = Fulfilled found
       ∧ map name found = [Str "a_b"; Str "a_b"]
       ∧ map dirName found = ["a_b"; "a-b"]).
Proof.
  split; [|split].
  - vm_compute. apply perm_swap.
  - eexists. split; [vm_compute; reflexivity|]. split; reflexivity.
  - eexists. split; [vm_compute; reflexivity|]. split; reflexivity.
Qed.

(** ** Runs of the test suite *)

(** "sorts by language order then name" *)
Example discovery_sorts_by_language_then_name :
  let github := {|
    fetchDirectoryListing slug _ :=
      if String.eqb slug "zk-kit/zk-kit" then Fulfilled ["poseidon-lite"; "lean-imt"]
      else if String.eqb slug "zk-kit/zk-kit.rust" then Fulfilled ["lean-imt"]
      else Fulfilled [];
    fetchManifestInfo _ _ _ _ _ :=
      Fulfilled {| manifestDescription := EmptyString; manifestVersion := None;
                   manifestDependencies := Some [] |}
  |} in
  (found ← discoverAllPackages github JsString.compareCodeUnits;
   Fulfilled (map (λ p, (language p, name p)) found))
  = Fulfilled [(typescript, Str "@zk-kit/lean-imt"); (typescript, Str "@zk-kit/poseidon-lite");
               (rust, Str "zk-kit-lean-imt")].
Proof. vm_compute. reflexivity. Qed.

(** "survives individual package manifest failures within a repo" *)
Example discovery_survives_manifest_failure :
  let github := {|
    fetchDirectoryListing slug _ :=
      if String.eqb slug "zk-kit/zk-kit" then Fulfilled ["lean-imt"; "poseidon-lite"; "imt"]
      else Fulfilled [];
    fetchManifestInfo _ _ _ dir _ :=
      if String.eqb dir "poseidon-lite" then Rejected "Manifest fetch timeout"
      else Fulfilled {| manifestDescription := "description"; manifestVersion := Some "1.0.0";
                        manifestDependencies := Some [] |}
  |} in
  (found ← discoverAllPackages github JsString.compareCodeUnits;
   Fulfilled (map name found))
  = Fulfilled [Str "@zk-kit/imt"; Str "@zk-kit/lean-imt"].
Proof. vm_compute. reflexivity. Qed.

(** "returns empty array if all repos fail" *)
Example discovery_all_repos_fail :
  discoverAllPackages
    {| fetchDirectoryListing _ _ := Rejected "All down";
       fetchManifestInfo _ _ _ _ _ := Rejected "unused" |}
    JsString.compareCodeUnits
  = Fulfilled [].
Proof. reflexivity. Qed.

(** A solidity directory named [constructor]: alone, or listed first,
    its name is never the receiver of [localeCompare] and the result
    holds a package whose name is not a string; listed after another
    directory, the comparator throws. *)
Example discovery_of_inherited_names :
  let github dirs := {|
    fetchDirectoryListing slug _ :=
      if String.eqb slug "zk-kit/zk-kit.solidity" then Fulfilled dirs
      else if String.eqb slug "zk-kit/zk-kit" then Fulfilled ["imt"]
      else Fulfilled [];
    fetchManifestInfo _ _ _ _ _ :=
      Fulfilled {| manifestDescription := EmptyString; manifestVersion := None;
                   manifestDependencies := None |}
  |} in
  (found ← discoverAllPackages (github ["constructor"]) JsString.compareCodeUnits;
   Fulfilled (map (λ p, (name p, installCommand p)) found))
  = Fulfilled [(Str "@zk-kit/imt", "npm i @zk-kit/imt");
               (Inherited "constructor", "npm i function Object() { [native code] }")]
  ∧ (found ← discoverAllPackages (github ["constructor"; "imt"]) JsString.compareCodeUnits;
     Fulfilled (map name found))
    = Fulfilled [Str "@zk-kit/imt"; Str "@zk-kit/imt.sol"; Inherited "constructor"]
  ∧ discoverAllPackages (github ["imt"; "constructor"]) JsString.compareCodeUnits
    = Rejected NOT_A_FUNCTION
  ∧ discoverAllPackages (github ["toString"; "valueOf"]) JsString.compareCodeUnits
    = Rejected NOT_A_FUNCTION.
Proof. vm_compute. done. Qed.

(** "shows dependents for a foundational package" *)
Example reverse_dependencies_of_poseidon_lite :
  getReverseDependencies JsString.compareCodeUnits
    [Fixture.makePackage "@zk-kit/poseidon-lite" "poseidon-lite" typescript cryptography
       "Poseidon" [];
     Fixture.makePackage "@zk-kit/lean-imt" "lean-imt" typescript merkle_trees
       "Lean IMT" ["poseidon-lite"];
     Fixture.makePackage "@zk-kit/eddsa" "eddsa" typescript cryptography
       "EdDSA" ["poseidon-lite"]]
    "poseidon-lite"
  = "# Dependency Info: poseidon-lite" +:+ nl +:+ nl
    +:+ "**Available in:** typescript" +:+ nl +:+ nl
    +:+ "## Depended On By" +:+ nl +:+ nl
    +:+ "- **eddsa** (typescript)" +:+ nl
    +:+ "- **lean-imt** (typescript)" +:+ nl +:+ nl
    +:+ "**2 package(s)** depend on poseidon-lite." +:+ nl.
Proof. vm_compute. reflexivity. Qed.

(** "multi-term suggest matches each term independently" and "requires
    ALL terms to match" *)
Example suggest_terms :
  map name (suggest Fixture.SYNTHETIC_PACKAGES "lean imt" 5)
  = ["@zk-kit/lean-imt"; "@zk-kit/lean-imt.sol"; "zk-kit-lean-imt"]
  ∧ suggest Fixture.SYNTHETIC_PACKAGES "lean nonexistent" 5 = [].
Proof. split; vm_compute; reflexivity. Qed.

(** "multi-word query matches each term independently", "ranks name
    matches higher than description matches" *)
Example search_examples :
  map name (search Fixture.SYNTHETIC_PACKAGES (Some "lean merkle") None None)
  = ["@zk-kit/lean-imt"]
  ∧ map name (search Fixture.SYNTHETIC_PACKAGES (Some "ecdh") None None) = ["@zk-kit/ecdh"]
  ∧ map name (search Fixture.SYNTHETIC_PACKAGES (Some "lean") (Some rust) None)
    = ["zk-kit-lean-imt"]
  ∧ search Fixture.SYNTHETIC_PACKAGES (Some "lean nonexistent") None None = [].
Proof. repeat split; vm_compute; reflexivity. Qed.

(** The coverage matrix of the test registry, with a stand-in for the
    rendered percentage. *)
Example coverage_of_test_registry :
  getCrossLanguageCoverage (λ _ _, "50") Fixture.SYNTHETIC_PACKAGES
  = "# Cross-Language Coverage Matrix" +:+ nl +:+ nl
    +:+ "| Concept | rust | solidity | typescript |" +:+ nl
    +:+ "|---------|---|---|---|" +:+ nl
    +:+ "| ecdh | - | - | yes |" +:+ nl
    +:+ "| excubiae | - | yes | - |" +:+ nl
    +:+ "| lean-imt | yes | yes | yes |" +:+ nl
    +:+ "| poseidon-lite | - | - | yes |" +:+ nl +:+ nl
    +:+ "**4 concepts** across **3 languages** - **50% coverage** (6/12 slots filled)" +:+ nl
    +:+ nl +:+ "## Multi-Language Concepts" +:+ nl
    +:+ "- **lean-imt**: typescript, solidity, rust" +:+ nl
    +:+ nl +:+ "## Single-Language Only (potential gaps)" +:+ nl
    +:+ "- **ecdh**: typescript only" +:+ nl
    +:+ "- **excubiae**: solidity only" +:+ nl
    +:+ "- **poseidon-lite**: typescript only" +:+ nl.
Proof. vm_compute. reflexivity. Qed.

(** "all packages independent when no zkKitDependencies" *)
Example graph_of_test_registry :
  getDependencyGraph Fixture.SYNTHETIC_PACKAGES
  = "# ZK-Kit Internal Dependency Graph" +:+ nl +:+ nl
    +:+ "**4 concepts**, **0 internal dependencies**" +:+ nl +:+ nl
    +:+ "## Independent Packages" +:+ nl +:+ nl
    +:+ "No internal ZK-Kit dependencies:" +:+ nl +:+ nl
    +:+ "- **ecdh** (typescript)" +:+ nl
    +:+ "- **excubiae** (solidity)" +:+ nl
    +:+ "- **lean-imt** (typescript, solidity, rust)" +:+ nl
    +:+ "- **poseidon-lite** (typescript)" +:+ nl.
Proof. vm_compute. reflexivity. Qed.

(** ** The cache *)

Section CacheFacts.
Import Cache.
Context {K : Type} `{Countable K} {V : Type}.
Implicit Types (c : TTLCache K V) (k : K) (v : V) (e : CacheEntry V).

Lemma expired_false (now : Z) e : expired now e = false ↔ now ≤ expiresAt e.
Proof. unfold expired. rewrite Z.ltb_ge. done. Qed.

Lemma sweep_lookup (now : Z) (m : gmap K (CacheEntry V)) k e :
  sweep now m !! k = Some e ↔ m !! k = Some e ∧ now ≤ expiresAt e.
Proof. unfold sweep. rewrite map_lookup_filter_Some. cbn. by rewrite expired_false. Qed.

Lemma sweep_lookup_None (now : Z) (m : gmap K (CacheEntry V)) k :
  sweep now m !! k = None ↔ ∀ e, m !! k = Some e → expiresAt e < now.
Proof.
  unfold sweep. rewrite map_lookup_filter_None. cbn. split.
  - intros [Hn|Hx] e He; [congruence|].
    specialize (Hx e He). apply not_false_iff_true in Hx.
    unfold expired in Hx. by apply Z.ltb_lt.
  - intros Hx. destruct (m !! k) as [e|] eqn:He; [right|by left].
    intros e' [= <-]. specialize (Hx e eq_refl).
    unfold expired. apply not_false_iff_true. by apply Z.ltb_lt.
Qed.

Lemma get_result (now : Z) k c :
  (get now k c).1 =
  match store c !! k with
  | Some e => if expired now e then None else Some (value e)
  | None => None
  end.
Proof. unfold get. destruct (store c !! k) as [e|]; [|done]. by destruct (expired now e). Qed.

(** X1.  What was stored under a key is read back until the clock
    passes the time of the store plus the time to live, and not after;
    storing again under the key restarts the time to live. *)
Theorem cache_get_after_set (now later : Z) k v c :
  (get later k (set now k v c)).1
  = (if decide (later ≤ now + ttlMs c) then Some v else None)
  ∧ ∀ earlier v0,
      (get later k (set now k v (set earlier k v0 c))).1
      = (if decide (later ≤ now + ttlMs c) then Some v else None).
Proof.
  assert (Hone : ∀ c', (get later k (set now k v c')).1
                       = if decide (later ≤ now + ttlMs c') then Some v else None).
  { intros c'. rewrite get_result. cbn. rewrite lookup_insert_eq.
    unfold expired. cbn. destruct (decide _) as [Hle|Hgt].
    - by apply Z.ltb_ge in Hle as ->.
    - apply Z.nle_gt, Z.ltb_lt in Hgt. by rewrite Hgt. }
  split; [apply Hone|]. intros earlier v0. by rewrite Hone.
Qed.

Lemma get_cases (now : Z) k c :
  ttlMs (get now k c).2 = ttlMs c
  ∧ (∀ v, (get now k c).1 = Some v
          ↔ ∃ e, store c !! k = Some e ∧ value e = v ∧ now ≤ expiresAt e)
  ∧ (is_Some (get now k c).1 → (get now k c).2 = c)
  ∧ ((get now k c).1 = None → store (get now k c).2 !! k = None)
  ∧ (∀ k', k' ≠ k → store (get now k c).2 !! k' = store c !! k').
Proof.
  unfold get. destruct (store c !! k) as [e|] eqn:He; cbn.
  - destruct (expired now e) eqn:Hx; cbn.
    + split; [done|]. split; [|split; [by intros [? ?]|split]].
      * intros v. split; [done|]. intros (e' & [= <-] & _ & Hle).
        apply expired_false in Hle. congruence.
      * intros _. apply lookup_delete_eq.
      * intros k' Hne. by apply lookup_delete_ne.
    + apply expired_false in Hx. split; [done|]. split; [|split; [done|split; [done|done]]].
      intros v. split.
      * intros [= <-]. by exists e.
      * by intros (e' & [= <-] & <- & _).
  - split; [done|]. split; [|split; [done|split; [done|done]]].
    intros v. split; [done|]. by intros (e' & ? & _).
Qed.

(** X2.  [get] answers with the stored value exactly when the entry
    has not expired; a hit leaves the cache as it is, a miss removes
    the entry of that key and touches no other key. *)
Theorem cache_get_evicts (now : Z) k c :
  let r := (get now k c).1 in
  let c' := (get now k c).2 in
  ttlMs c' = ttlMs c
  ∧ (∀ v, r = Some v ↔ ∃ e, store c !! k = Some e ∧ value e = v ∧ now ≤ expiresAt e)
  ∧ (is_Some r → c' = c)
  ∧ (r = None → store c' !! k = None)
  ∧ (∀ k', k' ≠ k → store c' !! k' = store c !! k').
Proof. cbv zeta. apply get_cases. Qed.

(** X3.  After [set], and after reading [size], no entry that had
    expired by then is left in the store, and every entry that had not
    is still there; [size] is the number of keys [has] answers for. *)
Theorem cache_sweep (now : Z) c :
  (∀ k v k' e, k' ≠ k →
     store (set now k v c) !! k' = Some e ↔ store c !! k' = Some e ∧ now ≤ expiresAt e)
  ∧ (∀ k e, store (size now c).2 !! k = Some e ↔ store c !! k = Some e ∧ now ≤ expiresAt e)
  ∧ (size now c).1 = base.size (filter (λ k, (has now k c).1 = true) (dom (store c)))
  ∧ (∀ k, (has now k (size now c).2).1 = (has now k c).1).
Proof.
  split; [|split; [|split]].
  - intros k v k' e Hne. cbn. rewrite lookup_insert_ne by done. apply sweep_lookup.
  - intros k e. cbn. apply sweep_lookup.
  - cbn. rewrite <- size_dom. f_equal. apply set_eq. intros k.
    rewrite elem_of_filter, !elem_of_dom. unfold has.
    pose proof (get_result now k c) as Hr.
    destruct (get now k c) as [r c'] eqn:Hg. cbn in Hr. cbn.
    split.
    + intros [e He]. apply sweep_lookup in He as [He Hle].
      rewrite He in Hr. apply expired_false in Hle. rewrite Hle in Hr.
      subst r. by rewrite He.
    + intros [Ht [e He]]. rewrite He in Hr. destruct (expired now e) eqn:Hx.
      * by subst r.
      * exists e. apply sweep_lookup. by apply expired_false in Hx.
  - intros k. unfold has.
    pose proof (get_result now k c) as Hr.
    pose proof (get_result now k (size now c).2) as Hr'.
    destruct (get now k c) as [r c1]. destruct (get now k (size now c).2) as [r' c2].
    cbn in *. subst r r'.
    destruct (store c !! k) as [e|] eqn:He.
    + destruct (expired now e) eqn:Hx.
      * assert (sweep now (store c) !! k = None) as ->; [|done].
        apply sweep_lookup_None. intros e' He'. rewrite He in He'. injection He' as <-.
        unfold expired in Hx. by apply Z.ltb_lt.
      * assert (sweep now (store c) !! k = Some e) as ->.
        { apply sweep_lookup. by apply expired_false in Hx. }
        by rewrite Hx.
    + assert (sweep now (store c) !! k = None) as ->; [|done].
      apply sweep_lookup_None. intros e'. by rewrite He.
Qed.

Lemma swept_result (now later : Z) k (m : gmap K (CacheEntry V)) :
  now ≤ later →
  match sweep now m !! k with
  | Some e => if expired later e then None else Some (value e)
  | None => None
  end
  = match m !! k with
    | Some e => if expired later e then None else Some (value e)
    | None => None
    end.
Proof.
  intros Hle. destruct (m !! k) as [e|] eqn:He.
  - destruct (decide (now ≤ expiresAt e)) as [Hlive|Hdead].
    + assert (sweep now m !! k = Some e) as ->; [|done]. by apply sweep_lookup.
    + assert (sweep now m !! k = None) as ->.
      { apply sweep_lookup_None. intros e'. rewrite He. intros [= <-]. lia. }
      assert (expired later e = true) as ->; [|done].
      unfold expired. apply Z.ltb_lt. lia.
  - assert (sweep now m !! k = None) as ->; [|done].
    apply sweep_lookup_None. intros e'. by rewrite He.
Qed.

Lemma get_set_other (now later : Z) k k' v c :
  now ≤ later → k' ≠ k → (get later k' (set now k v c)).1 = (get later k' c).1.
Proof.
  intros Hle Hne. rewrite !get_result. cbn. rewrite lookup_insert_ne by done.
  by apply swept_result.
Qed.

Lemma get_get_other (now later : Z) k k' c :
  k' ≠ k → (get later k' (get now k c).2).1 = (get later k' c).1.
Proof.
  intros Hne. rewrite !get_result. unfold get at 1.
  destruct (store c !! k) as [e|]; [|done].
  destruct (expired now e); [|done]. cbn. by rewrite lookup_delete_ne.
Qed.

(** X4.  While the clock does not run backwards, the sweeping done by
    [set] and by [size] is not observable: a later [get] of another
    key answers as it would have without them. *)
Theorem cache_sweep_unobservable (now later : Z) k k' v c :
  now ≤ later → k' ≠ k →
  (get later k' (set now k v c)).1 = (get later k' c).1
  ∧ (get later k' (size now c).2).1 = (get later k' c).1.
Proof.
  intros Hle Hne. split; [by apply get_set_other|].
  rewrite !get_result. cbn. by apply swept_result.
Qed.

End CacheFacts.

Lemma cache_sweep_unobservable_witness :
  (Cache.get 4000 "a" (Cache.set 3000 "b" 1%nat (Cache.set 0 "a" 2%nat (Cache.new 5000)))).1
  = (Cache.get 4000 "a" (Cache.set 0 "a" 2%nat (Cache.new 5000))).1
  ∧ (Cache.get 4000 "a" (Cache.size 3000 (Cache.set 0 "a" 2%nat (Cache.new 5000))).2).1
    = (Cache.get 4000 "a" (Cache.set 0 "a" 2%nat (Cache.new 5000))).1.
Proof. apply cache_sweep_unobservable; [lia | discriminate]. Defined.

(** ** Suggestions and search, for every query *)

Lemma filter_sublist {A : Type} (P : A → bool) (l : list A) : sublist (List.filter P l) l.
Proof.
  induction l as [|x l IH]; [constructor|]. cbn.
  destruct (P x); by constructor.
Qed.

(** X5.  [suggest] returns at most [limit] packages, in registry order,
    each holding every term of the query in its lower-cased name or
    directory name; a query without terms returns the first [limit]
    packages of the registry. *)
Theorem suggest_sound (packages : list Package) (query : string) (limit : nat) :
  let found := suggest packages query limit in
  (length found ≤ limit)%nat
  ∧ sublist found packages
  ∧ (∀ p term, In p found → In term (terms query) →
       includes (toLowerCase (name p)) term = true
       ∨ includes (toLowerCase (dirName p)) term = true)
  ∧ (∀ p, In p packages →
       (∀ term, In term (terms query) →
          includes (toLowerCase (name p)) term = true
          ∨ includes (toLowerCase (dirName p)) term = true) →
       (length found < limit)%nat → In p found)
  ∧ (terms query = [] → found = take limit packages).
Proof.
  cbv zeta. unfold suggest.
  set (matching := List.filter _ packages).
  assert (Hm : ∀ p, In p matching ↔
            In p packages ∧ ∀ term, In term (terms query) →
              includes (toLowerCase (name p)) term = true
              ∨ includes (toLowerCase (dirName p)) term = true).
  { intros p. unfold matching. rewrite filter_In, forallb_forall.
    split; intros [Hin Hall]; (split; [done|]); intros t Ht; specialize (Hall t Ht).
    - by apply orb_true_iff.
    - by apply orb_true_iff. }
  split; [|split; [|split; [|split]]].
  - rewrite length_take. lia.
  - etrans; [apply sublist_take | apply filter_sublist].
  - intros p term Hin Hterm.
    assert (In p matching) as Hp.
    { apply list_elem_of_In. eapply elem_of_subseteq; [|by apply list_elem_of_In].
      apply sublist_subseteq, sublist_take. }
    by apply Hm in Hp as [_ Hp]; apply Hp.
  - intros p Hin Hall Hlen. rewrite length_take in Hlen.
    rewrite take_ge by lia. apply Hm. by split.
  - intros Hnil. subst matching. rewrite Hnil. cbn. by rewrite filter_all.
Qed.

Lemma matchesAll_suggested (ts : list string) (p : Package) :
  forallb (λ term, includes (toLowerCase (name p)) term
                   || includes (toLowerCase (dirName p)) term) ts = true →
  matchesAll ts p = true.
Proof.
  unfold matchesAll. rewrite !forallb_forall. intros Hall t Ht.
  specialize (Hall t Ht). unfold termMatches.
  apply orb_true_iff in Hall as [-> | ->]; [done|]. by rewrite orb_true_r.
Qed.

(** X6.  Whatever [suggest] offers for a query with at least one term,
    [search] with the same query and no filter returns as well. *)
Theorem suggest_searchable (packages : list Package) (query : string) (limit : nat)
    (p : Package) :
  terms query ≠ [] →
  In p (suggest packages query limit) → In p (search packages (Some query) None None).
Proof.
  intros Hts Hin. rewrite search_with_terms by done.
  apply sort_In. unfold survivors. rewrite filter_all.
  unfold suggest in Hin.
  assert (In p (List.filter
                  (λ p, forallb (λ term, includes (toLowerCase (name p)) term
                                         || includes (toLowerCase (dirName p)) term)
                          (terms query)) packages)) as Hp.
  { apply list_elem_of_In. eapply elem_of_subseteq; [|by apply list_elem_of_In].
    apply sublist_subseteq, sublist_take. }
  apply filter_In in Hp as [Hpk Hall]. apply filter_In. split; [done|].
  by apply matchesAll_suggested.
Qed.

Lemma suggest_searchable_witness :
  In Fixture.leanImtRust (search Fixture.SYNTHETIC_PACKAGES (Some "lean imt") None None).
Proof.
  apply (suggest_searchable Fixture.SYNTHETIC_PACKAGES "lean imt" 5 Fixture.leanImtRust).
  - vm_compute. discriminate.
  - vm_compute. right. right. left. reflexivity.
Defined.

(** X7.  Whatever the query and the filters, [search] returns packages
    of the registry, each at most as often as the registry holds it,
    and only packages of the requested language and category. *)
Theorem search_within_registry (packages : list Package) (query : option string)
    (lang : option Language) (cat : option Category) :
  let found := search packages query lang cat in
  found ⊆+ packages
  ∧ (length found ≤ length packages)%nat
  ∧ ∀ p, In p found →
      In p packages
      ∧ (∀ l, lang = Some l → language p = l)
      ∧ (∀ c, cat = Some c → category p = c).
Proof.
  cbv zeta.
  assert (Hsurv : survivors packages lang cat ⊆+ packages).
  { unfold survivors. apply sublist_submseteq, filter_sublist. }
  assert (Hfound : search packages query lang cat ⊆+ survivors packages lang cat).
  { destruct query as [q|]; [|by rewrite search_no_query].
    destruct (truthy q) eqn:Hq.
    - destruct (terms q) as [|t ts] eqn:Hts.
      + rewrite search_without_terms; [apply submseteq_nil_l| |done].
        by apply truthy_iff.
      + rewrite search_with_terms by (rewrite Hts; discriminate).
        etrans; [|apply sublist_submseteq, filter_sublist].
        apply Permutation_submseteq, sort_perm.
    - replace (search packages (Some q) lang cat) with (search packages None lang cat).
      + by rewrite search_no_query.
      + unfold search. by rewrite Hq. }
  assert (Hsub : search packages query lang cat ⊆+ packages) by (by etrans).
  split; [done|]. split; [by apply submseteq_length|].
  intros p Hin.
  assert (In p (survivors packages lang cat)) as Hp.
  { apply list_elem_of_In. eapply elem_of_submseteq; [by apply list_elem_of_In|done]. }
  unfold survivors in Hp. apply filter_In in Hp as [Hpk Hf].
  apply andb_true_iff in Hf as [Hl Hc]. split; [done|]. split.
  - intros l ->. by destruct (language p), l.
  - intros c ->. by destruct (category p), c.
Qed.

Lemma forallb_Permutation {A : Type} (f : A → bool) (l1 l2 : list A) :
  Permutation l1 l2 → forallb f l1 = forallb f l2.
Proof.
  induction 1 as [|x l1 l2 _ IH|x y l|l1 l2 l3 _ IH1 _ IH2]; cbn.
  - done.
  - by rewrite IH.
  - by destruct (f x), (f y).
  - by rewrite IH1.
Qed.

Lemma totalScore_Permutation (p : Package) (l1 l2 : list string) :
  Permutation l1 l2 → totalScore l1 p = totalScore l2 p.
Proof.
  unfold totalScore.
  induction 1 as [|x l1 l2 _ IH|x y l|l1 l2 l3 _ IH1 _ IH2]; cbn.
  - done.
  - by rewrite IH.
  - lia.
  - by rewrite IH1.
Qed.

(** X8.  The answer of [search] depends on the query only through the
    bag of its terms: two queries with the same terms, in whatever
    order, find the same packages in the same order.  Upper-casing a
    query of ASCII characters does not change its terms, nor then what
    it finds. *)
Theorem search_word_order (packages : list Package) (q1 q2 : string)
    (lang : option Language) (cat : option Category) :
  terms q1 ≠ [] → Permutation (terms q1) (terms q2) →
  search packages (Some q1) lang cat = search packages (Some q2) lang cat
  ∧ (isAscii q1 = true →
     search packages (Some (toUpperCase q1)) lang cat
     = search packages (Some q1) lang cat).
Proof.
  intros Hne Hperm.
  assert (Hne2 : terms q2 ≠ []).
  { intros Hnil. rewrite Hnil in Hperm. symmetry in Hperm. by apply Permutation_nil in Hperm. }
  split; [|intros Hascii;
           assert (Hup : terms (toUpperCase q1) = terms q1)
             by (unfold terms; by rewrite toLowerCase_toUpperCase)].
  - rewrite !search_with_terms by done.
    assert (Hf : List.filter (matchesAll (terms q1)) (survivors packages lang cat)
                 = List.filter (matchesAll (terms q2)) (survivors packages lang cat)).
    { apply List.filter_ext. intros p. by apply forallb_Permutation. }
    rewrite Hf. apply sort_ext_in. intros a b _ _.
    by rewrite !(totalScore_Permutation _ _ _ Hperm).
  - rewrite !search_with_terms by (by rewrite ?Hup). by rewrite Hup.
Qed.

Lemma search_word_order_witness :
  search Fixture.SYNTHETIC_PACKAGES (Some "lean imt") None None
  = search Fixture.SYNTHETIC_PACKAGES (Some "IMT  lean") None None
  ∧ search Fixture.SYNTHETIC_PACKAGES (Some (toUpperCase "lean imt")) None None
    = search Fixture.SYNTHETIC_PACKAGES (Some "lean imt") None None.
Proof.
  destruct (search_word_order Fixture.SYNTHETIC_PACKAGES "lean imt" "IMT  lean" None None)
    as [Horder Hcase].
  - vm_compute. discriminate.
  - vm_compute. apply perm_swap.
  - split; [exact Horder | apply Hcase; reflexivity].
Defined.

Lemma filter_sublist_impl {A : Type} (P Q : A → bool) (l : list A) :
  (∀ x, P x = true → Q x = true) → sublist (List.filter P l) (List.filter Q l).
Proof.
  intros Himpl. induction l as [|x l IH]; [constructor|]. cbn.
  destruct (P x) eqn:HP.
  - rewrite (Himpl x HP). by constructor.
  - destruct (Q x); [by constructor|done].
Qed.

(** X9.  More words narrow a search: when every term of one query is
    a term of another, whatever the second finds the first finds too,
    at least as often, under the same filters. *)
Theorem search_narrows (packages : list Package) (q q' : string)
    (lang : option Language) (cat : option Category) :
  terms q ≠ [] → (∀ t, In t (terms q) → In t (terms q')) →
  search packages (Some q') lang cat ⊆+ search packages (Some q) lang cat
  ∧ (length (search packages (Some q') lang cat)
     ≤ length (search packages (Some q) lang cat))%nat.
Proof.
  intros Hne Hsub.
  assert (Hne' : terms q' ≠ []).
  { destruct (terms q) as [|t ts]; [done|]. intros Hnil.
    specialize (Hsub t (or_introl eq_refl)). by rewrite Hnil in Hsub. }
  assert (Hms : search packages (Some q') lang cat ⊆+ search packages (Some q) lang cat).
  { rewrite !search_with_terms by done.
    rewrite !(Permutation_submseteq _ _ (sort_perm _ _)).
    etrans; [|apply Permutation_submseteq; symmetry; apply sort_perm].
    apply sublist_submseteq, filter_sublist_impl.
    intros p. unfold matchesAll. rewrite !forallb_forall. intros Hall t Ht.
    by apply Hall, Hsub. }
  split; [done|]. by apply submseteq_length.
Qed.

Lemma search_narrows_witness :
  search Fixture.SYNTHETIC_PACKAGES (Some "lean imt rust") None None
  ⊆+ search Fixture.SYNTHETIC_PACKAGES (Some "lean") None None
  ∧ (length (search Fixture.SYNTHETIC_PACKAGES (Some "lean imt rust") None None)
     ≤ length (search Fixture.SYNTHETIC_PACKAGES (Some "lean") None None))%nat.
Proof.
  apply search_narrows.
  - vm_compute. discriminate.
  - vm_compute. intros t [<-|[]]. left. reflexivity.
Defined.

(** ** compare, getEcosystemOverview, getRepoForLanguage *)

Lemma unique_In (seen xs : list string) (y : string) :
  In y (JsArray.unique seen xs) ↔ In y xs ∧ ¬ In y seen.
Proof.
  revert seen. induction xs as [|x xs IH]; intros seen; cbn; [tauto|].
  destruct (existsb (String.eqb x) seen) eqn:Hx.
  - rewrite IH. apply existsb_exists in Hx as (z & Hz & Heq).
    apply String.eqb_eq in Heq as <-. split; [tauto|].
    intros [[<-|Hy] Hn]; tauto.
  - cbn. rewrite IH. cbn.
    assert (¬ In x seen) as Hnx.
    { intros Hin. apply not_true_iff_false in Hx. apply Hx.
      apply existsb_exists. exists x. by rewrite String.eqb_refl. }
    split.
    + intros [<-|[Hy Hn]]; [tauto|]. tauto.
    + intros [[<-|Hy] Hn]; [tauto|].
      destruct (string_dec x y) as [<-|Hne]; [tauto|]. right. tauto.
Qed.

Lemma setOf_In (xs : list string) (y : string) : In y (JsArray.setOf xs) ↔ In y xs.
Proof. unfold JsArray.setOf. rewrite unique_In. cbn. tauto. Qed.

Lemma unique_NoDup (seen xs : list string) : List.NoDup (JsArray.unique seen xs).
Proof.
  revert seen. induction xs as [|x xs IH]; intros seen; cbn; [constructor|].
  destruct (existsb (String.eqb x) seen); [apply IH|].
  constructor; [|apply IH]. rewrite unique_In. cbn. tauto.
Qed.

Lemma existsb_eqb_In (x : string) (l : list string) :
  existsb (String.eqb x) l = true ↔ In x l.
Proof.
  rewrite existsb_exists. split.
  - intros (y & Hy & Heq). by apply String.eqb_eq in Heq as ->.
  - intros Hin. exists x. by rewrite String.eqb_refl.
Qed.

Lemma unique_snoc (seen xs : list string) (x : string) :
  JsArray.unique seen (xs ++ [x])
  = if existsb (String.eqb x) seen || existsb (String.eqb x) xs
    then JsArray.unique seen xs else JsArray.unique seen xs ++ [x].
Proof.
  revert seen. induction xs as [|a xs IH]; intros seen; cbn.
  - rewrite orb_false_r. by destruct (existsb (String.eqb x) seen).
  - destruct (existsb (String.eqb a) seen) eqn:Ha.
    + rewrite IH. destruct (String.eqb x a) eqn:Hxa; [|done].
      apply String.eqb_eq in Hxa as ->. by rewrite Ha.
    + rewrite IH. cbn.
      by destruct (String.eqb x a), (existsb (String.eqb x) seen),
           (existsb (String.eqb x) xs).
Qed.

Lemma setOf_snoc (xs : list string) (x : string) :
  JsArray.setOf (xs ++ [x])
  = if JsArray.includes xs x then JsArray.setOf xs else JsArray.setOf xs ++ [x].
Proof. unfold JsArray.setOf, JsArray.includes. by rewrite unique_snoc. Qed.

Lemma lookupAll_fold (packages : list Package) (names : list string)
    (found : list Package) (notFound : list string) :
  foldl (lookupStep packages) (found, notFound) names
  = (found ++ omap (getByName packages) names,
     notFound ++ List.filter (λ n, negb (bool_decide (is_Some (getByName packages n)))) names).
Proof.
  revert found notFound. induction names as [|n names IH]; intros found notFound.
  - cbn. by rewrite !app_nil_r.
  - cbn [foldl omap list_omap List.filter].
    assert (Hstep : lookupStep packages (found, notFound) n
                    = match getByName packages n with
                      | Some pkg => (found ++ [pkg], notFound)
                      | None => (found, notFound ++ [n])
                      end) by done.
    rewrite Hstep. clear Hstep.
    destruct (getByName packages n) as [pkg|] eqn:Hn.
    + rewrite IH. rewrite bool_decide_eq_true_2 by done. cbn [negb].
      by rewrite <- app_assoc.
    + rewrite IH. rewrite bool_decide_eq_false_2 by (by intros [? ?]). cbn [negb].
      by rewrite <- app_assoc.
Qed.

Lemma append_head (c : ascii) (s t : string) :
  (∃ rest, s = String c rest) → ∃ rest, s +:+ t = String c rest.
Proof. intros [rest ->]. by exists (rest +:+ t). Qed.

Lemma foldl_head {A : Type} (c : ascii) (step : string → A → string) (init : string)
    (l : list A) :
  (∀ md x, (∃ rest, md = String c rest) → ∃ rest, step md x = String c rest) →
  (∃ rest, init = String c rest) → ∃ rest, foldl step init l = String c rest.
Proof.
  intros Hstep. revert init. induction l as [|x l IH]; intros init Hinit; [done|].
  cbn. apply IH. by apply Hstep.
Qed.

Lemma omap_nil_iff {A B : Type} (f : A → option B) (l : list A) :
  omap f l = [] ↔ ∀ x, In x l → f x = None.
Proof.
  induction l as [|x l IH]; cbn.
  - split; [by intros _ ? []|done].
  - destruct (f x) eqn:Hx.
    + split; [done|]. intros Hall. specialize (Hall x (or_introl eq_refl)). congruence.
    + rewrite IH. split.
      * intros Hall y [<-|Hy]; [done|by apply Hall].
      * intros Hall y Hy. apply Hall. by right.
Qed.

(** X10.  [compare] looks every name up with [getByName], keeping the
    order of the names: the ones that resolve make the columns, the
    others the "Not found" list.  It answers [No packages found for:]
    followed by the names exactly when no name resolves. *)
Theorem compare_not_found (packages : list Package) (names : list string) :
  lookupAll packages names
  = (omap (getByName packages) names,
     List.filter (λ n, negb (bool_decide (is_Some (getByName packages n)))) names)
  ∧ (length (lookupAll packages names).1 + length (lookupAll packages names).2
     = length names)%nat
  ∧ (compare packages names = "No packages found for: " +:+ join ", " names
     ↔ ∀ n, In n names → getByName packages n = None).
Proof.
  assert (Hl : lookupAll packages names
               = (omap (getByName packages) names,
                  List.filter (λ n, negb (bool_decide (is_Some (getByName packages n))))
                    names)).
  { unfold lookupAll. by rewrite lookupAll_fold. }
  split; [done|]. split.
  - rewrite Hl. cbn [fst snd]. clear Hl.
    induction names as [|n names IH]; [done|]. cbn [omap list_omap List.filter].
    destruct (getByName packages n) as [pkg|].
    + rewrite bool_decide_eq_true_2 by done. cbn [negb length]. cbn [omap] in IH. lia.
    + rewrite bool_decide_eq_false_2 by (by intros [? ?]). cbn [negb length].
      cbn [omap] in IH. lia.
  - unfold compare. rewrite Hl.
    destruct (omap (getByName packages) names) as [|f found] eqn:Hfound.
    + cbn [length Nat.eqb]. split; [|done]. intros _. by apply omap_nil_iff.
    + cbn [length Nat.eqb]. split.
      * intros Heq. exfalso.
        assert (Hbar : ∃ rest, "No packages found for: " +:+ join ", " names
                               = String "|" rest).
        { rewrite <- Heq.
          repeat first
            [ match goal with |- context [if ?b then _ else _] => destruct b end
            | apply foldl_head; [intros md x Hmd; by apply append_head|]
            | apply append_head ].
          all: by eexists. }
        destruct Hbar as [rest Hbar]. discriminate.
      * intros Hnone. apply omap_nil_iff in Hnone. congruence.
Qed.

(** X11.  The "Other language variants" of a comparison are the
    packages of the registry that share a cross-language id with a
    compared package and whose name is the name of no compared package;
    so no compared package is listed as a variant. *)
Theorem compare_variants (packages : list Package) (names : list string) (v : Package) :
  let found := (lookupAll packages names).1 in
  (In v (variantsOf packages found) ↔
   In v packages
   ∧ (∃ f, In f found ∧ crossLanguageId f = crossLanguageId v)
   ∧ ∀ f, In f found → name f ≠ name v)
  ∧ (In v (variantsOf packages found) → ¬ In v found)
  ∧ (∀ f, In f found → In f packages).
Proof.
  cbv zeta. set (found := (lookupAll packages names).1).
  assert (Hiff : In v (variantsOf packages found) ↔
                 In v packages
                 ∧ (∃ f, In f found ∧ crossLanguageId f = crossLanguageId v)
                 ∧ ∀ f, In f found → name f ≠ name v).
  { unfold variantsOf. rewrite filter_In, andb_true_iff, negb_true_iff.
    rewrite includes_In.
    assert (In (crossLanguageId v) (JsArray.setOf (map crossLanguageId found))
            ↔ ∃ f, In f found ∧ crossLanguageId f = crossLanguageId v) as ->.
    { rewrite <- includes_In. unfold JsArray.setOf.
      rewrite includes_In.
      rewrite unique_In, in_map_iff. split.
      - intros [(f & Heq & Hf) _]. by exists f.
      - intros (f & Hf & Heq). split; [by exists f|by intros []]. }
    assert (existsb (λ f, String.eqb (name f) (name v)) found = false
            ↔ ∀ f, In f found → name f ≠ name v) as ->; [|tauto].
    rewrite <- not_true_iff_false, existsb_exists. split.
    - intros Hno f Hf Heq. apply Hno. exists f. split; [done|]. by apply String.eqb_eq.
    - intros Hall (f & Hf & Heq). apply String.eqb_eq in Heq. by apply (Hall f). }
  split; [done|]. split.
  - intros Hv Hf. apply Hiff in Hv as (_ & _ & Hname). by apply (Hname v).
  - intros f Hf. subst found. unfold lookupAll in Hf. rewrite lookupAll_fold in Hf.
    cbn in Hf. apply list_elem_of_In, list_elem_of_omap in Hf as (n & _ & Hn).
    by apply getByName_sound in Hn as [? _].
Qed.

Lemma pushTo_map (k : string) (pkg : Package) (f : string → list Package)
    (keys : list string) :
  List.NoDup keys →
  pushTo k pkg (map (λ k', (k', f k')) keys)
  = map (λ k', (k', if String.eqb k' k then f k' ++ [pkg] else f k')) keys
    ++ (if JsArray.includes keys k then [] else [(k, [pkg])]).
Proof.
  unfold JsArray.includes.
  induction keys as [|a keys IH]; intros Hnd; [done|].
  apply List.NoDup_cons_iff in Hnd as [Ha Hnd]. cbn.
  destruct (String.eqb a k) eqn:Hak.
  - apply String.eqb_eq in Hak as ->. rewrite String.eqb_refl. cbn.
    rewrite app_nil_r. f_equal. apply map_ext_in. intros k' Hk'.
    destruct (String.eqb k' k) eqn:Hk; [|done].
    apply String.eqb_eq in Hk as ->. done.
  - rewrite IH by done. rewrite String.eqb_sym, Hak. done.
Qed.

Lemma pushTo_concat (k : string) (pkg : Package) (m : list (string * list Package)) :
  Permutation (concat (map snd (pushTo k pkg m))) (pkg :: concat (map snd m)).
Proof.
  induction m as [|[k' group] m IH]; cbn.
  - done.
  - destruct (String.eqb k' k); cbn.
    + rewrite <- app_assoc. cbn. symmetry. apply Permutation_middle.
    + rewrite IH. symmetry. apply Permutation_middle.
Qed.

Lemma groupBy_snoc (key : Package → string) (l : list Package) (pkg : Package) :
  groupBy key (l ++ [pkg]) = pushTo (key pkg) pkg (groupBy key l).
Proof. unfold groupBy. by rewrite foldl_app. Qed.

Lemma filter_snoc {A : Type} (P : A → bool) (l : list A) (x : A) :
  List.filter P (l ++ [x]) = List.filter P l ++ (if P x then [x] else []).
Proof. by rewrite List.filter_app. Qed.

Lemma filter_none_in {A : Type} (P : A → bool) (l : list A) :
  (∀ x, In x l → P x = false) → List.filter P l = [].
Proof.
  induction l as [|x l IH]; intros Hall; [done|]. cbn.
  rewrite (Hall x (or_introl eq_refl)). apply IH. intros y Hy. apply Hall. by right.
Qed.

Lemma groupBy_groups (key : Package → string) (packages : list Package) :
  groupBy key packages
  = map (λ k, (k, List.filter (λ p, String.eqb (key p) k) packages))
      (JsArray.setOf (map key packages)).
Proof.
  induction packages as [|pkg l IH] using rev_ind; [done|].
  rewrite groupBy_snoc, IH.
  rewrite (pushTo_map _ _ (λ k, List.filter (λ p, String.eqb (key p) k) l))
    by apply unique_NoDup.
  rewrite map_app. cbn [map]. rewrite setOf_snoc.
  assert (Hinc : JsArray.includes (JsArray.setOf (map key l)) (key pkg)
                 = JsArray.includes (map key l) (key pkg)).
  { apply eq_true_iff_eq. rewrite !includes_In. apply setOf_In. }
  rewrite Hinc.
  assert (Hmap : ∀ keys,
            map (λ k', (k', if String.eqb k' (key pkg)
                            then List.filter (λ p, String.eqb (key p) k') l ++ [pkg]
                            else List.filter (λ p, String.eqb (key p) k') l)) keys
            = map (λ k, (k, List.filter (λ p, String.eqb (key p) k) (l ++ [pkg]))) keys).
  { intros keys. apply map_ext. intros k. rewrite filter_snoc.
    rewrite (String.eqb_sym k). destruct (String.eqb (key pkg) k); [done|].
    by rewrite app_nil_r. }
  rewrite Hmap.
  destruct (JsArray.includes (map key l) (key pkg)) eqn:Hin.
  - by rewrite app_nil_r.
  - rewrite map_app. cbn [map]. do 2 f_equal.
    rewrite filter_snoc, String.eqb_refl.
    assert (List.filter (λ p, String.eqb (key p) (key pkg)) l = []) as ->; [|done].
    apply not_true_iff_false in Hin. rewrite includes_In in Hin.
    apply filter_none_in. intros q Hq. apply not_true_iff_false.
    intros Heq. apply String.eqb_eq in Heq. apply Hin, in_map_iff. by exists q.
Qed.

(** X12.  The grouping loops of [getEcosystemOverview] split the
    packages by key: the keys come in the order of their first
    occurrence, without repetition; the group of a key holds the
    packages with that key, all of them, in registry order; no group
    is empty, and together the groups hold every package exactly
    once. *)
Theorem groupBy_partition (key : Package → string) (packages : list Package) :
  groupBy key packages
  = map (λ k, (k, List.filter (λ p, String.eqb (key p) k) packages))
      (JsArray.setOf (map key packages))
  ∧ List.NoDup (map fst (groupBy key packages))
  ∧ (∀ k group, In (k, group) (groupBy key packages) →
       group ≠ [] ∧ ∀ p, In p group ↔ In p packages ∧ key p = k)
  ∧ Permutation (concat (map snd (groupBy key packages))) packages
  ∧ length (groupBy key packages) = length (JsArray.setOf (map key packages)).
Proof.
  split; [apply groupBy_groups|]. split; [|split; [|split]].
  - rewrite groupBy_groups, map_map. cbn. rewrite map_id. apply unique_NoDup.
  - intros k group Hin. rewrite groupBy_groups in Hin.
    apply in_map_iff in Hin as (k' & [= <- <-] & Hk).
    apply setOf_In, in_map_iff in Hk as (p & Hp & Hin).
    split.
    + intros Hnil.
      assert (In p (List.filter (λ q, String.eqb (key q) k') packages)) as Hf.
      { apply filter_In. split; [done|]. by apply String.eqb_eq. }
      by rewrite Hnil in Hf.
    + intros q. rewrite filter_In. by rewrite String.eqb_eq.
  - induction packages as [|pkg l IH] using rev_ind; [done|].
    rewrite groupBy_snoc, pushTo_concat, IH. apply Permutation_cons_append.
  - rewrite groupBy_groups. by rewrite length_map.
Qed.

Lemma getRepoForLanguage_Some (l : Language) :
  ∃ r, getRepoForLanguage l = Some r ∧ In r Config.REPOS ∧ repoLanguage r = l.
Proof. destruct l; eexists; (split; [reflexivity|]); (split; [cbn; tauto|reflexivity]). Qed.

(** X13.  Every language has a repository: [getRepoForLanguage] finds
    a configuration of [REPOS] for each one, its language is the one
    asked for, and no two languages share a repository slug. *)
Theorem getRepoForLanguage_total (l : Language) :
  ∃ r, getRepoForLanguage l = Some r
       ∧ In r Config.REPOS
       ∧ repoLanguage r = l
       ∧ ∀ l' r', getRepoForLanguage l' = Some r' → slug r' = slug r → l' = l.
Proof.
  destruct (getRepoForLanguage_Some l) as (r & Hr & Hin & Hl).
  exists r. split; [done|]. split; [done|]. split; [done|].
  intros l' r' Hr' Hslug. subst l. revert Hr Hr' Hslug.
  destruct (repoLanguage r) eqn:El; intros [= <-]; destruct l'; intros [= <-];
    cbn; intros Heq; (reflexivity || discriminate).
Qed.

(** ** The reports agree on languages and on dependencies *)

Lemma includes_setOf (xs : list string) (x : string) :
  JsArray.includes (JsArray.setOf xs) x = JsArray.includes xs x.
Proof. apply eq_true_iff_eq. rewrite !includes_In. apply setOf_In. Qed.

Lemma setAdd_setOf (xs : list string) (x : string) :
  setAdd x (JsArray.setOf xs) = JsArray.setOf (xs ++ [x]).
Proof. unfold setAdd. by rewrite setOf_snoc, includes_setOf. Qed.

Lemma buildConceptMap_snoc (l : list Package) (pkg : Package) :
  buildConceptMap (l ++ [pkg]) = addConcept (buildConceptMap l) pkg.
Proof. unfold buildConceptMap. by rewrite foldl_app. Qed.

Lemma languagesOf_snoc (l : list Package) (pkg : Package) (c : string) :
  languagesOf (l ++ [pkg]) c
  = if String.eqb (crossLanguageId pkg) c
    then setAdd (languageName (language pkg)) (languagesOf l c)
    else languagesOf l c.
Proof.
  unfold languagesOf. rewrite filter_snoc.
  destruct (String.eqb (crossLanguageId pkg) c).
  - by rewrite map_app, setAdd_setOf.
  - by rewrite app_nil_r.
Qed.

Lemma buildConceptMap_lookup (packages : list Package) (c : string) :
  buildConceptMap packages !! c
  = if existsb (λ p, String.eqb (crossLanguageId p) c) packages
    then Some (languagesOf packages c) else None.
Proof.
  induction packages as [|pkg l IH] using rev_ind; [done|].
  rewrite buildConceptMap_snoc, languagesOf_snoc, existsb_app. cbn [existsb].
  rewrite orb_false_r. unfold addConcept.
  destruct (String.eqb (crossLanguageId pkg) c) eqn:Hc.
  - apply String.eqb_eq in Hc as <-. rewrite lookup_insert_eq, orb_true_r.
    rewrite IH. destruct (existsb _ l) eqn:Hl; [done|]. cbn.
    unfold languagesOf. rewrite filter_none_in; [done|].
    intros p Hp. apply not_true_iff_false. intros Heq.
    apply not_true_iff_false in Hl. apply Hl, existsb_exists. by exists p.
  - rewrite lookup_insert_ne; [|intros Heq; by rewrite Heq, String.eqb_refl in Hc].
    by rewrite orb_false_r.
Qed.

(** X14.  The coverage matrix and the other reports agree on where a
    concept is available: the set [getCrossLanguageCoverage] builds for
    a cross-language id holds the languages [languagesOf] lists for
    it, in the same order, and the matrix has a row exactly for the ids
    of the packages. *)
Theorem coverage_languages (packages : list Package) (c : string) :
  default [] (buildConceptMap packages !! c) = languagesOf packages c
  ∧ (In c (conceptsOf (buildConceptMap packages))
     ↔ ∃ p, In p packages ∧ crossLanguageId p = c)
  ∧ (∀ l, In l (languagesOf packages c) → In l (coverageLanguages packages))
  ∧ (length (languagesOf packages c) ≤ length (coverageLanguages packages))%nat.
Proof.
  assert (Hex : existsb (λ p, String.eqb (crossLanguageId p) c) packages = true
                ↔ ∃ p, In p packages ∧ crossLanguageId p = c).
  { rewrite existsb_exists. by setoid_rewrite String.eqb_eq. }
  assert (Hsub : ∀ l, In l (languagesOf packages c) → In l (coverageLanguages packages)).
  { intros l. unfold languagesOf, coverageLanguages, JsArray.sortStrings.
    rewrite sort_In, !setOf_In, !in_map_iff.
    intros (p & Hl & Hp). apply filter_In in Hp as [Hp _]. by exists p. }
  split; [|split; [|split; [done|]]].
  - rewrite buildConceptMap_lookup.
    destruct (existsb _ packages) eqn:He; [done|]. cbn.
    unfold languagesOf. rewrite filter_none_in; [done|].
    intros p Hp. apply not_true_iff_false. intros Heq.
    assert (existsb (λ p, String.eqb (crossLanguageId p) c) packages = true) as Ht.
    { apply existsb_exists. by exists p. }
    congruence.
  - unfold conceptsOf, JsArray.sortStrings. rewrite sort_In.
    rewrite <- list_elem_of_In, elem_of_elements, elem_of_dom.
    rewrite buildConceptMap_lookup, <- Hex.
    clear. by destruct (existsb _ packages).
  - apply List.NoDup_incl_length; [apply unique_NoDup|]. intros l. apply Hsub.
Qed.

Lemma foldl_pushNew (xs ys : list string) :
  foldl pushNew (JsArray.setOf xs) ys = JsArray.setOf (xs ++ ys).
Proof.
  revert xs. induction ys as [|y ys IH]; intros xs; cbn.
  - by rewrite app_nil_r.
  - assert (pushNew (JsArray.setOf xs) y = JsArray.setOf (xs ++ [y])) as ->.
    { unfold pushNew. by rewrite setOf_snoc, includes_setOf. }
    rewrite IH. by rewrite <- app_assoc.
Qed.

Lemma touchDependent_map (id lang : string) (f : string → list string)
    (keys : list string) :
  List.NoDup keys →
  touchDependent id lang (map (λ c, {| concept := c; languages := f c |}) keys)
  = map (λ c, {| concept := c;
                 languages := if String.eqb c id && negb (JsArray.includes (f c) lang)
                              then f c ++ [lang] else f c |}) keys.
Proof.
  induction keys as [|a keys IH]; intros Hnd; [done|].
  apply List.NoDup_cons_iff in Hnd as [Hna Hnd]. cbn.
  destruct (String.eqb a id) eqn:Ha.
  - cbn. f_equal.
    + unfold JsArray.includes. by destruct (existsb (String.eqb lang) (f a)).
    + apply map_ext_in. intros c Hc. destruct (String.eqb c id) eqn:Hc'; [|done].
      apply String.eqb_eq in Hc', Ha. congruence.
  - cbn. by rewrite IH.
Qed.

Lemma find_concept (id : string) (f : string → list string) (keys : list string) :
  is_Some (find (λ d, String.eqb (concept d) id)
             (map (λ c, {| concept := c; languages := f c |}) keys))
  ↔ In id keys.
Proof.
  induction keys as [|a keys IH]; cbn.
  - split; [by intros [? ?]|done].
  - destruct (String.eqb a id) eqn:Ha.
    + apply String.eqb_eq in Ha. split; [by left|done].
    + rewrite IH. split; [by right|]. intros [->|?]; [|done].
      by rewrite String.eqb_refl in Ha.
Qed.

(** The languages of the packages of concept [c] that depend on [id]. *)
Lemma reverseStep_dependents (id : string) (packages : list Package) :
  (foldl (reverseStep id) ([], []) packages).1
  = map (λ c, {| concept := c;
                 languages :=
                   JsArray.setOf
                     (map (λ p, languageName (language p))
                        (List.filter
                           (λ p, JsArray.includes (zkKitDependencies p) id
                                 && String.eqb (crossLanguageId p) c) packages)) |})
      (JsArray.setOf
         (map crossLanguageId
            (List.filter (λ p, JsArray.includes (zkKitDependencies p) id) packages)))
  ∧ (foldl (reverseStep id) ([], []) packages).2
    = JsArray.setOf
        (concat (map zkKitDependencies
                   (List.filter (λ p, String.eqb (crossLanguageId p) id) packages))).
Proof.
  induction packages as [|pkg l [IH1 IH2]] using rev_ind; [done|].
  rewrite foldl_app. cbn [foldl].
  destruct (foldl (reverseStep id) ([], []) l) as [dependents directDeps].
  cbn [fst snd] in IH1, IH2. unfold reverseStep. cbn [fst snd].
  rewrite !filter_snoc. split.
  - destruct (JsArray.includes (zkKitDependencies pkg) id) eqn:Hdep.
    + rewrite map_app. cbn [map]. rewrite setOf_snoc.
      set (preds := JsArray.setOf
                      (map crossLanguageId
                         (List.filter (λ p, JsArray.includes (zkKitDependencies p) id) l))).
      set (langs := λ c,
             JsArray.setOf
               (map (λ p, languageName (language p))
                  (List.filter (λ p, JsArray.includes (zkKitDependencies p) id
                                     && String.eqb (crossLanguageId p) c) l))).
      assert (Hlangs : ∀ c,
                JsArray.setOf
                  (map (λ p, languageName (language p))
                     (List.filter (λ p, JsArray.includes (zkKitDependencies p) id
                                        && String.eqb (crossLanguageId p) c) (l ++ [pkg])))
                = if String.eqb (crossLanguageId pkg) c
                  then setAdd (languageName (language pkg)) (langs c) else langs c).
      { intros c. rewrite filter_snoc, Hdep. cbn [andb].
        destruct (String.eqb (crossLanguageId pkg) c).
        - rewrite map_app. cbn [map]. symmetry. apply setAdd_setOf.
        - by rewrite app_nil_r. }
      assert (Hinc : JsArray.includes
                       (map crossLanguageId
                          (List.filter
                             (λ p, JsArray.includes (zkKitDependencies p) id) l))
                       (crossLanguageId pkg)
                     = JsArray.includes preds (crossLanguageId pkg)).
      { subst preds. by rewrite includes_setOf. }
      rewrite Hinc. unfold noteDependent. rewrite IH1. fold preds.
      change (map _ preds) with
        (map (λ c, {| concept := c; languages := langs c |}) preds).
      pose proof (find_concept (crossLanguageId pkg) langs preds) as Hfind.
      destruct (JsArray.includes preds (crossLanguageId pkg)) eqn:Hin.
      * apply includes_In in Hin. apply Hfind in Hin as [d Hd]. rewrite Hd.
        rewrite touchDependent_map by apply unique_NoDup. apply map_ext. intros c. f_equal. rewrite Hlangs.
        rewrite (String.eqb_sym c). unfold setAdd.
        destruct (String.eqb (crossLanguageId pkg) c); [|done].
        by destruct (JsArray.includes (langs c) (languageName (language pkg))).
      * assert (find (λ d, String.eqb (concept d) (crossLanguageId pkg))
                  (map (λ c, {| concept := c; languages := langs c |}) preds) = None)
          as ->.
        { destruct (find _ _) eqn:Hf; [|done].
          assert (In (crossLanguageId pkg) preds) as Hc by (apply Hfind; eauto).
          apply includes_In in Hc. congruence. }
        rewrite map_app. cbn [map]. f_equal.
        -- apply map_ext_in. intros c Hc. f_equal. rewrite Hlangs.
           destruct (String.eqb (crossLanguageId pkg) c) eqn:Hpc; [|done].
           apply String.eqb_eq in Hpc as <-. apply includes_In in Hc. congruence.
        -- f_equal. f_equal. rewrite Hlangs, String.eqb_refl.
           subst langs. cbn beta. rewrite filter_none_in; [done|].
           intros p Hp. apply not_true_iff_false. intros Hb.
           apply andb_true_iff in Hb as [Hb1 Hb2]. apply String.eqb_eq in Hb2.
           apply not_true_iff_false in Hin. apply Hin, includes_In.
           subst preds. apply setOf_In, in_map_iff. exists p. split; [done|].
           apply filter_In. by split.
    + rewrite app_nil_r, IH1. apply map_ext. intros c. do 3 f_equal.
      rewrite filter_snoc, Hdep. cbn [andb]. by rewrite app_nil_r.
  - destruct (String.eqb (crossLanguageId pkg) id).
    + rewrite IH2, foldl_pushNew. rewrite map_app, concat_app. cbn.
      by rewrite app_nil_r.
    + by rewrite app_nil_r.
Qed.

(** X15.  The two lists [getReverseDependencies] collects for [id]:
    the dependents are the cross-language ids of the packages that
    list [id] among their dependencies, each once, in the order of
    their first package, with the languages of those packages (each
    once, never none); the direct dependencies are the dependencies
    of the packages whose id is [id], each once. *)
Theorem reverse_dependencies_lists (packages : list Package) (id : string) :
  let dependents := (foldl (reverseStep id) ([], []) packages).1 in
  let directDeps := (foldl (reverseStep id) ([], []) packages).2 in
  map concept dependents
  = JsArray.setOf
      (map crossLanguageId
         (List.filter (λ p, JsArray.includes (zkKitDependencies p) id) packages))
  ∧ List.NoDup (map concept dependents)
  ∧ (∀ c, In c (map concept dependents) ↔
       ∃ p, In p packages ∧ crossLanguageId p = c ∧ In id (zkKitDependencies p))
  ∧ (∀ d, In d dependents →
       List.NoDup (languages d) ∧ languages d ≠ []
       ∧ ∀ l, In l (languages d) ↔
           ∃ p, In p packages ∧ crossLanguageId p = concept d
                ∧ In id (zkKitDependencies p) ∧ languageName (language p) = l)
  ∧ List.NoDup directDeps
  ∧ (∀ x, In x directDeps ↔
       ∃ p, In p packages ∧ crossLanguageId p = id ∧ In x (zkKitDependencies p)).
Proof.
  cbv zeta. destruct (reverseStep_dependents id packages) as [-> ->].
  assert (Hpred : ∀ c,
            In c (JsArray.setOf
                    (map crossLanguageId
                       (List.filter (λ p, JsArray.includes (zkKitDependencies p) id)
                          packages)))
            ↔ ∃ p, In p packages ∧ crossLanguageId p = c ∧ In id (zkKitDependencies p)).
  { intros c. rewrite setOf_In, in_map_iff. split.
    - intros (p & Hc & Hp). apply filter_In in Hp as [Hp Hdep].
      apply includes_In in Hdep. by exists p.
    - intros (p & Hp & Hc & Hdep). exists p. split; [done|].
      apply filter_In. split; [done|]. by apply includes_In. }
  rewrite map_map. cbn [concept]. rewrite map_id.
  split; [done|]. split; [apply unique_NoDup|]. split; [done|].
  split; [|split; [apply unique_NoDup|]].
  - intros d Hd. apply in_map_iff in Hd as (c & <- & Hc). cbn [languages concept].
    assert (Hl : ∀ l,
              In l (JsArray.setOf
                      (map (λ p, languageName (language p))
                         (List.filter
                            (λ p, JsArray.includes (zkKitDependencies p) id
                                  && String.eqb (crossLanguageId p) c) packages)))
              ↔ ∃ p, In p packages ∧ crossLanguageId p = c
                     ∧ In id (zkKitDependencies p) ∧ languageName (language p) = l).
    { intros l. rewrite setOf_In, in_map_iff. split.
      - intros (p & Hl & Hp). apply filter_In in Hp as [Hp Hb].
        apply andb_true_iff in Hb as [Hdep Hid]. apply includes_In in Hdep.
        apply String.eqb_eq in Hid. by exists p.
      - intros (p & Hp & Hid & Hdep & Hl). exists p. split; [done|].
        apply filter_In. split; [done|]. apply andb_true_iff. split.
        + by apply includes_In.
        + by apply String.eqb_eq. }
    split; [apply unique_NoDup|]. split; [|done].
    apply Hpred in Hc as (p & Hp & Hid & Hdep). intros Hnil.
    assert (In (languageName (language p))
              (JsArray.setOf
                 (map (λ p, languageName (language p))
                    (List.filter
                       (λ p, JsArray.includes (zkKitDependencies p) id
                             && String.eqb (crossLanguageId p) c) packages)))) as Hin.
    { apply Hl. by exists p. }
    by rewrite Hnil in Hin.
  - intros x. rewrite setOf_In, in_concat. split.
    + intros (deps & Hdeps & Hx). apply in_map_iff in Hdeps as (p & <- & Hp).
      apply filter_In in Hp as [Hp Hid]. apply String.eqb_eq in Hid. by exists p.
    + intros (p & Hp & Hid & Hx). exists (zkKitDependencies p). split; [|done].
      apply in_map_iff. exists p. split; [done|]. apply filter_In. split; [done|].
      by apply String.eqb_eq.
Qed.

(** X16.  The two answers of the dependency tool agree: the dependents
    [getReverseDependencies] lists for [id] are the concepts that
    [getDependencyGraph] records as using [id], its direct dependencies
    are the ones the graph records for [id], and it has dependents to
    list exactly when the graph puts [id] among the foundational
    concepts. *)
Theorem reverse_dependencies_match_graph (packages : list Package) (id : string) :
  let dependents := (foldl (reverseStep id) ([], []) packages).1 in
  let directDeps := (foldl (reverseStep id) ([], []) packages).2 in
  let g := buildGraph packages in
  (∀ c, In c (map concept dependents) ↔ c ∈ default ∅ (dependedBy g !! id))
  ∧ (∀ x, In x directDeps ↔ x ∈ default ∅ (dependsOn g !! id))
  ∧ (length dependents = sizeAt (dependedBy g) id)
  ∧ (dependents ≠ [] ↔ In id (foundational (classify g))).
Proof.
  cbv zeta. destruct (reverseStep_dependents id packages) as [Hd Hx].
  destruct (buildGraph_represents packages) as (Hnode & Hon & Hby).
  assert (Hc : ∀ c, In c (map concept (foldl (reverseStep id) ([], []) packages).1)
                    ↔ c ∈ default ∅ (dependedBy (buildGraph packages) !! id)).
  { intros c. rewrite Hby. rewrite Hd, map_map. cbn [concept]. rewrite map_id.
    rewrite setOf_In, in_map_iff. unfold edge. split.
    - intros (p & Hc & Hp). apply filter_In in Hp as [Hp Hdep].
      apply includes_In in Hdep. by exists p.
    - intros (p & Hp & Hc & Hdep). exists p. split; [done|].
      apply filter_In. split; [done|]. by apply includes_In. }
  split; [done|]. split; [|split].
  - intros x. rewrite Hon, Hx. rewrite setOf_In, in_concat. unfold edge. split.
    + intros (deps & Hdeps & Hin). apply in_map_iff in Hdeps as (p & <- & Hp).
      apply filter_In in Hp as [Hp Hid]. apply String.eqb_eq in Hid. by exists p.
    + intros (p & Hp & Hid & Hin). exists (zkKitDependencies p). split; [|done].
      apply in_map_iff. exists p. split; [done|]. apply filter_In. split; [done|].
      by apply String.eqb_eq.
  - rewrite <- (length_map concept).
    assert (Hnd : NoDup (map concept (foldl (reverseStep id) ([], []) packages).1)).
    { rewrite Hd, map_map. cbn [concept]. rewrite map_id.
      apply NoDup_ListNoDup, unique_NoDup. }
    assert (Hset : default ∅ (dependedBy (buildGraph packages) !! id)
                   = list_to_set (map concept (foldl (reverseStep id) ([], []) packages).1)).
    { apply set_eq. intros c. rewrite elem_of_list_to_set, list_elem_of_In. by rewrite Hc. }
    assert (Hsz : sizeAt (dependedBy (buildGraph packages)) id
                  = size (default ∅ (dependedBy (buildGraph packages) !! id))).
    { unfold sizeAt. destruct (dependedBy (buildGraph packages) !! id); [done|].
      cbn. by rewrite size_empty. }
    rewrite Hsz, Hset. by rewrite size_list_to_set.
  - destruct (classify_spec packages id) as (Hf & _ & _). rewrite Hf.
    rewrite inDegree_positive.
    assert (Hne : (foldl (reverseStep id) ([], []) packages).1 ≠ []
                  ↔ ∃ c, In c (map concept (foldl (reverseStep id) ([], []) packages).1)).
    { destruct (foldl (reverseStep id) ([], []) packages).1 as [|d ds]; cbn.
      - split; [done|]. by intros [? []].
      - split; [|done]. intros _. exists (concept d). by left. }
    rewrite Hne. setoid_rewrite Hc. setoid_rewrite Hby. split.
    + intros [a Ha]. split; [|by exists a]. right. by exists a.
    + by intros [_ ?].
Qed.

(** ** Names: one per directory, and back *)

Lemma length_append (a b : string) :
  String.length (a +:+ b) = (String.length a + String.length b)%nat.
Proof.
  induction a as [|c a IH]; [done|]. rewrite append_cons. cbn [String.length].
  by rewrite IH.
Qed.

Lemma append_inj_length (a b x y : string) :
  a +:+ x = b +:+ y → String.length x = String.length y → a = b ∧ x = y.
Proof.
  intros Heq Hlen.
  assert (Hab : String.length a = String.length b).
  { apply (f_equal String.length) in Heq. rewrite !length_append in Heq. lia. }
  clear Hlen. revert b Heq Hab. induction a as [|c a IH]; intros [|d b] Heq Hab;
    try discriminate.
  - done.
  - cbn in Heq. injection Heq as -> Heq. cbn in Hab.
    destruct (IH b Heq) as [-> ->]; [lia|done].
Qed.

Lemma append_inj_r (a b s : string) : a +:+ s = b +:+ s → a = b.
Proof. intros Heq. by destruct (append_inj_length a b s s Heq eq_refl). Qed.

Lemma includes_cons_char (a c : ascii) (s : string) :
  includes (String a s) (String c EmptyString) = false →
  a ≠ c ∧ includes s (String c EmptyString) = false.
Proof.
  cbn. intros Hi. apply orb_false_iff in Hi as [Hp Hi]. split; [|done].
  intros ->. destruct (ascii_dec c c); [|done]. by destruct s.
Qed.

Lemma underscore_hyphen (a b : ascii) :
  a ≠ "_"%char → b ≠ "_"%char →
  (if Ascii.eqb a "-" then "_"%char else a) = (if Ascii.eqb b "-" then "_"%char else b) →
  a = b.
Proof.
  intros Ha Hb. destruct (Ascii.eqb a "-") eqn:Ea, (Ascii.eqb b "-") eqn:Eb.
  - apply Ascii.eqb_eq in Ea, Eb. congruence.
  - congruence.
  - congruence.
  - done.
Qed.

Lemma noir_name_inj (d1 d2 : string) :
  includes d1 "_" = false → includes d2 "_" = false →
  replaceAllChar "-" "_" d1 = replaceAllChar "-" "_" d2 → d1 = d2.
Proof.
  revert d2. induction d1 as [|a d1 IH]; intros [|b d2] H1 H2 Heq; try discriminate.
  - done.
  - apply includes_cons_char in H1 as [Ha H1]. apply includes_cons_char in H2 as [Hb H2].
    cbn in Heq. injection Heq as Hab Heq.
    f_equal; [by apply underscore_hyphen | by apply IH].
Qed.

Lemma deriveName_solidity (d : string) :
  deriveName d solidity
  = if String.eqb d "excubiae" then Str "@zk-kit/excubiae"
    else if JsArray.includes OBJECT_PROTOTYPE d then Inherited d
    else Str ("@zk-kit/" +:+ d +:+ ".sol").
Proof.
  unfold deriveName. destruct (nameOverride d solidity) as [o|] eqn:Ho.
  - rewrite (nameOverride_truthy _ _ _ Ho).
    apply nameOverride_Some in Ho as (_ & [[-> ->] | [Hin ->]]); [done|].
    destruct (String.eqb d "excubiae") eqn:He.
    + apply String.eqb_eq in He as ->. cbn in Hin. intuition discriminate.
    + apply includes_In in Hin. by rewrite Hin.
  - destruct (String.eqb d "excubiae") eqn:He.
    + apply String.eqb_eq in He as ->. discriminate.
    + destruct (JsArray.includes OBJECT_PROTOTYPE d) eqn:Hin; [|done].
      apply includes_In in Hin.
      assert (nameOverride d solidity = Some (Inherited d)) as Hs
        by (apply nameOverride_Some; eauto).
      congruence.
Qed.

Lemma deriveName_plain (d : string) (l : Language) :
  l ≠ solidity → deriveName d l = Str (nameTemplate d l).
Proof.
  intros Hl. unfold deriveName. destruct (nameOverride d l) as [o|] eqn:Ho; [|done].
  by apply nameOverride_Some in Ho as (-> & _).
Qed.

Lemma not_excubiae_sol (d : string) : d +:+ ".sol" ≠ "excubiae".
Proof.
  intros Heq. change "excubiae" with ("excu" +:+ "biae") in Heq.
  by destruct (append_inj_length d "excu" ".sol" "biae" Heq eq_refl).
Qed.

(** X17.  Within one language other than noir, [deriveName] gives
    different directories different results, also where the result is
    a member of [Object.prototype] and not a name.  For noir it does so
    for directories without an underscore, and not in general: [a-b]
    and [a_b] get the same name. *)
Theorem deriveName_injective (d1 d2 : string) (l : Language) :
  (l ≠ noir → deriveName d1 l = deriveName d2 l → d1 = d2)
  ∧ (includes d1 "_" = false → includes d2 "_" = false →
     deriveName d1 noir = deriveName d2 noir → d1 = d2)
  ∧ deriveName "a-b" noir = deriveName "a_b" noir.
Proof.
  split; [|split; [|reflexivity]].
  - intros Hl Heq. destruct l; [| | | done |].
    + rewrite !deriveName_plain in Heq by done. cbn in Heq. by injection Heq.
    + rewrite !deriveName_plain in Heq by done. cbn in Heq. injection Heq as Heq.
      change (EmptyString +:+ ?x) with x in Heq.
      by apply append_inj_r in Heq.
    + rewrite !deriveName_solidity in Heq.
      destruct (String.eqb d1 "excubiae") eqn:H1, (String.eqb d2 "excubiae") eqn:H2.
      * apply String.eqb_eq in H1, H2. congruence.
      * destruct (JsArray.includes OBJECT_PROTOTYPE d2); [done|].
        cbn in Heq. injection Heq as Heq. change (EmptyString +:+ ?x) with x in Heq.
        symmetry in Heq. by apply not_excubiae_sol in Heq.
      * destruct (JsArray.includes OBJECT_PROTOTYPE d1); [done|].
        cbn in Heq. injection Heq as Heq. change (EmptyString +:+ ?x) with x in Heq.
        by apply not_excubiae_sol in Heq.
      * destruct (JsArray.includes OBJECT_PROTOTYPE d1),
          (JsArray.includes OBJECT_PROTOTYPE d2); try done; [congruence|].
        cbn in Heq. injection Heq as Heq. change (EmptyString +:+ ?x) with x in Heq.
        by apply append_inj_r in Heq.
    + rewrite !deriveName_plain in Heq by done. cbn in Heq. by injection Heq.
  - intros H1 H2 Heq. rewrite !deriveName_plain in Heq by done. injection Heq as Heq.
    by apply noir_name_inj.
Qed.

Lemma lower_no_underscore (c : ascii) :
  c ≠ "_"%char →
  (if Ascii.eqb (lowerChar c) "_" then "-"%char else lowerChar c) = lowerChar c.
Proof.
  intros Hc. destruct (Ascii.eqb (lowerChar c) "_") eqn:He; [|done].
  apply Ascii.eqb_eq in He. exfalso. apply Hc. clear Hc. revert He.
  destruct c as [[] [] [] [] [] [] [] []]; cbv; intros He; congruence.
Qed.

Lemma normalized_plain (d : string) :
  includes d "_" = false → replaceAllChar "_" "-" (toLowerCase d) = toLowerCase d.
Proof.
  induction d as [|c d IH]; intros Hd; [done|].
  apply includes_cons_char in Hd as [Hc Hd]. cbn.
  rewrite lower_no_underscore by done. f_equal. by apply IH.
Qed.

Lemma noir_char (c : ascii) :
  c ≠ "_"%char →
  (let c' := lowerChar (if Ascii.eqb c "-" then "_"%char else c) in
   if Ascii.eqb c' "_" then "-"%char else c') = lowerChar c.
Proof.
  intros Hc. cbv zeta. destruct (Ascii.eqb c "-") eqn:He.
  - apply Ascii.eqb_eq in He as ->. reflexivity.
  - by apply lower_no_underscore.
Qed.

Lemma normalized_noir (d : string) :
  includes d "_" = false →
  replaceAllChar "_" "-" (toLowerCase (replaceAllChar "-" "_" d)) = toLowerCase d.
Proof.
  induction d as [|c d IH]; intros Hd; [done|].
  apply includes_cons_char in Hd as [Hc Hd]. cbn.
  pose proof (noir_char c Hc) as Hn. cbv zeta in Hn. rewrite Hn. f_equal. by apply IH.
Qed.

Lemma matchesQuery_rust (P : Package) :
  includes (dirName P) "_" = false →
  matchesQuery (nameTemplate (dirName P) rust) P = true.
Proof.
  intros Hd. unfold matchesQuery. cbv zeta.
  assert (fourthRule (toLowerCase (nameTemplate (dirName P) rust)) P = true) as ->;
    [|by rewrite !orb_true_r].
  unfold fourthRule, normalizes. cbv zeta. cbn [nameTemplate].
  rewrite toLowerCase_append.
  change (toLowerCase "zk-kit-") with "zk-kit-".
  assert (Hn : replaceAllChar "_" "-" ("zk-kit-" +:+ toLowerCase (dirName P))
               = "zk-kit-" +:+ toLowerCase (dirName P)).
  { change (replaceAllChar "_" "-" ("zk-kit-" +:+ toLowerCase (dirName P)))
      with ("zk-kit-" +:+ replaceAllChar "_" "-" (toLowerCase (dirName P))).
    by rewrite normalized_plain. }
  rewrite Hn, stripPrefix_append. apply andb_true_iff. split.
  - apply orb_true_iff. right. apply negb_true_iff, String.eqb_neq. intros Heq.
    apply (f_equal String.length) in Heq. rewrite length_append in Heq. cbn in Heq. lia.
  - unfold normalizedMatch. by rewrite String.eqb_refl.
Qed.

Lemma matchesQuery_noir (P : Package) :
  includes (dirName P) "_" = false →
  matchesQuery (nameTemplate (dirName P) noir) P = true.
Proof.
  intros Hd. unfold matchesQuery. cbv zeta.
  cbn [nameTemplate].
  set (lower := toLowerCase (replaceAllChar "-" "_" (dirName P))).
  assert (Hn : replaceAllChar "_" "-" lower = toLowerCase (dirName P))
    by (by apply normalized_noir).
  destruct (String.eqb (toLowerCase (dirName P)) lower) eqn:Hl.
  - unfold dirMatch. rewrite Hl. by rewrite !orb_true_r.
  - assert (fourthRule lower P = true) as ->; [|by rewrite !orb_true_r].
    unfold fourthRule, normalizes. cbv zeta. rewrite Hn, Hl. cbn [negb orb andb].
    unfold normalizedMatch. by rewrite String.eqb_refl, orb_true_r.
Qed.

(** X18.  The noir and the rust name of a directory resolve: when the
    registry holds a package of a directory without an underscore,
    whatever its language, [deriveName] gives that directory a string
    for a name in noir and in rust, and [getByName] finds a package for
    that name. *)
Theorem derived_names_resolve (packages : list Package) (P : Package) (l : Language) :
  In P packages → includes (dirName P) "_" = false → l = noir ∨ l = rust →
  ∃ derived, deriveName (dirName P) l = Str derived
    ∧ ∃ Q, getByName packages derived = Some Q ∧ In Q packages.
Proof.
  intros HP Hd Hl. exists (nameTemplate (dirName P) l).
  split; [destruct Hl as [-> | ->]; by apply deriveName_plain|].
  assert (matchesQuery (nameTemplate (dirName P) l) P = true) as Hm.
  { destruct Hl as [-> | ->]; [by apply matchesQuery_noir | by apply matchesQuery_rust]. }
  destruct (getByName_complete packages _ P HP Hm) as [Q HQ].
  exists Q. split; [done|]. by apply getByName_sound in HQ as [? _].
Qed.

Lemma derived_names_resolve_witness :
  ∃ derived, deriveName (dirName Fixture.leanImtTs) noir = Str derived
    ∧ ∃ Q, getByName Fixture.SYNTHETIC_PACKAGES derived = Some Q
           ∧ In Q Fixture.SYNTHETIC_PACKAGES.
Proof.
  apply (derived_names_resolve Fixture.SYNTHETIC_PACKAGES Fixture.leanImtTs noir).
  - left. reflexivity.
  - reflexivity.
  - left. reflexivity.
Defined.

(** ** src/github.ts: dependency ids and truncation *)

Import GithubHelpers.

Lemma prefix_append (p r : string) : String.prefix p (p +:+ r) = true.
Proof. apply prefix_iff. by exists r. Qed.

Lemma removeFirst_prefix (pat r : string) : removeFirst pat (pat +:+ r) = r.
Proof.
  destruct pat as [|c pat]; [by destruct r|].
  rewrite append_cons. cbn [removeFirst].
  change (String c (pat +:+ r)) with (String c pat +:+ r).
  by rewrite prefix_append, dropChars_append.
Qed.

Lemma stripSuffix_append (suf d : string) : stripSuffix suf (d +:+ suf) = Some d.
Proof.
  induction d as [|c d IH].
  - rewrite append_nil. destruct suf; cbn [stripSuffix]; by rewrite String.eqb_refl.
  - rewrite append_cons. cbn [stripSuffix].
    assert (String.eqb (String c (d +:+ suf)) suf = false) as ->.
    { apply String.eqb_neq. intros Heq. apply (f_equal String.length) in Heq.
      cbn in Heq. rewrite length_append in Heq. lia. }
    by rewrite IH.
Qed.

Lemma stripSuffix_Some (suf s stem : string) :
  stripSuffix suf s = Some stem → s = stem +:+ suf.
Proof.
  revert stem. induction s as [|c s IH]; intros stem; cbn [stripSuffix].
  - destruct (String.eqb EmptyString suf) eqn:He; [|done].
    apply String.eqb_eq in He as <-. by intros [= <-].
  - destruct (String.eqb (String c s) suf) eqn:He.
    + apply String.eqb_eq in He as <-. by intros [= <-].
    + destruct (stripSuffix suf s) as [stem'|]; [|done]. cbn. intros [= <-].
      rewrite append_cons. f_equal. by apply IH.
Qed.

Lemma stripExtension_sol (d : string) : stripExtension (d +:+ ".sol") = d.
Proof. unfold stripExtension. by rewrite stripSuffix_append. Qed.

Lemma stripExtension_circom (d : string) : stripExtension (d +:+ ".circom") = d.
Proof.
  unfold stripExtension. destruct (stripSuffix ".sol" (d +:+ ".circom")) as [stem|] eqn:Hs.
  - apply stripSuffix_Some in Hs. exfalso.
    change ".circom" with (".ci" +:+ "rcom") in Hs. rewrite <- append_assoc in Hs.
    by destruct (append_inj_length _ _ _ _ Hs eq_refl).
  - by rewrite stripSuffix_append.
Qed.

Lemma npmDependencies_cons (k : string) (keys : list string) :
  npmDependencies (("@zk-kit/" +:+ k) :: keys) = stripExtension k :: npmDependencies keys.
Proof.
  unfold npmDependencies. cbn [List.filter]. unfold startsWith at 1.
  rewrite prefix_append. cbn [map]. by rewrite removeFirst_prefix.
Qed.

(** X19.  The dependencies [fetchManifestInfo] reads from a manifest
    are the directories of the packages named there: from the name
    [deriveName] gives a directory in rust or circom, or in solidity
    when the directory is not named as a member of [Object.prototype],
    the directory is recovered, and so it is from a typescript name
    unless the directory itself ends in [.sol] or [.circom]; keys
    outside the [@zk-kit/] scope (the [zk-kit-] prefix for crates) are
    left out. *)
Theorem manifest_dependency_ids :
  (∀ ds, ∃ names,
     map (λ d, deriveName d rust) ds = map Str names ∧ cargoDependencies names = ds)
  ∧ (∀ ds, ∃ names,
       map (λ d, deriveName d circom) ds = map Str names ∧ npmDependencies names = ds)
  ∧ (∀ ds, (∀ d, In d ds → ¬ In d OBJECT_PROTOTYPE) →
       ∃ names,
         map (λ d, deriveName d solidity) ds = map Str names ∧ npmDependencies names = ds)
  ∧ (∀ ds, ∃ names,
       map (λ d, deriveName d typescript) ds = map Str names
       ∧ npmDependencies names = map stripExtension ds)
  ∧ (∀ d, ∃ derived,
       deriveName (d +:+ ".sol") typescript = Str derived ∧ npmDependencies [derived] = [d])
  ∧ (∀ k keys, startsWith k "@zk-kit/" = false →
       npmDependencies (k :: keys) = npmDependencies keys)
  ∧ (∀ k keys, startsWith k "zk-kit-" = false →
       cargoDependencies (k :: keys) = cargoDependencies keys).
Proof.
  split; [|split; [|split; [|split; [|split; [|split]]]]].
  - induction ds as [|d ds [names [IH1 IH2]]]; [by exists []|].
    exists (nameTemplate d rust :: names). cbn [map].
    rewrite deriveName_plain, IH1 by done. split; [done|].
    unfold cargoDependencies in *. cbn [nameTemplate List.filter]. unfold startsWith at 1.
    rewrite prefix_append. cbn [map]. by rewrite removeFirst_prefix, IH2.
  - induction ds as [|d ds [names [IH1 IH2]]]; [by exists []|].
    exists (nameTemplate d circom :: names). cbn [map].
    rewrite deriveName_plain, IH1 by done. split; [done|].
    cbn [nameTemplate]. by rewrite npmDependencies_cons, stripExtension_circom, IH2.
  - induction ds as [|d ds IH]; intros Hown; [by exists []|].
    destruct IH as [names [IH1 IH2]]; [intros; apply Hown; by right|].
    assert (Hd : JsArray.includes OBJECT_PROTOTYPE d = false).
    { apply not_true_iff_false. rewrite includes_In. apply Hown. by left. }
    cbn [map]. rewrite deriveName_solidity, Hd, IH1.
    destruct (String.eqb d "excubiae") eqn:He.
    + apply String.eqb_eq in He as ->. exists ("@zk-kit/excubiae" :: names).
      split; [done|]. change "@zk-kit/excubiae" with ("@zk-kit/" +:+ "excubiae").
      rewrite npmDependencies_cons, IH2. reflexivity.
    + exists (("@zk-kit/" +:+ d +:+ ".sol") :: names). split; [done|].
      by rewrite npmDependencies_cons, stripExtension_sol, IH2.
  - induction ds as [|d ds [names [IH1 IH2]]]; [by exists []|].
    exists (nameTemplate d typescript :: names). cbn [map].
    rewrite deriveName_plain, IH1 by done. split; [done|].
    cbn [nameTemplate]. by rewrite npmDependencies_cons, IH2.
  - intros d. eexists. rewrite deriveName_plain by done. split; [done|].
    cbn [nameTemplate]. by rewrite npmDependencies_cons, stripExtension_sol.
  - intros k keys Hk. unfold npmDependencies. cbn [List.filter]. by rewrite Hk.
  - intros k keys Hk. unfold cargoDependencies. cbn [List.filter]. by rewrite Hk.
Qed.

Lemma sliceTo_length (n : nat) (s : string) :
  (n ≤ String.length s)%nat → String.length (sliceTo n s) = n.
Proof.
  revert s. induction n as [|n IH]; intros s Hn; [done|].
  destruct s as [|c s]; cbn in *; [lia|]. rewrite IH; lia.
Qed.

Lemma sliceTo_prefix (n : nat) (s : string) : ∃ r, s = sliceTo n s +:+ r.
Proof.
  revert s. induction n as [|n IH]; intros s; [by exists s|].
  destruct s as [|c s]; [by exists EmptyString|].
  destruct (IH s) as [r Hr]. exists r. cbn [sliceTo]. rewrite append_cons. by f_equal.
Qed.

Lemma sliceTo_append (a r : string) : sliceTo (String.length a) (a +:+ r) = a.
Proof.
  induction a as [|c a IH]; [done|]. rewrite append_cons. cbn [String.length sliceTo].
  by rewrite IH.
Qed.

Lemma lastIndexFrom_char (c : ascii) (s : string) (i found : Z) :
  (includes s (String c EmptyString) = false →
   lastIndexFrom i found s (String c EmptyString) = found)
  ∧ (includes s (String c EmptyString) = true →
     ∃ a w, s = a +:+ String c w
            ∧ includes w (String c EmptyString) = false
            ∧ lastIndexFrom i found s (String c EmptyString)
              = i + Z.of_nat (String.length a)).
Proof.
  revert i found. induction s as [|x r IH]; intros i found.
  - split; [done|]. cbn. discriminate.
  - cbn [lastIndexFrom includes].
    assert (Hp : String.prefix (String c EmptyString) (String x r)
                 = if ascii_dec c x then true else false).
    { cbn. destruct (ascii_dec c x); [by destruct r|done]. }
    rewrite Hp.
    destruct (IH (i + 1) (if if ascii_dec c x then true else false then i else found))
      as [IHn IHy].
    destruct (includes r (String c EmptyString)) eqn:Hr.
    + split; [by rewrite orb_true_r|]. intros _.
      destruct (IHy eq_refl) as (a & w & -> & Hw & ->).
      exists (String x a), w. split; [done|]. split; [done|]. cbn [String.length]. lia.
    + rewrite orb_false_r. rewrite (IHn eq_refl).
      destruct (ascii_dec c x) as [<-|Hne]; split; try done.
      intros _. exists EmptyString, r. split; [done|]. split; [done|]. cbn. lia.
Qed.

Lemma lastIndexFrom_last (c : ascii) (front word : string) (i found : Z) :
  includes word (String c EmptyString) = false →
  lastIndexFrom i found (front +:+ String c word) (String c EmptyString)
  = i + Z.of_nat (String.length front).
Proof.
  intros Hword. revert i found. induction front as [|x front IH]; intros i found.
  - rewrite append_nil. cbn [lastIndexFrom].
    assert (String.prefix (String c EmptyString) (String c word) = true) as ->.
    { cbn. destruct (ascii_dec c c); [by destruct word | done]. }
    destruct (lastIndexFrom_char c word (i + 1) i) as [Hno _].
    rewrite (Hno Hword). cbn. lia.
  - rewrite append_cons. cbn [lastIndexFrom String.length]. rewrite IH. lia.
Qed.

(** X20.  [truncate] returns a string that fits as it is.  Of a longer
    one it looks at the first [max] characters and adds three dots to
    what it keeps of them: all of them when they hold no space; else,
    with [front] the part in front of their last space, [front] when
    [front] is longer than half of [max], and all of them when it is
    not. *)
Theorem truncate_cut (s : string) (max : nat) :
  ((String.length s ≤ max)%nat → truncate s max = s)
  ∧ ((max < String.length s)%nat →
     ∃ window rest,
       s = window +:+ rest
       ∧ String.length window = max
       ∧ (includes window " " = false → truncate s max = window +:+ "...")
       ∧ (∀ front word,
            window = front +:+ " " +:+ word → includes word " " = false →
            truncate s max
            = (if (max <? 2 * String.length front)%nat then front else window) +:+ "...")).
Proof.
  unfold truncate. split.
  - intros Hle. apply Nat.leb_le in Hle. by rewrite Hle.
  - intros Hlt. assert ((String.length s <=? max)%nat = false) as ->
      by (apply Nat.leb_gt; lia).
    cbv zeta. destruct (sliceTo_prefix max s) as [tail Htail].
    assert (Hlen : String.length (sliceTo max s) = max) by (apply sliceTo_length; lia).
    set (truncated := sliceTo max s) in *.
    exists truncated, tail. split; [done|]. split; [done|]. split.
    + intros Hno. unfold lastIndexOf.
      destruct (lastIndexFrom_char " " truncated 0 (-1)) as [Hnone _].
      rewrite (Hnone Hno).
      assert ((Z.of_nat max <? 2 * (-1)) = false) as -> by (apply Z.ltb_ge; lia). done.
    + intros front word Hsplit Hword. unfold lastIndexOf.
      assert (Hidx : lastIndexFrom 0 (-1) truncated " " = Z.of_nat (String.length front)).
      { rewrite Hsplit. change (front +:+ " " +:+ word) with (front +:+ String " " word).
        rewrite (lastIndexFrom_last " " front word 0 (-1) Hword). lia. }
      rewrite Hidx, Nat2Z.id.
      assert (sliceTo (String.length front) truncated = front) as ->
        by (rewrite Hsplit; apply sliceTo_append).
      destruct (Nat.ltb_spec max (2 * String.length front)) as [Hcut | Hcut].
      * assert ((Z.of_nat max <? 2 * Z.of_nat (String.length front)) = true) as ->
          by (apply Z.ltb_lt; lia). done.
      * assert ((Z.of_nat max <? 2 * Z.of_nat (String.length front)) = false) as ->
          by (apply Z.ltb_ge; lia). done.
Qed.

(** ** src/index.ts: helpers and handlers *)

Import Handlers.

Lemma truthyArg_Some (x : option string) (s : string) :
  truthyArg x = Some s ↔ x = Some s ∧ s ≠ EmptyString.
Proof.
  destruct x as [t|]; cbn; [|split; [done|by intros [? _]]].
  destruct (truthy t) eqn:Ht.
  - apply truthy_iff in Ht. split; [by intros [= <-]|by intros [[= <-] _]].
  - split; [done|]. intros [[= <-] Hne]. apply truthy_iff in Hne. congruence.
Qed.

(** X21.  [resolveRepoSlugs] never answers with an empty list or with
    a slug that is not configured.  A repository argument takes
    precedence over a language argument; a language of the enumeration
    always resolves, to the slug [getRepoForLanguage] gives for it;
    without arguments every configured slug is returned. *)
Theorem resolveRepoSlugs_sound (lang repo : option string) :
  (∀ slugs, resolveRepoSlugs lang repo = inl slugs →
     slugs ≠ [] ∧ ∀ s, In s slugs → In s (map slug REPOS))
  ∧ (∀ r, truthyArg repo = Some r →
       resolveRepoSlugs lang repo = resolveRepoSlugs None (Some r)
       ∧ (In r (map slug REPOS) → resolveRepoSlugs lang repo = inl [r])
       ∧ (¬ In r (map slug REPOS) → ∃ result, resolveRepoSlugs lang repo = inr result))
  ∧ (∀ l, truthyArg repo = None →
       ∃ r, getRepoForLanguage l = Some r
            ∧ resolveRepoSlugs (Some (languageName l)) repo = inl [slug r])
  ∧ (truthyArg repo = None → truthyArg lang = None →
     resolveRepoSlugs lang repo = inl (map slug REPOS)).
Proof.
  split; [|split; [|split]].
  - intros slugs. unfold resolveRepoSlugs.
    destruct (truthyArg repo) as [r|].
    + destruct (JsArray.includes (map slug REPOS) r) eqn:Hr; [|done].
      cbn [negb]. intros [= <-]. split; [done|]. intros s [<-|[]].
      by apply includes_In.
    + destruct (truthyArg lang) as [l|].
      * destruct (find _ REPOS) as [found|] eqn:Hf; [|done].
        intros [= <-]. split; [done|]. intros s [<-|[]].
        apply find_some in Hf as [Hin _]. by apply in_map.
      * intros [= <-]. split; [done|]. done.
  - intros r Hr. unfold resolveRepoSlugs. rewrite Hr.
    assert (truthyArg (Some r) = Some r) as ->.
    { apply truthyArg_Some. apply truthyArg_Some in Hr as [_ ?]. done. }
    split; [done|]. split.
    + intros Hin. apply includes_In in Hin. by rewrite Hin.
    + intros Hin. destruct (JsArray.includes (map slug REPOS) r) eqn:Hi.
      * by apply includes_In in Hi.
      * by eexists.
  - intros l Hr. unfold resolveRepoSlugs. rewrite Hr.
    destruct l; eexists; split; reflexivity.
  - intros Hr Hl. unfold resolveRepoSlugs. by rewrite Hr, Hl.
Qed.

(** X22.  [completePackageName] offers at most 20 names, names of
    packages of the registry in registry order, each containing the
    typed value whatever the case of either; without a value, or with
    the empty one, it offers the first 20 names. *)
Theorem completePackageName_sound (packages : list Package) (value : option string) :
  let names := completePackageName packages value in
  (length names ≤ 20)%nat
  ∧ sublist names (map name packages)
  ∧ (∀ v n, truthyArg value = Some v → In n names →
       includes (toLowerCase n) (toLowerCase v) = true)
  ∧ (∀ v p, truthyArg value = Some v → In p packages →
       includes (toLowerCase (name p)) (toLowerCase v) = true →
       (length names < 20)%nat → In (name p) names)
  ∧ (truthyArg value = None → names = take 20 (map name packages)).
Proof.
  cbv zeta. unfold completePackageName.
  split; [|split; [|split; [|split]]].
  - rewrite length_take. lia.
  - etrans; [apply sublist_take|]. apply (fmap_sublist name), filter_sublist.
  - intros v n Hv Hn. rewrite Hv in Hn.
    assert (In n (map name (List.filter
                              (λ p, includes (toLowerCase (name p)) (toLowerCase v))
                              packages))) as Hin.
    { apply list_elem_of_In. eapply elem_of_subseteq; [|by apply list_elem_of_In].
      apply sublist_subseteq, sublist_take. }
    apply in_map_iff in Hin as (p & <- & Hp). by apply filter_In in Hp as [_ ?].
  - intros v p Hv Hp Hinc. rewrite Hv. rewrite length_take. intros Hlen.
    rewrite take_ge by lia. apply in_map, filter_In. by split.
  - intros ->. by rewrite filter_all.
Qed.

Lemma cacheKey_inj (p q : Package) :
  cacheKey p = cacheKey q → language p = language q ∧ dirName p = dirName q.
Proof.
  unfold cacheKey. destruct (language p), (language q); cbn; intros Heq;
    try discriminate; by injection Heq.
Qed.

(** X23.  [getOrFetchReadme] stores only texts that are not empty.  A
    text it answers with is in the cache under the key of the package
    afterwards, and until that entry expires every further call for
    the package answers with it whatever [fetchReadme] would give.  A
    live entry is answered from the cache, which is left as it is;
    without one the answer is what [fetchReadme] gives for the
    repository of the package's language. *)
Theorem getOrFetchReadme_reuse
    (fetchReadme : string → string → string → string → option string)
    (now later : Z) (pkg : Package) (c : Cache.TTLCache string string) :
  let r := (getOrFetchReadme fetchReadme now later pkg c).1 in
  let c' := (getOrFetchReadme fetchReadme now later pkg c).2 in
  ((∀ k e, Cache.store c !! k = Some e → Cache.value e ≠ EmptyString) →
   ∀ k e, Cache.store c' !! k = Some e → Cache.value e ≠ EmptyString)
  ∧ (∀ text, r = Some text → text ≠ EmptyString →
       ∃ e, Cache.store c' !! cacheKey pkg = Some e ∧ Cache.value e = text
            ∧ ∀ fetchReadme' again later',
                again ≤ Cache.expiresAt e →
                getOrFetchReadme fetchReadme' again later' pkg c' = (Some text, c'))
  ∧ (∀ text, (Cache.get now (cacheKey pkg) c).1 = Some text → text ≠ EmptyString →
       r = Some text ∧ c' = c)
  ∧ ((Cache.get now (cacheKey pkg) c).1 = None →
     ∃ repo, getRepoForLanguage (language pkg) = Some repo
             ∧ r = fetchReadme (slug repo) (branch repo) (packagePath repo) (dirName pkg)
             ∧ ∀ text, r = Some text → text ≠ EmptyString →
                 Cache.store c' !! cacheKey pkg
                 = Some {| Cache.value := text;
                           Cache.expiresAt := later + Cache.ttlMs c |}).
Proof.
  cbv zeta.
  assert (Hhit : ∀ fetch' again later' (c0 : Cache.TTLCache string string) e,
            Cache.store c0 !! cacheKey pkg = Some e → Cache.value e ≠ EmptyString →
            again ≤ Cache.expiresAt e →
            getOrFetchReadme fetch' again later' pkg c0 = (Some (Cache.value e), c0)).
  { intros fetch' again later' c0 e He Hne Hle. unfold getOrFetchReadme, Cache.get.
    rewrite He. apply expired_false in Hle. rewrite Hle.
    assert (truthyArg (Some (Cache.value e)) = Some (Cache.value e)) as ->; [|done].
    by apply truthyArg_Some. }
  destruct (getRepoForLanguage_Some (language pkg)) as (repo & Hrepo & _).
  destruct (get_cases now (cacheKey pkg) c) as (Httl & Hsome & Hsame & Hgone & Hother).
  destruct (Cache.get now (cacheKey pkg) c) as [found c1] eqn:Hg.
  cbn [fst snd] in *.
  assert (Hres : getOrFetchReadme fetchReadme now later pkg c
                 = match truthyArg found with
                   | Some _ => (found, c1)
                   | None =>
                       let readme := fetchReadme (slug repo) (branch repo)
                                       (packagePath repo) (dirName pkg) in
                       match truthyArg readme with
                       | Some text => (readme, Cache.set later (cacheKey pkg) text c1)
                       | None => (readme, c1)
                       end
                   end).
  { unfold getOrFetchReadme. by rewrite Hg, Hrepo. }
  rewrite Hres. clear Hres. cbv zeta.
  destruct (truthyArg found) as [text0|] eqn:Hfound.
  - apply truthyArg_Some in Hfound as [-> Hne0]. cbn [fst snd].
    specialize (Hsame (ltac:(eauto))). subst c1.
    destruct (proj1 (Hsome text0) eq_refl) as (e & He & Hv & Hlive).
    split; [done|]. split; [|split; [|done]].
    + intros text [= <-] _. exists e. split; [done|]. split; [done|].
      intros fetch' again later' Hle. rewrite <- Hv. by apply Hhit; rewrite ?Hv.
    + by intros text [= <-] _.
  - set (fetched := fetchReadme (slug repo) (branch repo) (packagePath repo) (dirName pkg)).
    assert (Hc1 : ∀ k e, Cache.store c1 !! k = Some e → Cache.store c !! k = Some e).
    { intros k e. destruct (decide (k = cacheKey pkg)) as [->|Hk].
      - destruct found as [t|]; [by rewrite (Hsame (ltac:(eauto)))|].
        by rewrite (Hgone eq_refl).
      - by rewrite Hother. }
    destruct (truthyArg fetched) as [text|] eqn:Hf; cbn [fst snd].
    + apply truthyArg_Some in Hf as [Hf Hne]. split; [|split; [|split]].
      * intros Hinv k e. cbn. destruct (decide (k = cacheKey pkg)) as [->|Hk].
        -- rewrite lookup_insert_eq. by intros [= <-].
        -- rewrite lookup_insert_ne by done. intros He. apply sweep_lookup in He as [He _].
           apply (Hinv k). by apply Hc1.
      * intros text' Ht _. rewrite Hf in Ht. injection Ht as <-.
        eexists. split; [cbn; apply lookup_insert_eq|]. split; [done|].
        intros fetch' again later' Hle.
        apply (Hhit fetch' again later'
                 (Cache.set later (cacheKey pkg) text c1)
                 {| Cache.value := text; Cache.expiresAt := later + Cache.ttlMs c1 |});
          [cbn; apply lookup_insert_eq|done|done].
      * intros text' Hhit' Hne'. exfalso.
        assert (truthyArg found = Some text') as Hx by (by apply truthyArg_Some).
        congruence.
      * intros _. exists repo. split; [done|]. split; [done|].
        intros text' Ht _. rewrite Hf in Ht. injection Ht as <-.
        cbn. rewrite Httl. apply lookup_insert_eq.
    + split; [|split; [|split]].
      * intros Hinv k e He. apply (Hinv k). by apply Hc1.
      * intros text' Ht Hne. exfalso.
        assert (truthyArg fetched = Some text') as Hx by (by apply truthyArg_Some).
        congruence.
      * intros text' Hhit' Hne'. exfalso.
        assert (truthyArg found = Some text') as Hx by (by apply truthyArg_Some).
        congruence.
      * intros _. exists repo. split; [done|]. split; [done|].
        intros text' Ht Hne. exfalso.
        assert (truthyArg fetched = Some text') as Hx by (by apply truthyArg_Some).
        congruence.
Qed.

Lemma getOrFetchReadme_result
    (fetchReadme : string → string → string → string → option string)
    (now later : Z) (pkg : Package) (c : Cache.TTLCache string string) :
  (getOrFetchReadme fetchReadme now later pkg c).1
  = match truthyArg (Cache.get now (cacheKey pkg) c).1 with
    | Some text => Some text
    | None =>
        match getRepoForLanguage (language pkg) with
        | Some repo => fetchReadme (slug repo) (branch repo) (packagePath repo) (dirName pkg)
        | None => (Cache.get now (cacheKey pkg) c).1
        end
    end.
Proof.
  unfold getOrFetchReadme. destruct (Cache.get now (cacheKey pkg) c) as [found c1].
  cbn [fst]. destruct (truthyArg found) as [text|] eqn:Hf.
  - by apply truthyArg_Some in Hf as [-> _].
  - destruct (getRepoForLanguage (language pkg)) as [repo|]; [|done].
    by destruct (truthyArg (fetchReadme _ _ _ _)).
Qed.

(** X24.  The README cache keeps packages apart: the key of a package
    determines its language and its directory, and, while the clock
    does not run backwards, a call of [getOrFetchReadme] for one
    package does not change what a later call answers for a package of
    another language or directory. *)
Theorem readme_cache_isolated
    (fetchReadme fetchReadme' : string → string → string → string → option string)
    (now later again later' : Z) (p q : Package) (c : Cache.TTLCache string string) :
  (language p ≠ language q ∨ dirName p ≠ dirName q) → later ≤ again →
  cacheKey p ≠ cacheKey q
  ∧ (getOrFetchReadme fetchReadme' again later' q
       (getOrFetchReadme fetchReadme now later p c).2).1
    = (getOrFetchReadme fetchReadme' again later' q c).1.
Proof.
  intros Hpq Hle.
  assert (Hkey : cacheKey q ≠ cacheKey p).
  { intros Heq. apply cacheKey_inj in Heq as [Hl Hd]. destruct Hpq; congruence. }
  split; [done|]. rewrite !getOrFetchReadme_result.
  assert (Hget : (Cache.get again (cacheKey q)
                    (getOrFetchReadme fetchReadme now later p c).2).1
                 = (Cache.get again (cacheKey q) c).1).
  { unfold getOrFetchReadme.
    pose proof (get_get_other now again (cacheKey p) (cacheKey q) c Hkey) as Hgg.
    destruct (Cache.get now (cacheKey p) c) as [found c1]. cbn [snd] in Hgg.
    destruct (truthyArg found); [done|].
    destruct (getRepoForLanguage (language p)) as [repo|]; [|done].
    destruct (truthyArg (fetchReadme _ _ _ _)) as [text|]; [|done].
    cbn [snd]. by rewrite get_set_other. }
  by rewrite Hget.
Qed.

Lemma readme_cache_isolated_witness :
  cacheKey Fixture.leanImtTs ≠ cacheKey Fixture.leanImtSol
  ∧ (getOrFetchReadme (λ _ _ _ _, Some "other") 2000 2001 Fixture.leanImtSol
       (getOrFetchReadme (λ _ _ _ _, Some "readme") 1000 1001 Fixture.leanImtTs
          (Cache.new 600000)).2).1
    = (getOrFetchReadme (λ _ _ _ _, Some "other") 2000 2001 Fixture.leanImtSol
         (Cache.new 600000)).1.
Proof.
  apply readme_cache_isolated.
  - left. discriminate.
  - lia.
Defined.

Lemma search_empty (query : option string) (lang : option Language)
    (cat : option Category) :
  search [] query lang cat = [].
Proof.
  unfold search. destruct lang, cat, query as [q|]; try done; by destruct (truthy q).
Qed.

(** X25.  On an empty registry every registry tool says so and adds
    the hint about the failed start-up: [list_packages] for every
    query and filter, [get_ecosystem_overview], [compare_packages] for
    every list of names, [get_cross_language_coverage], and the lookup
    of a package by name.  On a registry that is not empty
    [list_packages] reports an empty result without the hint. *)
Theorem empty_registry_hint :
  (∀ query lang cat,
     listPackagesTool [] query lang cat
     = textResult ("No packages found matching the given criteria."
                     +:+ EMPTY_REGISTRY_HINT))
  ∧ ecosystemOverviewTool [] = textResult ("No packages available." +:+ EMPTY_REGISTRY_HINT)
  ∧ (∀ names,
       comparePackagesTool [] names
       = textResult ("Cannot compare packages." +:+ EMPTY_REGISTRY_HINT))
  ∧ (∀ coveragePercent,
       crossLanguageCoverageTool coveragePercent []
       = textResult ("No packages available." +:+ EMPTY_REGISTRY_HINT))
  ∧ (∀ query,
       resolvePackage [] query
       = inr (textResult ("Package " +:+ quote +:+ query +:+ quote +:+ " not found."
                            +:+ EMPTY_REGISTRY_HINT)))
  ∧ (∀ packages query lang cat,
       packages ≠ [] → search packages query lang cat = [] →
       listPackagesTool packages query lang cat
       = textResult "No packages found matching the given criteria.").
Proof.
  split; [|split; [|split; [|split; [|split]]]]; try done.
  - intros query lang cat. unfold listPackagesTool. by rewrite search_empty.
  - intros query. unfold resolvePackage.
    assert (getByName [] query = None) as ->; [|done].
    unfold getByName. cbn [find]. by destruct (_ || _).
  - intros packages query lang cat Hne Hs. unfold listPackagesTool. rewrite Hs.
    destruct packages; [done|]. reflexivity.
Qed.

(** X26.  [resolvePackage] hands out a package exactly when
    [getByName] finds one, and that package is in the registry.  It
    answers "not found" only for a query that is, whatever the case,
    neither the name nor the directory name of a package; it then
    suggests at most five packages, each of the registry. *)
Theorem resolvePackage_found (packages : list Package) (query : string) :
  (∀ pkg, resolvePackage packages query = inl pkg ↔ getByName packages query = Some pkg)
  ∧ (∀ pkg, resolvePackage packages query = inl pkg → In pkg packages)
  ∧ (∀ result, resolvePackage packages query = inr result →
       getByName packages query = None
       ∧ (∀ p, In p packages →
            toLowerCase (name p) ≠ toLowerCase query
            ∧ toLowerCase (dirName p) ≠ toLowerCase query)
       ∧ (length (suggest packages query 5) ≤ 5)%nat
       ∧ ∃ text, content result = [text]
                 ∧ startsWith text ("Package " +:+ quote +:+ query +:+ quote
                                      +:+ " not found.") = true).
Proof.
  unfold resolvePackage.
  destruct (getByName packages query) as [found|] eqn:Hget.
  - split; [|split; [|done]].
    + intros pkg. split; congruence.
    + intros pkg [= <-]. by apply getByName_sound in Hget as [? _].
  - split; [|split].
    + intros pkg. split; [|done].
      destruct (length packages =? 0)%nat; discriminate.
    + intros pkg. destruct (length packages =? 0)%nat; discriminate.
    + intros result Hres. split; [done|]. split; [|split].
      * intros p Hp. split; intros Heq.
        -- destruct (getByName_complete packages query p Hp) as [Q HQ]; [|congruence].
           unfold matchesQuery, exactMatch. cbv zeta. rewrite Heq, String.eqb_refl. done.
        -- destruct (getByName_complete packages query p Hp) as [Q HQ]; [|congruence].
           unfold matchesQuery, dirMatch. cbv zeta. rewrite Heq, String.eqb_refl.
           by rewrite !orb_true_r.
      * unfold suggest. rewrite length_take. lia.
      * assert (Hpre : ∀ rest,
                  startsWith
                    ("Package " +:+ quote +:+ query +:+ quote +:+ " not found." +:+ rest)
                    ("Package " +:+ quote +:+ query +:+ quote +:+ " not found.") = true).
        { intros rest. unfold startsWith. apply prefix_iff. exists rest.
          by rewrite !append_assoc. }
        destruct (length packages =? 0)%nat.
        -- injection Hres as <-. eexists. split; [reflexivity|]. apply Hpre.
        -- injection Hres as <-. eexists. split; [reflexivity|].
           destruct (0 <? length (suggest packages query 5))%nat.
           ++ change ("Package " +:+ quote +:+ query +:+ quote +:+ " not found. Did you mean:"
                        +:+ nl +:+ join nl (map (λ s, "- " +:+ name s)
                                              (suggest packages query 5)))
                with ("Package " +:+ quote +:+ query +:+ quote
                        +:+ (" not found." +:+ (" Did you mean:" +:+ nl
                               +:+ join nl (map (λ s, "- " +:+ name s)
                                              (suggest packages query 5))))).
              apply Hpre.
           ++ change ("Package " +:+ quote +:+ query +:+ quote
                        +:+ " not found. Use list_packages to see available packages.")
                with ("Package " +:+ quote +:+ query +:+ quote
                        +:+ (" not found."
                               +:+ " Use list_packages to see available packages.")).
              apply Hpre.
Qed.

(** X27.  The package the two prompts settle on is a package
    of the registry with the cross-language id of the one the name
    resolves to, and there is none exactly when the name does not
    resolve.  When a language is requested, a prompt is left with a
    package of another language only if the registry has no package of
    that id in the requested language. *)
Theorem integrationPackage_variant (packages : list Package) (packageName : string)
    (lang : option Language) :
  (integrationPackage packages packageName lang = None
   ↔ getByName packages packageName = None)
  ∧ (∀ p, integrationPackage packages packageName lang = Some p →
       In p packages
       ∧ ∃ p0, getByName packages packageName = Some p0
               ∧ crossLanguageId p = crossLanguageId p0
               ∧ (lang = None → p = p0)
               ∧ (∀ l, lang = Some l → language p0 = l → p = p0))
  ∧ (∀ p l, integrationPackage packages packageName (Some l) = Some p →
       language p ≠ l →
       ∀ q, In q packages → crossLanguageId q = crossLanguageId p → language q ≠ l).
Proof.
  assert (Hl : ∀ a b, Language_eqb a b = true ↔ a = b) by (by intros [] []).
  assert (Hs : ∀ l, search packages None (Some l) None
                    = List.filter (λ p, Language_eqb (language p) l) packages) by done.
  unfold integrationPackage.
  destruct (getByName packages packageName) as [p0|] eqn:Hget.
  - pose proof (getByName_sound _ _ _ Hget) as [Hin0 _].
    split; [|split].
    + split; [|done]. destruct lang as [l|]; [|done].
      destruct (Language_eqb (language p0) l); cbn [negb]; [done|].
      by destruct (find _ _).
    + intros p Hp. destruct lang as [l|].
      * destruct (Language_eqb (language p0) l) eqn:Hp0; cbn [negb] in Hp.
        -- injection Hp as <-. split; [done|]. exists p0. by repeat split.
        -- destruct (find _ _) as [variant|] eqn:Hf.
           ++ injection Hp as <-. apply find_some in Hf as [Hv Hid].
              rewrite Hs in Hv. apply filter_In in Hv as [Hv _].
              apply String.eqb_eq in Hid. split; [done|]. exists p0.
              split; [done|]. split; [done|]. split; [done|].
              intros l' [= <-] Hl0. apply Hl in Hl0. congruence.
           ++ injection Hp as <-. split; [done|]. exists p0. by repeat split.
      * injection Hp as <-. split; [done|]. exists p0. by repeat split.
    + intros p l Hp Hne q Hq Hid Hql.
      destruct (Language_eqb (language p0) l) eqn:Hp0; cbn [negb] in Hp.
      * injection Hp as <-. by apply Hl in Hp0.
      * destruct (find _ _) as [variant|] eqn:Hf.
        -- injection Hp as <-. apply find_some in Hf as [Hv _].
           rewrite Hs in Hv. apply filter_In in Hv as [_ Hv]. by apply Hl in Hv.
        -- injection Hp as <-.
           assert (String.eqb (crossLanguageId q) (crossLanguageId p0) = false) as Hno.
           { apply (find_none _ _ Hf q). rewrite Hs. apply filter_In.
             split; [done|]. by apply Hl. }
           apply String.eqb_neq in Hno. done.
  - split; [|split]; [by destruct lang|by destruct lang|done].
Qed.

(** ** What discovery hands to the registry *)

Lemma getRepoForLanguage_REPOS (r : RepoConfig) :
  In r REPOS → getRepoForLanguage (repoLanguage r) = Some r.
Proof. cbn. intros [<-|[<-|[<-|[<-|[<-|[]]]]]]; reflexivity. Qed.

Lemma getByName_own_name (packages : list Package) (p : Package) :
  In p packages →
  ∃ Q, getByName packages (name p) = Some Q ∧ In Q packages
       ∧ toLowerCase (name Q) = toLowerCase (name p).
Proof.
  intros Hp. unfold getByName. cbv zeta.
  destruct (find (exactMatch (toLowerCase (name p))) packages) as [Q|] eqn:Hf.
  - apply find_some in Hf as [HQ Hm]. exists Q. split; [done|]. split; [done|].
    by apply String.eqb_eq in Hm.
  - exfalso. pose proof (find_none _ _ Hf p Hp) as Hno.
    unfold exactMatch in Hno. by rewrite String.eqb_refl in Hno.
Qed.

Lemma typed_named (p : Discovered) : named p → is_Some (typed p).
Proof. intros [n Hn]. unfold typed. rewrite Hn. by eexists. Qed.

(** X28.  Every package discovery returns is derived from its
    directory and its repository alone, apart from what the manifest
    says: the name is what [deriveName] returns for the directory and
    the language, the category [inferCategory] of the directory, the
    cross-language id the directory; the install command and the
    repository address are built from the configuration
    [getRepoForLanguage] gives for the language, whose listing holds the
    directory.  When no directory of the solidity repository is named as
    a member of [Object.prototype], the packages are a registry, and a
    package looked up there by its name resolves to a package of that
    name. *)
Theorem discovered_packages_derived (github : Github)
    (localeCompare : string → string → Z) (found : list Discovered) :
  discoverAllPackages github localeCompare = Fulfilled found →
  (∀ p, In p found →
     name p = deriveName (dirName p) (language p)
     ∧ category p = inferCategory (dirName p)
     ∧ crossLanguageId p = dirName p
     ∧ ∃ r dirs,
         getRepoForLanguage (language p) = Some r
         ∧ installCommand p
           = deriveInstallCommand (toStringValue (name p)) (dirName p) (language p) (slug r)
         ∧ repo p = "https://github.com/" +:+ slug r +:+ "/tree/" +:+ branch r
                      +:+ "/" +:+ packagePath r +:+ "/" +:+ dirName p
         ∧ fetchDirectoryListing github (slug r) (packagePath r) = Fulfilled dirs
         ∧ In (dirName p) dirs)
  ∧ ((∀ p, In p found → ¬ (language p = solidity ∧ In (dirName p) OBJECT_PROTOTYPE)) →
     ∃ registry,
       mapM typed found = Some registry
       ∧ ∀ p, In p registry →
           ∃ Q, getByName registry (name p) = Some Q ∧ In Q registry
                ∧ toLowerCase (name Q) = toLowerCase (name p)).
Proof.
  rewrite discoverAllPackages_outcome.
  destruct (JsArray.sortWith _ _) as [r | e] eqn:Hsort; cbn [settle]; [|done].
  intros [= <-]. apply sortWith_perm in Hsort.
  assert (Hsurvivor : ∀ p, In p r → In p (allSurvivors github))
    by (intros p; by apply Permutation_in).
  split.
  - intros p Hp. apply Hsurvivor, allSurvivors_In in Hp.
    destruct Hp as (cfg & dirs & dir & manifest & Hr & Hdirs & Hdir & _ & ->).
    cbn [packageOf name dirName language category crossLanguageId installCommand repo].
    split; [done|]. split; [done|]. split; [done|].
    exists cfg, dirs. split; [by apply getRepoForLanguage_REPOS|]. by repeat split.
  - intros Hown.
    assert (is_Some (mapM typed r)) as [registry Hregistry].
    { apply mapM_is_Some, Forall_forall. intros p Hp. apply list_elem_of_In in Hp.
      apply typed_named.
      destruct (survivor_name github p (Hsurvivor p Hp)) as [H | (Hl & Hin & _)]; [done|].
      destruct (Hown p Hp). done. }
    exists registry. split; [done|]. intros p Hp. by apply getByName_own_name.
Qed.

Lemma discovered_packages_derived_witness :
  ∃ found,
    discoverAllPackages partialFailures compareCodeUnits = Fulfilled found
    ∧ map (λ p, (name p, category p, installCommand p)) found
      = [(Str "@zk-kit/lean-imt", merkle_trees, "npm i @zk-kit/lean-imt");
         (Str "@zk-kit/lean-imt.sol", merkle_trees, "npm i @zk-kit/lean-imt.sol");
         (Str "zk-kit-lean-imt", merkle_trees, "cargo add zk-kit-lean-imt")]
    ∧ ∀ p, In p found → name p = deriveName (dirName p) (language p).
Proof.
  destruct (discoverAllPackages partialFailures compareCodeUnits) as [found | reason]
    eqn:Hfound; [|vm_compute in Hfound; discriminate].
  exists found. split; [reflexivity|]. split.
  - vm_compute in Hfound. injection Hfound as <-. reflexivity.
  - intros p Hp.
    apply (proj1 (discovered_packages_derived partialFailures compareCodeUnits found Hfound)
             p Hp).
Defined.

(** ** Further runs *)

(** tests/github.test.ts, "truncate". *)
Example truncate_examples :
  (truncate "hello" 100, truncate "exact" 5,
   truncate "The quick brown fox jumps over the lazy dog" 20,
   truncate "superlongwordwithoutspaces and more" 20)
  = ("hello", "exact", "The quick brown fox...", "superlongwordwithout...").
Proof. vm_compute. reflexivity. Qed.

(** tests/cache.test.ts, "expires entries after TTL" and "overwriting
    resets TTL", with the clock started at 0. *)
Example cache_expiry :
  let c := Cache.set 0 "key" "value" (Cache.new 5000) in
  ((Cache.get 4999 "key" c).1, (Cache.get 5001 "key" c).1,
   (Cache.get 7000 "key" (Cache.set 3000 "key" "v2" c)).1,
   (Cache.get 8001 "key" (Cache.set 3000 "key" "v2" c)).1)
  = (Some "value", None, Some "v2", None).
Proof. vm_compute. reflexivity. Qed.

(** The registry tests, "compare": "returns message if all not found"
    and "handles not-found packages", on the registry above. *)
Example compare_examples :
  compare Fixture.SYNTHETIC_PACKAGES ["nope1"; "nope2"] = "No packages found for: nope1, nope2"
  ∧ compare Fixture.SYNTHETIC_PACKAGES ["@zk-kit/lean-imt"; "nonexistent"]
    = "| Property | @zk-kit/lean-imt |" +:+ nl
      +:+ "|----------|---|" +:+ nl
      +:+ "| Language | typescript |" +:+ nl
      +:+ "| Category | merkle-trees |" +:+ nl
      +:+ "| Version | - |" +:+ nl
      +:+ "| Description | Lean Incremental Merkle Tree implementation |" +:+ nl
      +:+ "| Install | `npm i @zk-kit/lean-imt` |" +:+ nl
      +:+ "| Cross-lang ID | lean-imt |" +:+ nl
      +:+ "| Repo | https://github.com/zk-kit/zk-kit/tree/main/packages/lean-imt |" +:+ nl
      +:+ nl +:+ "**Not found:** nonexistent"
      +:+ nl +:+ nl +:+ "**Other language variants:**" +:+ nl
      +:+ "- @zk-kit/lean-imt.sol (solidity)" +:+ nl
      +:+ "- zk-kit-lean-imt (rust)" +:+ nl.
Proof. split; vm_compute; reflexivity. Qed.

(** A package with a version and one without a description. *)
Example overview_versions :
  getEcosystemOverview
    [{| name := "@zk-kit/lean-imt"; dirName := "lean-imt"; language := typescript;
        category := merkle_trees; repo := EmptyString; description := EmptyString;
        installCommand := "npm i @zk-kit/lean-imt"; crossLanguageId := "lean-imt";
        version := Some "1.2.3"; zkKitDependencies := [] |}]
  = "# ZK-Kit Ecosystem" +:+ nl +:+ nl
    +:+ "**1 packages** across 1 languages" +:+ nl +:+ nl
    +:+ "## typescript (1 packages)" +:+ nl +:+ nl
    +:+ "### merkle-trees" +:+ nl
    +:+ "- **@zk-kit/lean-imt** (v1.2.3): (no description)" +:+ nl +:+ nl.
Proof. vm_compute. reflexivity. Qed.

Example overview_of_test_registry :
  getEcosystemOverview Fixture.SYNTHETIC_PACKAGES
  = "# ZK-Kit Ecosystem" +:+ nl +:+ nl
    +:+ "**6 packages** across 3 languages" +:+ nl +:+ nl
    +:+ "## typescript (3 packages)" +:+ nl +:+ nl
    +:+ "### merkle-trees" +:+ nl
    +:+ "- **@zk-kit/lean-imt**: Lean Incremental Merkle Tree implementation" +:+ nl +:+ nl
    +:+ "### cryptography" +:+ nl
    +:+ "- **@zk-kit/poseidon-lite**: Lightweight Poseidon hash" +:+ nl
    +:+ "- **@zk-kit/ecdh**: ECDH shared secret derivation" +:+ nl +:+ nl
    +:+ "## solidity (2 packages)" +:+ nl +:+ nl
    +:+ "### merkle-trees" +:+ nl
    +:+ "- **@zk-kit/lean-imt.sol**: Lean IMT in Solidity" +:+ nl +:+ nl
    +:+ "### access-control" +:+ nl
    +:+ "- **@zk-kit/excubiae**: Access control for ZK verification" +:+ nl +:+ nl
    +:+ "## rust (1 packages)" +:+ nl +:+ nl
    +:+ "### merkle-trees" +:+ nl
    +:+ "- **zk-kit-lean-imt**: Lean IMT in Rust" +:+ nl +:+ nl
    +:+ "## Cross-Language Packages" +:+ nl +:+ nl
    +:+ "- **lean-imt**: typescript, solidity, rust" +:+ nl.
Proof. vm_compute. reflexivity. Qed.

Example dependency_ids_examples :
  npmDependencies ["@zk-kit/utils"; "poseidon-lite"; "@zk-kit/lean-imt.sol";
                   "@zk-kit/poseidon-proof.circom"]
  = ["utils"; "lean-imt"; "poseidon-proof"]
  ∧ cargoDependencies ["zk-kit-lean-imt"; "serde"] = ["lean-imt"].
Proof. split; vm_compute; reflexivity. Qed.
